(** * Oracle / circuit synthesis engine of qopexp

    A shallow embedding of [qopexp/kernels/qasm_primitives.py] (the ladder
    decomposer, the prefix predicate compiler, the range composer, the phase
    oracle, the diffusion operator and the two circuit assemblers) and of the
    predicate handling of [GroverQFilterKernel.build] and
    [MLAESelectivityKernel.build], together with a classical simulator for
    the reversible part of the gate vocabulary. *)

From Stdlib Require Import String Ascii DecimalString DecimalNat ZArith Arith
  Bool Lia List.
Import ListNotations.

Local Open Scope nat_scope.

(** ** Gate programs *)

(** One element of the Python [lines] buffer.  Every gate statement is built by
    an f-string from the register name and qubit numbers; the constructor
    keeps the qubit numbers and [qasm] prints the text the f-string produces.
    [Text] is a line appended verbatim (header, declarations, comment). *)
Inductive line : Type :=
| Text (s : string)
| Gx (t : nat)
| Gcx (c t : nat)
| Gccx (a b t : nat)
| Gh (t : nat)
| Gz (t : nat)
| Gmeasure (t : nat).

(** [str(n)] for a non-negative and for an arbitrary Python int. *)
Definition dec (n : nat) : string := NilEmpty.string_of_uint (Nat.to_uint n).
Definition decZ (z : Z) : string := NilZero.string_of_int (Z.to_int z).

Definition qref (q : string) (i : nat) : string :=
  (q ++ "[" ++ dec i ++ "]")%string.

Definition qasm (q : string) (l : line) : string :=
  match l with
  | Text s => s
  | Gx t => ("x " ++ qref q t ++ ";")%string
  | Gcx c t => ("cx " ++ qref q c ++ "," ++ qref q t ++ ";")%string
  | Gccx a b t =>
      ("ccx " ++ qref q a ++ "," ++ qref q b ++ "," ++ qref q t ++ ";")%string
  | Gh t => ("h " ++ qref q t ++ ";")%string
  | Gz t => ("z " ++ qref q t ++ ";")%string
  | Gmeasure t => ("measure " ++ qref q t ++ " -> c[0];")%string
  end.

Definition is_ccx (l : line) : bool :=
  match l with Gccx _ _ _ => true | _ => false end.

Definition is_z (l : line) : bool :=
  match l with Gz _ => true | _ => false end.

(** A gate or measurement statement, as opposed to a verbatim line. *)
Definition is_gate (l : line) : bool :=
  match l with Text _ => false | _ => true end.

(** The statements a classical bit-level simulation can execute. *)
Definition classical (l : line) : bool :=
  match l with Gx _ | Gcx _ _ | Gccx _ _ _ => true | _ => false end.

(** ** Emitters: a shared append-only buffer and Python exceptions *)

Inductive exn : Type :=
| ValueError (msg : string)
| IndexError.

Inductive outcome (A : Type) : Type :=
| Ok (a : A)
| Raise (e : exn).
Arguments Ok {A} a.
Arguments Raise {A} e.

(** A computation over the mutable list [lines]: what was appended before an
    exception stays appended. *)
Definition Emit (A : Type) : Type := list line -> outcome A * list line.

Definition ret {A} (a : A) : Emit A := fun lines => (Ok a, lines).

Definition bind {A B} (m : Emit A) (f : A -> Emit B) : Emit B :=
  fun lines =>
    match m lines with
    | (Ok a, lines') => f a lines'
    | (Raise e, lines') => (Raise e, lines')
    end.

Definition raise {A} (e : exn) : Emit A := fun lines => (Raise e, lines).

Definition append (l : line) : Emit unit := fun lines => (Ok tt, lines ++ [l]).

Declare Scope emit_scope.
Delimit Scope emit_scope with emit.
Notation "x <- m ;; k" := (bind m (fun x => k))
  (at level 61, m at next level, right associativity) : emit_scope.
Notation "m ;; k" := (bind m (fun _ => k))
  (at level 61, right associativity) : emit_scope.
Local Open Scope emit_scope.

(** [l[i]] for [0 <= i]: out of range raises [IndexError]. *)
Definition getitem {A} (l : list A) (i : nat) : Emit A :=
  match nth_error l i with
  | Some a => ret a
  | None => raise IndexError
  end.

(** [for a in l: body(a)]. *)
Fixpoint for_ {A} (l : list A) (body : A -> Emit unit) : Emit unit :=
  match l with
  | [] => ret tt
  | a :: l' => body a ;; for_ l' body
  end.

(** A loop that updates local variables [acc]. *)
Fixpoint for_acc {A S} (l : list A) (body : S -> A -> Emit S) (acc : S)
  : Emit S :=
  match l with
  | [] => ret acc
  | a :: l' => acc' <- body acc a ;; for_acc l' body acc'
  end.

(** [range(lo, hi)], and the descending ranges of the source:
    [range(hi - 1, lo - 1, -1)] lists [hi-1, ..., lo], that is
    [range(lo, hi)] reversed ([range(n-1, -1, -1)] is [range_rev 0 n],
    [range(n-1, i, -1)] is [range_rev (i+1) n], and [range(k-2, 1, -1)] is
    [range_rev 2 (k-1)]). *)
Definition range_ (lo hi : nat) : list nat := seq lo (hi - lo).
Definition range_rev (lo hi : nat) : list nat := rev (range_ lo hi).

(** ** qasm_primitives.py *)

Definition _inv (qubits : list nat) : Emit unit :=
  for_ qubits (fun qb => append (Gx qb)).

Definition mcx_error (need k got : nat) : exn :=
  ValueError ("mcx_ladder needs " ++ dec need ++ " work qubits for " ++ dec k
              ++ " controls, got " ++ dec got)%string.

Definition mcx_ladder (controls : list nat) (target : nat) (work : list nat)
  : Emit unit :=
  let k := length controls in
  if k =? 0 then append (Gx target)
  else if k =? 1 then
    c0 <- getitem controls 0 ;;
    append (Gcx c0 target)
  else if k =? 2 then
    c0 <- getitem controls 0 ;;
    c1 <- getitem controls 1 ;;
    append (Gccx c0 c1 target)
  else
    let need := k - 2 in
    if length work <? need then raise (mcx_error need k (length work))
    else
      (* compute ladder *)
      (c0 <- getitem controls 0 ;;
       c1 <- getitem controls 1 ;;
       w0 <- getitem work 0 ;;
       append (Gccx c0 c1 w0)) ;;
      for_ (range_ 2 (k - 1)) (fun i =>
        ci <- getitem controls i ;;
        wa <- getitem work (i - 2) ;;
        wb <- getitem work (i - 1) ;;
        append (Gccx ci wa wb)) ;;
      (* last step into target *)
      (ck <- getitem controls (k - 1) ;;
       wn <- getitem work (need - 1) ;;
       append (Gccx ck wn target)) ;;
      (* uncompute ladder *)
      for_ (range_rev 2 (k - 1)) (fun i =>
        ci <- getitem controls i ;;
        wa <- getitem work (i - 2) ;;
        wb <- getitem work (i - 1) ;;
        append (Gccx ci wa wb)) ;;
      (c0 <- getitem controls 0 ;;
       c1 <- getitem controls 1 ;;
       w0 <- getitem work 0 ;;
       append (Gccx c0 c1 w0)).

(** [bits = [(C >> i) & 1 for i in range(n)]]. *)
Definition bits_of (C : Z) (n : nat) : list Z :=
  map (fun i => Z.land (Z.shiftr C (Z.of_nat i)) 1) (range_ 0 n).

(** The inner loop over the higher bits [j > i]: it fills the local lists
    [controls] and [zero_controls]. *)
Definition higher_controls (index : list nat) (bits : list Z) (n i : nat)
  : Emit (list nat * list nat) :=
  for_acc (range_rev (i + 1) n)
    (fun '(controls, zero_controls) j =>
       qb <- getitem index j ;;
       bj <- getitem bits j ;;
       if (bj =? 1)%Z then ret (controls ++ [qb], zero_controls)
       else ret (controls ++ [qb], zero_controls ++ [qb]))
    ([], []).

Definition mark_less_than_constant_disjoint_terms
  (index : list nat) (flag : nat) (C : Z) (work : list nat) : Emit unit :=
  let n := length index in
  if (C <=? 0)%Z then ret tt
  else
    let maxC := Z.shiftl 1 (Z.of_nat n) in
    if (C >=? maxC)%Z then append (Gx flag)
    else
      let bits := bits_of C n in
      for_ (range_rev 0 n) (fun i =>
        bi <- getitem bits i ;;
        if negb (bi =? 1)%Z then ret tt
        else
          cz <- higher_controls index bits n i ;;
          qb_i <- getitem index i ;;
          let controls := fst cz ++ [qb_i] in
          let zero_controls := snd cz ++ [qb_i] in
          _inv zero_controls ;;
          mcx_ladder controls flag work ;;
          _inv zero_controls).

Definition mark_range_lo_hi
  (index : list nat) (flag_out tmp_hi tmp_lo : nat) (lo hi : Z)
  (work : list nat) : Emit unit :=
  mark_less_than_constant_disjoint_terms index tmp_hi hi work ;;
  mark_less_than_constant_disjoint_terms index tmp_lo lo work ;;
  append (Gx tmp_lo) ;;
  append (Gccx tmp_hi tmp_lo flag_out) ;;
  append (Gx tmp_lo).

Definition uncompute_range_lo_hi
  (index : list nat) (flag_out tmp_hi tmp_lo : nat) (lo hi : Z)
  (work : list nat) : Emit unit :=
  append (Gx tmp_lo) ;;
  append (Gccx tmp_hi tmp_lo flag_out) ;;
  append (Gx tmp_lo) ;;
  mark_less_than_constant_disjoint_terms index tmp_lo lo work ;;
  mark_less_than_constant_disjoint_terms index tmp_hi hi work.

Definition phase_oracle_qfilter
  (index : list nat) (flag_range tmp_hi tmp_lo : nat) (pred_type : string)
  (lo hi : Z) (work : list nat) : Emit unit :=
  if (pred_type =? "qid_lt")%string then
    mark_less_than_constant_disjoint_terms index flag_range hi work ;;
    append (Gz flag_range) ;;
    mark_less_than_constant_disjoint_terms index flag_range hi work
  else
    (* default: range predicate *)
    mark_range_lo_hi index flag_range tmp_hi tmp_lo lo hi work ;;
    append (Gz flag_range) ;;
    uncompute_range_lo_hi index flag_range tmp_hi tmp_lo lo hi work.

Definition diffusion_about_uniform (index work : list nat) : Emit unit :=
  let n := length index in
  for_ index (fun qb => append (Gh qb)) ;;
  for_ index (fun qb => append (Gx qb)) ;;
  (if n =? 1 then
     i0 <- getitem index 0 ;;
     append (Gz i0)
   else
     target <- getitem index 0 ;;
     let controls := tl index in
     append (Gh target) ;;
     mcx_ladder controls target work ;;
     append (Gh target)) ;;
  for_ index (fun qb => append (Gx qb)) ;;
  for_ index (fun qb => append (Gh qb)).

Definition prepare_uniform (index : list nat) : Emit unit :=
  for_ index (fun qb => append (Gh qb)).

Definition final_compute_and_measure_flag
  (index : list nat) (flag_out tmp_hi tmp_lo : nat) (pred_type : string)
  (lo hi : Z) (work : list nat) : Emit unit :=
  if (pred_type =? "qid_lt")%string then
    mark_less_than_constant_disjoint_terms index flag_out hi work ;;
    append (Gmeasure flag_out)
  else
    mark_range_lo_hi index flag_out tmp_hi tmp_lo lo hi work ;;
    append (Gmeasure flag_out).

(** [max(0, n_index - 2)] on Python integers. *)
Definition work_count (n_index : nat) : nat :=
  Z.to_nat (Z.max 0 (Z.of_nat n_index - 2)).

(** [max(0, int(iterations))]. *)
Definition repetitions (iterations : Z) : nat := Z.to_nat (Z.max 0 iterations).

(** ["\n".join(lines) + "\n"]. *)
Definition join_lines (q : string) (lines : list line) : string :=
  (String.concat (String (ascii_of_nat 10) "") (map (qasm q) lines)
   ++ String (ascii_of_nat 10) "")%string.

Definition grover_comment (n_index : nat) (iterations : Z) (pred_type : string)
  (lo hi : Z) : string :=
  ("// kernel=grover_qfilter n_index=" ++ dec n_index ++ " iters="
   ++ decZ iterations ++ " pred=" ++ pred_type ++ " lo=" ++ decZ lo ++ " hi="
   ++ decZ hi)%string.

Definition mlae_comment (n_index : nat) (k : Z) (pred_type : string)
  (lo hi : Z) : string :=
  ("// kernel=mlae_selectivity n_index=" ++ dec n_index ++ " k=" ++ decZ k
   ++ " pred=" ++ pred_type ++ " lo=" ++ decZ lo ++ " hi=" ++ decZ hi)%string.

Definition qreg_decl (q : string) (total : nat) : string :=
  ("qreg " ++ q ++ "[" ++ dec total ++ "];")%string.

Section Assembler.

(** [qasm2_header()] comes from [kernels/utils.py], which is not part of the
    sources at hand: the text it returns is a parameter. *)
Variable qasm2_header : string.

Definition finish (m : Emit unit) : outcome string :=
  match m [] with
  | (Ok _, lines) => Ok (join_lines "q" lines)
  | (Raise e, _) => Raise e
  end.

(** The statements of [build_qasm2_grover_qfilter] up to its [return]. *)
Definition grover_qfilter_lines (n_index : nat) (iterations : Z)
  (pred_type : string) (lo hi : Z) (flags_count : nat) : Emit unit :=
  let q := "q"%string in
  let work_n := work_count n_index in
  let total := n_index + flags_count + work_n in
  let index := range_ 0 n_index in
  let flags := range_ n_index (n_index + flags_count) in
  let work := range_ (n_index + flags_count) total in
  flag_range <- getitem flags 0 ;;
  tmp_hi <- (if 2 <=? flags_count then getitem flags 1 else getitem flags 0) ;;
  tmp_lo <- (if 3 <=? flags_count then getitem flags 2 else getitem flags 0) ;;
  (* lines = [header, qreg, creg, comment]: the new buffer starts with these *)
  for_ [Text qasm2_header; Text (qreg_decl q total); Text "creg c[1];";
        Text (grover_comment n_index iterations pred_type lo hi)] append ;;
  (* A: uniform superposition *)
  prepare_uniform index ;;
  (* Grover iterations: Sf + diffusion *)
  for_ (range_ 0 (repetitions iterations)) (fun _ =>
    phase_oracle_qfilter index flag_range tmp_hi tmp_lo pred_type lo hi work ;;
    diffusion_about_uniform index work) ;;
  (* Final compute predicate into flag_range and measure it *)
  final_compute_and_measure_flag index flag_range tmp_hi tmp_lo pred_type lo hi
    work.

Definition build_qasm2_grover_qfilter (n_index : nat) (iterations : Z)
  (pred_type : string) (lo hi : Z) (flags_count : nat) : outcome string :=
  finish (grover_qfilter_lines n_index iterations pred_type lo hi flags_count).

(** The statements of [build_qasm2_mlae_schedule_element] up to its
    [return]. *)
Definition mlae_schedule_element_lines (n_index : nat) (k : Z)
  (pred_type : string) (lo hi : Z) (flags_count : nat) : Emit unit :=
  let q := "q"%string in
  let work_n := work_count n_index in
  let total := n_index + flags_count + work_n in
  let index := range_ 0 n_index in
  let flags := range_ n_index (n_index + flags_count) in
  let work := range_ (n_index + flags_count) total in
  flag_range <- getitem flags 0 ;;
  tmp_hi <- (if 2 <=? flags_count then getitem flags 1 else getitem flags 0) ;;
  tmp_lo <- (if 3 <=? flags_count then getitem flags 2 else getitem flags 0) ;;
  for_ [Text qasm2_header; Text (qreg_decl q total); Text "creg c[1];";
        Text (mlae_comment n_index k pred_type lo hi)] append ;;
  prepare_uniform index ;;
  let reps := repetitions k in
  for_ (range_ 0 reps) (fun _ =>
    phase_oracle_qfilter index flag_range tmp_hi tmp_lo pred_type lo hi work ;;
    diffusion_about_uniform index work) ;;
  final_compute_and_measure_flag index flag_range tmp_hi tmp_lo pred_type lo hi
    work.

Definition build_qasm2_mlae_schedule_element (n_index : nat) (k : Z)
  (pred_type : string) (lo hi : Z) (flags_count : nat) : outcome string :=
  finish (mlae_schedule_element_lines n_index k pred_type lo hi flags_count).

End Assembler.

(** ** qfilter_grover.py: predicate handling of [GroverQFilterKernel.build] *)

(** Lines 53-56: an unknown tag falls back to ["qid_lt"]. *)
Definition kernel_pred_type (pred_type : string) : string :=
  if ((pred_type =? "qid_lt") || (pred_type =? "qid_range"))%string
  then pred_type else "qid_lt"%string.

(** [max(0, min(dom, v))]. *)
Definition clamp (dom v : Z) : Z := Z.max 0 (Z.min dom v).

(** Lines 53-78 for one workload instance, after the dictionary lookups:
    [pred_type] is the tag found, [lt_hi] the bound the less-than branch
    reads, [lo] and [hi] the bounds the range branch reads. *)
Definition kernel_circuit (qasm2_header : string) (n_index : nat)
  (iterations : Z) (pred_type : string) (lt_hi lo hi : Z) : outcome string :=
  let pred_type := kernel_pred_type pred_type in
  let lohi :=
    if (pred_type =? "qid_lt")%string then (0%Z, lt_hi) else (lo, hi) in
  let dom := Z.shiftl 1 (Z.of_nat n_index) in
  build_qasm2_grover_qfilter qasm2_header n_index iterations pred_type
    (clamp dom (fst lohi)) (clamp dom (snd lohi)) 3.

(** ** Classical simulation of a gate list on a basis state *)

(** A computational-basis state: the bit of every qubit of the register. *)
Definition state : Type := nat -> bool.

Definition upd (s : state) (t : nat) (b : bool) : state :=
  fun q => if q =? t then b else s q.

(** The action of one statement on the basis content.  Only the reversible
    classical gates act; everything else is left alone here and rejected by
    [simulate]. *)
Definition exec_line (g : line) (s : state) : state :=
  match g with
  | Gx t => upd s t (negb (s t))
  | Gcx c t => upd s t (xorb (s t) (s c))
  | Gccx a b t => upd s t (xorb (s t) (s a && s b))
  | _ => s
  end.

Definition exec (gs : list line) (s : state) : state :=
  fold_left (fun st g => exec_line g st) gs s.

(** Simulation proper: defined exactly on lists of x, cx and ccx
    statements. *)
Fixpoint simulate (gs : list line) (s : state) : option state :=
  match gs with
  | [] => Some s
  | g :: gs' => if classical g then simulate gs' (exec_line g s) else None
  end.

(** Run an emitter on an empty buffer and simulate what it appended. *)
Definition simulate_emitted (m : Emit unit) (s : state) : option state :=
  match m [] with
  | (Ok _, gs) => simulate gs s
  | (Raise _, _) => None
  end.

(** The same with the [z] statements left out. *)
Definition simulate_emitted_without_z (m : Emit unit) (s : state)
  : option state :=
  match m [] with
  | (Ok _, gs) => simulate (filter (fun g => negb (is_z g)) gs) s
  | (Raise _, _) => None
  end.

(** The qubit a statement writes, the qubits it mentions, and the condition
    that its target is not one of its own controls. *)
Definition target_of (g : line) : option nat :=
  match g with
  | Gx t | Gcx _ t | Gccx _ _ t => Some t
  | _ => None
  end.

Definition qubits_of (g : line) : list nat :=
  match g with
  | Text _ => []
  | Gx t | Gh t | Gz t | Gmeasure t => [t]
  | Gcx c t => [c; t]
  | Gccx a b t => [a; b; t]
  end.

Definition wf_gate (g : line) : Prop :=
  match g with
  | Gcx c t => c <> t
  | Gccx a b t => a <> t /\ b <> t
  | _ => True
  end.

(** The work qubits a ladder over [k] controls uses: [work[0 .. k-3]]. *)
Definition used_work (k : nat) (work : list nat) : list nat :=
  firstn (k - 2) work.

(** AND of the bits of a list of qubits. *)
Definition all_set (s : state) (qs : list nat) : bool := forallb s qs.

(** All the listed qubits hold 0. *)
Definition all_zero (s : state) (qs : list nat) : bool :=
  forallb (fun q => negb (s q)) qs.

(** The integer held by a register, least significant qubit first
    ([index[i]] carries bit [i], as [bits[i]] is compared with [index[i]]). *)
Fixpoint reg_value (index : list nat) (s : state) : Z :=
  match index with
  | [] => 0
  | q :: rest => Z.b2z (s q) + 2 * reg_value rest s
  end.

Definition mem (q : nat) (qs : list nat) : bool := existsb (Nat.eqb q) qs.

(** No qubit is listed twice. *)
Fixpoint distinct (qs : list nat) : bool :=
  match qs with
  | [] => true
  | q :: rest => negb (mem q rest) && distinct rest
  end.

(** A register layout as [QRegLayout] describes it: index, flag and work
    qubits are pairwise different qubits of one register. *)
Definition layout_ok (index flags work : list nat) : bool :=
  distinct (index ++ flags ++ work).

(** What "enough work qubits" means for [k] controls. *)
Definition enough_work (k : nat) (work : list nat) : bool :=
  (k <=? 2) || (k - 2 <=? length work).

(** ** Gate lists in closed form *)

Definition emits (m : Emit unit) (gs : list line) : Prop :=
  forall lines, m lines = (Ok tt, lines ++ gs).

Definition ladder_step (controls work : list nat) (i : nat) : line :=
  Gccx (nth i controls 0) (nth (i - 2) work 0) (nth (i - 1) work 0).

(** The compute half of the ladder for [k >= 3] controls. *)
Definition ladder_compute (controls work : list nat) : list line :=
  Gccx (nth 0 controls 0) (nth 1 controls 0) (nth 0 work 0)
  :: map (ladder_step controls work) (range_ 2 (length controls - 1)).

Definition ladder_last (controls : list nat) (target : nat) (work : list nat)
  : line :=
  let k := length controls in
  Gccx (nth (k - 1) controls 0) (nth (k - 2 - 1) work 0) target.

Definition mcx_gates (controls : list nat) (target : nat) (work : list nat)
  : list line :=
  match controls with
  | [] => [Gx target]
  | [c0] => [Gcx c0 target]
  | [c0; c1] => [Gccx c0 c1 target]
  | _ => ladder_compute controls work
         ++ [ladder_last controls target work]
         ++ rev (ladder_compute controls work)
  end.

(** Controls and zero-controls of the term of bit [i]. *)
Definition term_controls (index : list nat) (n i : nat) : list nat :=
  map (fun j => nth j index 0) (range_rev (i + 1) n) ++ [nth i index 0].

Definition term_zero_controls (index : list nat) (C : Z) (n i : nat)
  : list nat :=
  map (fun j => nth j index 0)
    (filter (fun j => negb (Z.testbit C (Z.of_nat j))) (range_rev (i + 1) n))
  ++ [nth i index 0].

Definition term_gates (index : list nat) (flag : nat) (C : Z)
  (work : list nat) (i : nat) : list line :=
  let n := length index in
  if Z.testbit C (Z.of_nat i) then
    map Gx (term_zero_controls index C n i)
    ++ mcx_gates (term_controls index n i) flag work
    ++ map Gx (term_zero_controls index C n i)
  else [].

Definition lt_gates (index : list nat) (flag : nat) (C : Z) (work : list nat)
  : list line :=
  let n := length index in
  if (C <=? 0)%Z then []
  else if (C >=? 2 ^ Z.of_nat n)%Z then [Gx flag]
  else flat_map (term_gates index flag C work) (range_rev 0 n).

Definition and_not_gates (flag_out tmp_hi tmp_lo : nat) : list line :=
  [Gx tmp_lo; Gccx tmp_hi tmp_lo flag_out; Gx tmp_lo].

Definition range_gates (index : list nat) (flag_out tmp_hi tmp_lo : nat)
  (lo hi : Z) (work : list nat) : list line :=
  lt_gates index tmp_hi hi work ++ lt_gates index tmp_lo lo work
  ++ and_not_gates flag_out tmp_hi tmp_lo.

Definition uncompute_gates (index : list nat) (flag_out tmp_hi tmp_lo : nat)
  (lo hi : Z) (work : list nat) : list line :=
  and_not_gates flag_out tmp_hi tmp_lo
  ++ lt_gates index tmp_lo lo work ++ lt_gates index tmp_hi hi work.

Definition oracle_gates (index : list nat) (flag_range tmp_hi tmp_lo : nat)
  (pred_type : string) (lo hi : Z) (work : list nat) : list line :=
  if (pred_type =? "qid_lt")%string then
    lt_gates index flag_range hi work ++ [Gz flag_range]
    ++ lt_gates index flag_range hi work
  else
    range_gates index flag_range tmp_hi tmp_lo lo hi work ++ [Gz flag_range]
    ++ uncompute_gates index flag_range tmp_hi tmp_lo lo hi work.

Definition diffusion_gates (index work : list nat) : list line :=
  map Gh index ++ map Gx index
  ++ (if length index =? 1 then [Gz (nth 0 index 0)]
      else [Gh (nth 0 index 0)]
           ++ mcx_gates (tl index) (nth 0 index 0) work
           ++ [Gh (nth 0 index 0)])
  ++ map Gx index ++ map Gh index.

Definition final_gates (index : list nat) (flag_out tmp_hi tmp_lo : nat)
  (pred_type : string) (lo hi : Z) (work : list nat) : list line :=
  (if (pred_type =? "qid_lt")%string
   then lt_gates index flag_out hi work
   else range_gates index flag_out tmp_hi tmp_lo lo hi work)
  ++ [Gmeasure flag_out].

(** Everything a builder appends after its metadata comment, for
    [n_index >= 1] and [flags_count >= 1]. *)
Definition program_body (n_index reps : nat) (pred_type : string) (lo hi : Z)
  (flags_count : nat) : list line :=
  let total := n_index + flags_count + work_count n_index in
  let index := range_ 0 n_index in
  let work := range_ (n_index + flags_count) total in
  let flag_range := n_index in
  let tmp_hi := if 2 <=? flags_count then n_index + 1 else n_index in
  let tmp_lo := if 3 <=? flags_count then n_index + 2 else n_index in
  map Gh index
  ++ flat_map (fun _ : nat =>
       oracle_gates index flag_range tmp_hi tmp_lo pred_type lo hi work
       ++ diffusion_gates index work) (range_ 0 reps)
  ++ final_gates index flag_range tmp_hi tmp_lo pred_type lo hi work.

Definition preamble (qasm2_header comment : string) (n_index flags_count : nat)
  : list line :=
  [Text qasm2_header;
   Text (qreg_decl "q" (n_index + flags_count + work_count n_index));
   Text "creg c[1];"; Text comment].

(** An emitter that only appends: its outcome and what it appends do not
    depend on what the buffer already holds. *)
Definition appends_only {A} (m : Emit A) : Prop :=
  forall lines, m lines = (fst (m []), lines ++ snd (m [])).

(** The indicator of the term of bit [i]: bit [i] of [C] is 1, bit [i] of
    [x] is 0, and the bits above [i] agree. *)
Definition term_cond (x C : Z) (n i : nat) : bool :=
  Z.testbit C (Z.of_nat i) && negb (Z.testbit x (Z.of_nat i))
  && forallb (fun j => Bool.eqb (Z.testbit x (Z.of_nat j))
                                (Z.testbit C (Z.of_nat j)))
       (range_ (i + 1) n).

(** A basis state given by a list of (qubit, bit) pairs, 0 elsewhere. *)
Definition state_of (bits : list (nat * bool)) : state :=
  fun q =>
    match find (fun p => fst p =? q) bits with
    | Some p => snd p
    | None => false
    end.

(** ** Further notions used to state properties of the emitted programs *)

Definition is_measure (l : line) : bool :=
  match l with Gmeasure _ => true | _ => false end.

(** Every qubit a statement mentions lies in a register of [total] qubits. *)
Definition within (total : nat) (g : line) : bool :=
  forallb (fun q => q <? total) (qubits_of g).

(** No qubit is mentioned twice by one statement. *)
Definition operands_distinct (g : line) : bool := distinct (qubits_of g).

(** Simulation of a basis state together with its sign: x, cx and ccx act on
    the bits, z flips the sign when its qubit holds 1, anything else is
    rejected. *)
Definition phase_step (g : line) (sp : state * bool) : option (state * bool) :=
  match g with
  | Gz t => Some (fst sp, xorb (snd sp) (fst sp t))
  | _ => if classical g then Some (exec_line g (fst sp), snd sp) else None
  end.

Fixpoint simulate_phase (gs : list line) (sp : state * bool)
  : option (state * bool) :=
  match gs with
  | [] => Some sp
  | g :: gs' =>
      match phase_step g sp with
      | Some sp' => simulate_phase gs' sp'
      | None => None
      end
  end.

Definition simulate_phase_emitted (m : Emit unit) (sp : state * bool)
  : option (state * bool) :=
  match m [] with
  | (Ok _, gs) => simulate_phase gs sp
  | (Raise _, _) => None
  end.

(** Simulation of what an emitter appended, the measurements left out. *)
Definition simulate_emitted_without_measure (m : Emit unit) (s : state)
  : option state :=
  match m [] with
  | (Ok _, gs) => simulate (filter (fun g => negb (is_measure g)) gs) s
  | (Raise _, _) => None
  end.

(** The predicate a tag and two bounds stand for in the builders. *)
Definition predicate_holds (pred_type : string) (lo hi x : Z) : bool :=
  if (pred_type =? "qid_lt")%string then (x <? hi)%Z
  else ((lo <=? x) && (x <? hi))%Z.

(** The body of the loop of [mark_less_than_constant_disjoint_terms] for
    bit [i]. *)
Definition term_emitter (index : list nat) (flag : nat) (C : Z)
  (work : list nat) (i : nat) : Emit unit :=
  let n := length index in
  let bits := bits_of C n in
  bi <- getitem bits i ;;
  if negb (bi =? 1)%Z then ret tt
  else
    cz <- higher_controls index bits n i ;;
    qb_i <- getitem index i ;;
    let controls := fst cz ++ [qb_i] in
    let zero_controls := snd cz ++ [qb_i] in
    _inv zero_controls ;;
    mcx_ladder controls flag work ;;
    _inv zero_controls.

(** The term of bit [i] asks for a ladder that [work] cannot serve. *)
Definition term_lacks_work (index : list nat) (C : Z) (work : list nat)
  (i : nat) : bool :=
  Z.testbit C (Z.of_nat i) && negb (enough_work (length index - i) work).

(** Every statement of a list mentions only the listed qubits. *)
Definition uses_only (allowed : list nat) (gs : list line) : Prop :=
  Forall (fun g => incl (qubits_of g) allowed) gs.

(** No qubit a statement mentions lies in [a .. b-1]. *)
Definition avoids (a b : nat) (g : line) : bool :=
  forallb (fun q => (q <? a) || (b <=? q)) (qubits_of g).

(** ** The kernels' reading of a workload instance *)

(** A predicate or tags dictionary of a workload instance, as the pairs of
    its keys and values; a key has one pair, the first one is the one read. *)
Definition dict (value : Type) : Type := list (string * value).

(** [d.get(key, default)]. *)
Fixpoint dict_get {value} (d : dict value) (key : string) (default : value)
  : value :=
  match d with
  | [] => default
  | (k, v) :: rest =>
      if (k =? key)%string then v else dict_get rest key default
  end.

Section Instance.

(** The values the dictionaries hold, with what Python's [int()] makes of one
    (an integer, or an exception of type [error]), its truth value, and the
    literal [0]. *)
Variables (value error : Type).
Variable int_ : value -> error + Z.
Variable truthy : value -> bool.
Variable zero : value.

(** [a or b]. *)
Definition or_ (a b : value) : value := if truthy a then a else b.

(** qfilter_grover.py lines 58-64 and qsel_mlae.py lines 53-58: the pair
    [(lo, hi)] for the tag left by lines 53-56.  The less-than branch converts
    one value, the range branch [lo] and then [hi]; the first conversion that
    raises ends the evaluation. *)
Definition kernel_bounds (pred_type : string) (pred tags : dict value)
  : error + Z * Z :=
  if (pred_type =? "qid_lt")%string then
    match int_ (dict_get pred "hi"
                  (or_ (dict_get pred "M" (dict_get tags "M" zero)) zero)) with
    | inl e => inl e
    | inr hi => inr (0%Z, hi)
    end
  else
    match int_ (or_ (dict_get pred "lo" zero) zero) with
    | inl e => inl e
    | inr lo =>
        match int_ (or_ (dict_get pred "hi" zero) zero) with
        | inl e => inl e
        | inr hi => inr (lo, hi)
        end
    end.

(** qfilter_grover.py lines 53-78 for one workload instance: [pred_type] is
    the string of line 53, [pred] and [tags] the two dictionaries.  [inl e]:
    a conversion raised [e] and the builder was not called; [inr o]: the
    builder was called and [o] is its outcome. *)
Definition grover_kernel_call (qasm2_header : string) (n_index : nat)
  (iterations : Z) (pred_type : string) (pred tags : dict value)
  : error + outcome string :=
  let pred_type := kernel_pred_type pred_type in
  match kernel_bounds pred_type pred tags with
  | inl e => inl e
  | inr (lo, hi) =>
      let dom := Z.shiftl 1 (Z.of_nat n_index) in
      inr (build_qasm2_grover_qfilter qasm2_header n_index iterations
             pred_type (clamp dom lo) (clamp dom hi) 3)
  end.

(** qsel_mlae.py lines 49-65 followed by lines 68-76 for an entry [k] of
    [k_list] that the loop reaches: the bounds, the conversions of [N] and
    [M], the conversion of [k], and the call of the builder. *)
Definition mlae_kernel_call (qasm2_header : string) (n_index : nat)
  (k : value) (pred_type : string) (pred tags : dict value)
  : error + outcome string :=
  let pred_type := kernel_pred_type pred_type in
  match kernel_bounds pred_type pred tags with
  | inl e => inl e
  | inr (lo, hi) =>
      let dom := Z.shiftl 1 (Z.of_nat n_index) in
      match int_ (or_ (dict_get pred "N" (dict_get tags "N" zero)) zero) with
      | inl e => inl e
      | inr _ =>
          match
            int_ (or_ (dict_get pred "M" (dict_get tags "M" zero)) zero)
          with
          | inl e => inl e
          | inr _ =>
              match int_ k with
              | inl e => inl e
              | inr k_int =>
                  inr (build_qasm2_mlae_schedule_element qasm2_header n_index
                         k_int pred_type (clamp dom lo) (clamp dom hi) 3)
              end
          end
      end
  end.

End Instance.

Arguments or_ {value} truthy a b.
Arguments kernel_bounds {value error} int_ truthy zero pred_type pred tags.
Arguments grover_kernel_call {value error} int_ truthy zero qasm2_header
  n_index iterations pred_type pred tags.
Arguments mlae_kernel_call {value error} int_ truthy zero qasm2_header n_index
  k pred_type pred tags.

(** A fragment of Python's values: [None] and the integers, with [int()]
    (which raises [TypeError] on [None]) and the truth value. *)
Inductive pyval : Type :=
| PNone
| PInt (z : Z).

Inductive conversion_error : Type :=
| TypeError.

Definition py_int (v : pyval) : conversion_error + Z :=
  match v with
  | PNone => inl TypeError
  | PInt z => inr z
  end.

Definition py_truthy (v : pyval) : bool :=
  match v with
  | PNone => false
  | PInt z => negb (z =? 0)%Z
  end.

(** ** The text of a program, line by line *)

(** The character that ["\n".join(lines) + "\n"] puts after every line. *)
Definition line_feed : ascii := ascii_of_nat 10.

(** Printable ASCII: no line feed and no other control character. *)
Definition printable_char (c : ascii) : bool :=
  (32 <=? nat_of_ascii c) && (nat_of_ascii c <=? 126).

Fixpoint printable (s : string) : bool :=
  match s with
  | EmptyString => true
  | String c r => printable_char c && printable r
  end.

(** The lines of a text: every line feed ends a line, and a last line needs
    none. *)
Fixpoint text_lines (s : string) : list string :=
  match s with
  | EmptyString => []
  | String c r =>
      if Ascii.eqb c line_feed then EmptyString :: text_lines r
      else match text_lines r with
           | [] => [String c EmptyString]
           | l :: ls => String c l :: ls
           end
  end.

(** A line without its leading blanks and control characters. *)
Fixpoint lstrip (s : string) : string :=
  match s with
  | EmptyString => EmptyString
  | String c r => if nat_of_ascii c <=? 32 then lstrip r else s
  end.

(** A line that opens, after blanks, with the keyword [qreg]. *)
Definition declares_register (l : string) : bool :=
  String.prefix "qreg" (lstrip l).

Definition is_digit (c : ascii) : bool :=
  (48 <=? nat_of_ascii c) && (nat_of_ascii c <=? 57).

Fixpoint digits (s : string) : bool :=
  match s with
  | EmptyString => true
  | String c r => is_digit c && digits r
  end.

(** [body] is a reading of the text lines [tail] as statements: gates and
    measurements only, the i-th of which prints as the i-th line. *)
Definition statements_of (tail : list string) (body : list line) : Prop :=
  forallb is_gate body = true /\ map (qasm "q") body = tail.

(** What a builder returned, read off the returned text itself: the header and
    a line feed, then the lines [decl], ["creg c[1];"], [comment], then lines
    that read as statements -- and [P] holds of every such reading. *)
Definition builder_output (result : outcome string)
  (header decl comment : string) (P : list line -> Prop) : Prop :=
  exists rest tail,
    result = Ok (header ++ String line_feed rest)%string
    /\ text_lines rest = decl :: "creg c[1];"%string :: comment :: tail
    /\ (exists body, statements_of tail body)
    /\ (forall body, statements_of tail body -> P body).

(** * Properties *)

(** ** The emitter monad *)

Lemma bind_ok {A B} (m : Emit A) (f : A -> Emit B) lines a lines' :
  m lines = (Ok a, lines') -> bind m f lines = f a lines'.
Proof. intros E. unfold bind. now rewrite E. Qed.

Lemma bind_raise {A B} (m : Emit A) (f : A -> Emit B) lines e lines' :
  m lines = (Raise e, lines') -> bind m f lines = (Raise e, lines').
Proof. intros E. unfold bind. now rewrite E. Qed.

Lemma getitem_ok {A} (l : list A) i d lines :
  i < length l -> getitem l i lines = (Ok (nth i l d), lines).
Proof.
  intros Hi. unfold getitem. now rewrite (nth_error_nth' l d Hi).
Qed.

Lemma bind_getitem {A B} (l : list A) i d (f : A -> Emit B) lines :
  i < length l -> bind (getitem l i) f lines = f (nth i l d) lines.
Proof. intros Hi. now rewrite (bind_ok _ _ _ _ _ (getitem_ok l i d lines Hi)). Qed.

Lemma emits_ret : emits (ret tt) [].
Proof. intros lines. unfold ret. now rewrite app_nil_r. Qed.

Lemma emits_append g : emits (append g) [g].
Proof. now intros lines. Qed.

Lemma emits_bind m1 m2 g1 g2 :
  emits m1 g1 -> emits m2 g2 -> emits (m1 ;; m2) (g1 ++ g2).
Proof.
  intros H1 H2 lines. rewrite (bind_ok _ _ _ _ _ (H1 lines)), H2.
  now rewrite app_assoc.
Qed.

Lemma emits_for {A} (l : list A) (body : A -> Emit unit) (g : A -> list line) :
  (forall a, In a l -> emits (body a) (g a)) ->
  emits (for_ l body) (flat_map g l).
Proof.
  induction l as [|a l IH]; intros Hb; simpl.
  - apply emits_ret.
  - apply emits_bind.
    + apply Hb. now left.
    + apply IH. intros b Hin. apply Hb. now right.
Qed.

Lemma emits_for_map {A} (l : list A) (body : A -> Emit unit) (g : A -> line) :
  (forall a, In a l -> emits (body a) [g a]) ->
  emits (for_ l body) (map g l).
Proof.
  induction l as [|a l IH]; intros Hb; simpl.
  - apply emits_ret.
  - apply (emits_bind _ _ [g a] (map g l)).
    + apply Hb. now left.
    + apply IH. intros b Hin. apply Hb. now right.
Qed.

(** ** The ladder decomposer: what it appends *)

Lemma mcx_gates_ge3 cs t ws :
  3 <= length cs ->
  mcx_gates cs t ws
  = ladder_compute cs ws ++ [ladder_last cs t ws] ++ rev (ladder_compute cs ws).
Proof.
  destruct cs as [|c0 [|c1 [|c2 cs]]]; simpl; intros Hk; try lia.
  reflexivity.
Qed.

Lemma ladder_step_emits cs ws i :
  i < length cs -> 2 <= i -> i - 1 < length ws ->
  emits (ci <- getitem cs i ;;
         wa <- getitem ws (i - 2) ;;
         wb <- getitem ws (i - 1) ;;
         append (Gccx ci wa wb)) [ladder_step cs ws i].
Proof.
  intros Hi H2 Hw lines.
  rewrite (bind_getitem cs i 0) by lia.
  rewrite (bind_getitem ws (i - 2) 0) by lia.
  rewrite (bind_getitem ws (i - 1) 0) by lia.
  reflexivity.
Qed.

Lemma ladder_first_emits cs ws :
  2 <= length cs -> 1 <= length ws ->
  emits (c0 <- getitem cs 0 ;;
         c1 <- getitem cs 1 ;;
         w0 <- getitem ws 0 ;;
         append (Gccx c0 c1 w0))
        [Gccx (nth 0 cs 0) (nth 1 cs 0) (nth 0 ws 0)].
Proof.
  intros Hc Hw lines.
  rewrite (bind_getitem cs 0 0) by lia.
  rewrite (bind_getitem cs 1 0) by lia.
  rewrite (bind_getitem ws 0 0) by lia.
  reflexivity.
Qed.

Lemma ladder_last_emits cs t ws :
  3 <= length cs -> length cs - 2 <= length ws ->
  emits (ck <- getitem cs (length cs - 1) ;;
         wn <- getitem ws (length cs - 2 - 1) ;;
         append (Gccx ck wn t)) [ladder_last cs t ws].
Proof.
  intros Hc Hw lines.
  rewrite (bind_getitem cs (length cs - 1) 0) by lia.
  rewrite (bind_getitem ws (length cs - 2 - 1) 0) by lia.
  reflexivity.
Qed.

Lemma in_range_ lo hi i : In i (range_ lo hi) <-> lo <= i < hi.
Proof. unfold range_. rewrite in_seq. lia. Qed.

Lemma in_range_rev lo hi i : In i (range_rev lo hi) <-> lo <= i < hi.
Proof. unfold range_rev. rewrite <- in_rev. apply in_range_. Qed.

Lemma mcx_ladder_emits cs t ws :
  enough_work (length cs) ws = true ->
  emits (mcx_ladder cs t ws) (mcx_gates cs t ws).
Proof.
  unfold enough_work. intros Hw.
  destruct (Nat.le_gt_cases (length cs) 2) as [Hk|Hk].
  - destruct cs as [|c0 [|c1 [|c2 cs]]]; simpl in Hk; try lia;
      intros lines; reflexivity.
  - assert (Hneed : length cs - 2 <= length ws).
    { apply orb_true_iff in Hw. destruct Hw as [Hw|Hw].
      - apply Nat.leb_le in Hw. lia.
      - now apply Nat.leb_le in Hw. }
    rewrite mcx_gates_ge3 by lia. unfold mcx_ladder.
    destruct (length cs =? 0) eqn:E0; [apply Nat.eqb_eq in E0; lia|].
    destruct (length cs =? 1) eqn:E1; [apply Nat.eqb_eq in E1; lia|].
    destruct (length cs =? 2) eqn:E2; [apply Nat.eqb_eq in E2; lia|].
    destruct (length ws <? length cs - 2) eqn:E3;
      [apply Nat.ltb_lt in E3; lia|].
    unfold ladder_compute.
    change (?a :: ?l) with ([a] ++ l) at 1. rewrite <- app_assoc.
    apply emits_bind; [apply ladder_first_emits; lia|].
    apply emits_bind.
    { apply emits_for_map. intros i Hi. apply in_range_ in Hi.
      apply ladder_step_emits; lia. }
    apply emits_bind; [apply ladder_last_emits; lia|].
    simpl rev. rewrite <- map_rev.
    apply emits_bind.
    { apply emits_for_map. intros i Hi. apply in_range_rev in Hi.
      apply ladder_step_emits; lia. }
    apply ladder_first_emits; lia.
Qed.

Lemma mcx_ladder_raises cs t ws lines :
  enough_work (length cs) ws = false ->
  mcx_ladder cs t ws lines
  = (Raise (mcx_error (length cs - 2) (length cs) (length ws)), lines).
Proof.
  unfold enough_work. intros Hw. apply orb_false_iff in Hw.
  destruct Hw as [Hk Hw]. apply Nat.leb_gt in Hk, Hw.
  unfold mcx_ladder.
  destruct (length cs =? 0) eqn:E0; [apply Nat.eqb_eq in E0; lia|].
  destruct (length cs =? 1) eqn:E1; [apply Nat.eqb_eq in E1; lia|].
  destruct (length cs =? 2) eqn:E2; [apply Nat.eqb_eq in E2; lia|].
  destruct (length ws <? length cs - 2) eqn:E3;
    [reflexivity|apply Nat.ltb_ge in E3; lia].
Qed.

(** ** Simulation: generic facts *)

Lemma exec_app a b s : exec (a ++ b) s = exec b (exec a s).
Proof. apply fold_left_app. Qed.

Lemma exec_cons g gs s : exec (g :: gs) s = exec gs (exec_line g s).
Proof. reflexivity. Qed.

Lemma exec_snoc gs g s : exec (gs ++ [g]) s = exec_line g (exec gs s).
Proof. now rewrite exec_app. Qed.

Lemma upd_same s t b : upd s t b t = b.
Proof. unfold upd. now rewrite Nat.eqb_refl. Qed.

Lemma upd_other s t b q : q <> t -> upd s t b q = s q.
Proof. intros H. unfold upd. apply Nat.eqb_neq in H. now rewrite H. Qed.

Lemma upd_ext s s' t b :
  (forall q, s q = s' q) -> forall q, upd s t b q = upd s' t b q.
Proof. intros E q. unfold upd. destruct (q =? t); auto. Qed.

Lemma exec_line_ext g s s' :
  (forall q, s q = s' q) -> forall q, exec_line g s q = exec_line g s' q.
Proof.
  intros E q. destruct g; simpl; auto; unfold upd;
    destruct (q =? _); auto; now rewrite !E.
Qed.

Lemma exec_ext gs : forall s s',
  (forall q, s q = s' q) -> forall q, exec gs s q = exec gs s' q.
Proof.
  induction gs as [|g gs IH]; intros s s' E q; [apply E|].
  rewrite !exec_cons. apply IH. now apply exec_line_ext.
Qed.

Lemma simulate_exec gs : forall s,
  forallb classical gs = true -> simulate gs s = Some (exec gs s).
Proof.
  induction gs as [|g gs IH]; intros s Hc; simpl in *; auto.
  apply andb_true_iff in Hc. destruct Hc as [Hg Hgs].
  rewrite Hg. now apply IH.
Qed.

(** A qubit that no statement targets keeps its value. *)
Lemma exec_line_frame g s q :
  target_of g <> Some q -> exec_line g s q = s q.
Proof.
  destruct g; simpl; intros H; auto; apply upd_other; congruence.
Qed.

Lemma exec_frame gs : forall s q,
  Forall (fun g => target_of g <> Some q) gs -> exec gs s q = s q.
Proof.
  induction gs as [|g gs IH]; intros s q HF; auto.
  inversion HF; subst. rewrite exec_cons, IH by assumption.
  now apply exec_line_frame.
Qed.

(** x, cx and ccx are their own inverses. *)
Lemma exec_line_involutive g s q :
  wf_gate g -> exec_line g (exec_line g s) q = s q.
Proof.
  destruct g; simpl; intros W; auto; unfold upd;
    destruct (q =? t) eqn:E; auto; apply Nat.eqb_eq in E; subst;
    rewrite ?Nat.eqb_refl.
  - apply negb_involutive.
  - destruct (c =? t) eqn:E; [apply Nat.eqb_eq in E; tauto|].
    now destruct (s t), (s c).
  - destruct W as [Wa Wb].
    destruct (a =? t) eqn:Ea; [apply Nat.eqb_eq in Ea; tauto|].
    destruct (b =? t) eqn:Eb; [apply Nat.eqb_eq in Eb; tauto|].
    now destruct (s t), (s a), (s b).
Qed.

Lemma exec_rev_undo gs : forall s q,
  Forall wf_gate gs -> exec (rev gs) (exec gs s) q = s q.
Proof.
  induction gs as [|g gs IH]; intros s q HF; auto.
  inversion HF; subst. simpl rev. rewrite exec_snoc, exec_cons.
  rewrite (exec_line_ext g _ (exec_line g s)); [|intros q'; now apply IH].
  now apply exec_line_involutive.
Qed.

(** Running a list twice undoes it when the list reads back as itself. *)
Lemma exec_twice gs s q :
  Forall wf_gate gs -> rev gs = gs -> exec gs (exec gs s) q = s q.
Proof. intros HF Hr. rewrite <- Hr at 1. now apply exec_rev_undo. Qed.

(** Statements that do not mention a qubit commute with writing it. *)
Lemma exec_line_upd g s t b q :
  ~ In t (qubits_of g) ->
  exec_line g (upd s t b) q = upd (exec_line g s) t b q.
Proof.
  destruct g; simpl; intros N; auto; unfold upd;
    repeat match goal with
      | |- context [?x =? ?y] => destruct (x =? y) eqn:?
      end;
    repeat match goal with
      | H : (_ =? _) = true |- _ => apply Nat.eqb_eq in H; subst
      end; auto; tauto.
Qed.

Lemma exec_upd gs : forall s t b q,
  Forall (fun g => ~ In t (qubits_of g)) gs ->
  exec gs (upd s t b) q = upd (exec gs s) t b q.
Proof.
  induction gs as [|g gs IH]; intros s t b q HF; auto.
  inversion HF; subst. rewrite !exec_cons.
  rewrite (exec_ext gs _ (upd (exec_line g s) t b));
    [|intros q'; now apply exec_line_upd].
  now apply IH.
Qed.

(** ** Distinct qubits *)

Lemma mem_In q qs : mem q qs = true <-> In q qs.
Proof.
  unfold mem. rewrite existsb_exists. split.
  - intros [x [Hin Hx]]. apply Nat.eqb_eq in Hx. now subst.
  - intros Hin. exists q. split; [assumption|apply Nat.eqb_refl].
Qed.

Lemma mem_false q qs : mem q qs = false <-> ~ In q qs.
Proof.
  rewrite <- mem_In. destruct (mem q qs); split; congruence.
Qed.

Lemma distinct_NoDup qs : distinct qs = true <-> NoDup qs.
Proof.
  induction qs as [|q qs IH]; simpl.
  - split; [constructor|reflexivity].
  - rewrite andb_true_iff, negb_true_iff, mem_false, IH, NoDup_cons_iff.
    reflexivity.
Qed.

Lemma NoDup_app_parts (a b : list nat) :
  NoDup (a ++ b) ->
  NoDup a /\ NoDup b /\ (forall x, In x a -> In x b -> False).
Proof.
  induction a as [|x a IH]; simpl; intros H.
  - repeat split; [constructor|assumption|tauto].
  - apply NoDup_cons_iff in H. destruct H as [Hx H].
    destruct (IH H) as [Ha [Hb Hab]]. repeat split; auto.
    + apply NoDup_cons_iff. split; auto.
      intros Hin. apply Hx, in_or_app. now left.
    + intros y [->|Hy] Hyb; [apply Hx, in_or_app; now right|eauto].
Qed.

Lemma forallb_firstn_S (f : nat -> bool) : forall (l : list nat) n,
  n < length l ->
  forallb f (firstn (S n) l) = forallb f (firstn n l) && f (nth n l 0).
Proof.
  induction l as [|a l IH]; intros n Hn; simpl in Hn; [lia|].
  destruct n as [|n].
  - simpl. now rewrite andb_true_r.
  - change (firstn (S (S n)) (a :: l)) with (a :: firstn (S n) l).
    change (firstn (S n) (a :: l)) with (a :: firstn n l).
    cbn [forallb nth]. rewrite IH by lia. now rewrite andb_assoc.
Qed.

(** ** The ladder decomposer: what its gates compute *)

Section Ladder.

Variables (cs : list nat) (t : nat) (ws : list nat).
Hypothesis Hk : 3 <= length cs.
Hypothesis Hw : length cs - 2 <= length ws.
Hypothesis Hd : distinct (cs ++ t :: used_work (length cs) ws) = true.

Let used := used_work (length cs) ws.

Lemma ladder_parts :
  NoDup used /\ ~ In t cs /\ ~ In t used
  /\ (forall c, In c cs -> In c used -> False).
Proof.
  apply distinct_NoDup in Hd. apply NoDup_app_parts in Hd.
  destruct Hd as [_ [Htu Hdis]]. apply NoDup_cons_iff in Htu.
  destruct Htu as [Ht Hu]. repeat split; auto.
  - intros Hin. apply (Hdis t Hin). now left.
  - intros c Hc Hcu. apply (Hdis c Hc). now right.
Qed.

Lemma used_length : length used = length cs - 2.
Proof. unfold used, used_work. rewrite length_firstn. lia. Qed.

Lemma used_nth j : j < length cs - 2 -> nth j used 0 = nth j ws 0.
Proof.
  intros Hj. unfold used, used_work. rewrite nth_firstn.
  destruct (j <? length cs - 2) eqn:E; auto. apply Nat.ltb_ge in E. lia.
Qed.

Lemma work_In j : j < length cs - 2 -> In (nth j ws 0) used.
Proof.
  intros Hj. rewrite <- used_nth by assumption. apply nth_In.
  now rewrite used_length.
Qed.

Lemma work_neq i j :
  i < length cs - 2 -> j < length cs - 2 -> i <> j ->
  nth i ws 0 <> nth j ws 0.
Proof.
  intros Hi Hj Hij E. apply Hij.
  destruct ladder_parts as [Hnd _].
  apply (proj1 (NoDup_nth used 0) Hnd); rewrite ?used_length; auto.
  now rewrite !used_nth.
Qed.

Lemma control_not_work i j :
  i < length cs -> j < length cs - 2 -> nth i cs 0 <> nth j ws 0.
Proof.
  intros Hi Hj E. destruct ladder_parts as [_ [_ [_ Hdis]]].
  apply (Hdis (nth i cs 0)); [now apply nth_In|].
  rewrite E. now apply work_In.
Qed.

Lemma target_not_control i : i < length cs -> nth i cs 0 <> t.
Proof.
  intros Hi E. destruct ladder_parts as [_ [Ht _]]. apply Ht.
  rewrite <- E. now apply nth_In.
Qed.

Lemma target_not_work j : j < length cs - 2 -> nth j ws 0 <> t.
Proof.
  intros Hj E. destruct ladder_parts as [_ [_ [Ht _]]]. apply Ht.
  rewrite <- E. now apply work_In.
Qed.

(** Every gate of the compute half is one of these. *)
Lemma ladder_compute_In g :
  In g (ladder_compute cs ws) ->
  g = Gccx (nth 0 cs 0) (nth 1 cs 0) (nth 0 ws 0)
  \/ exists i, 2 <= i < length cs - 1 /\ g = ladder_step cs ws i.
Proof.
  unfold ladder_compute. intros [<-|Hin]; [now left|right].
  apply in_map_iff in Hin. destruct Hin as [i [<- Hi]].
  apply in_range_ in Hi. now exists i.
Qed.

Lemma ladder_compute_wf : Forall wf_gate (ladder_compute cs ws).
Proof.
  apply Forall_forall. intros g Hg.
  destruct (ladder_compute_In g Hg) as [->|[i [Hi ->]]]; simpl.
  - split; apply control_not_work; lia.
  - split; [apply control_not_work; lia|apply work_neq; lia].
Qed.

Lemma ladder_compute_avoids_target :
  Forall (fun g => ~ In t (qubits_of g)) (ladder_compute cs ws).
Proof.
  apply Forall_forall. intros g Hg.
  destruct (ladder_compute_In g Hg) as [->|[i [Hi ->]]]; simpl;
    intros [E|[E|[E|[]]]]; revert E;
    try (apply target_not_control; lia); apply target_not_work; lia.
Qed.

Lemma ladder_compute_keeps s q :
  ~ In q used -> exec (ladder_compute cs ws) s q = s q.
Proof.
  intros Hq. apply exec_frame, Forall_forall. intros g Hg.
  destruct (ladder_compute_In g Hg) as [->|[i [Hi ->]]]; simpl;
    intros E; injection E as E; apply Hq; rewrite <- E;
    apply work_In; lia.
Qed.

(** General form: whatever the work qubits hold, only the target changes. *)
Lemma ladder_exec s q :
  exec (mcx_gates cs t ws) s q
  = if q =? t
    then xorb (s t)
           (s (nth (length cs - 1) cs 0)
            && exec (ladder_compute cs ws) s (nth (length cs - 2 - 1) ws 0))
    else s q.
Proof.
  rewrite mcx_gates_ge3 by assumption.
  rewrite exec_app, exec_app.
  set (s1 := exec (ladder_compute cs ws) s).
  change (exec [ladder_last cs t ws] s1)
    with (exec_line (ladder_last cs t ws) s1).
  unfold ladder_last. cbn [exec_line].
  rewrite exec_upd by apply Forall_rev, ladder_compute_avoids_target.
  destruct ladder_parts as [_ [Htc [Htu Hdis]]].
  assert (E1 : s1 t = s t) by (apply ladder_compute_keeps; assumption).
  assert (E2 : s1 (nth (length cs - 1) cs 0) = s (nth (length cs - 1) cs 0)).
  { apply ladder_compute_keeps. intros Hin.
    apply (Hdis (nth (length cs - 1) cs 0)); [apply nth_In; lia|assumption]. }
  rewrite E1, E2. unfold upd at 1. destruct (q =? t); auto.
  unfold s1. apply exec_rev_undo, ladder_compute_wf.
Qed.

(** The compute half on clean work qubits: [work[m]] receives the AND of
    the first [m + 2] controls. *)
Lemma ladder_prefix_frame m s q :
  (forall j, j <= m -> q <> nth j ws 0) ->
  exec (Gccx (nth 0 cs 0) (nth 1 cs 0) (nth 0 ws 0)
        :: map (ladder_step cs ws) (seq 2 m)) s q = s q.
Proof.
  intros Hq. apply exec_frame. constructor.
  - simpl. intros E. injection E as E. now apply (Hq 0); [lia|].
  - apply Forall_forall. intros g Hg. apply in_map_iff in Hg.
    destruct Hg as [i [<- Hi]]. apply in_seq in Hi. simpl.
    intros E. injection E as E. now apply (Hq (i - 1)); [lia|].
Qed.

Lemma ladder_prefix_value s : forall m,
  all_zero s used = true -> m <= length cs - 3 ->
  exec (Gccx (nth 0 cs 0) (nth 1 cs 0) (nth 0 ws 0)
        :: map (ladder_step cs ws) (seq 2 m)) s (nth m ws 0)
  = all_set s (firstn (m + 2) cs).
Proof.
  intros m Hz. unfold all_zero in Hz. rewrite forallb_forall in Hz.
  assert (Hclean : forall j, j < length cs - 2 -> s (nth j ws 0) = false).
  { intros j Hj. apply negb_true_iff, Hz, work_In, Hj. }
  unfold all_set. induction m as [|m IH]; intros Hm.
  - simpl map. rewrite exec_cons. cbn [exec exec_line fold_left].
    rewrite upd_same, Hclean by lia.
    change (0 + 2) with 2. rewrite !forallb_firstn_S by lia.
    simpl. now destruct (s (nth 0 cs 0)).
  - rewrite seq_S, map_app, app_comm_cons. simpl map. rewrite exec_snoc.
    unfold ladder_step at 1.
    replace (S (S m) - 2) with m by lia.
    replace (S (S m) - 1) with (S m) by lia.
    cbn [exec_line]. rewrite upd_same, IH by lia.
    rewrite !ladder_prefix_frame.
    + rewrite Hclean by lia. replace (S m + 2) with (S (m + 2)) by lia.
      rewrite forallb_firstn_S by lia. replace (S (S m)) with (m + 2) by lia.
      simpl. apply andb_comm.
    + intros j Hj. apply control_not_work; lia.
    + intros j Hj. apply work_neq; lia.
Qed.

Lemma ladder_exec_clean s q :
  all_zero s used = true ->
  exec (mcx_gates cs t ws) s q
  = if q =? t then xorb (s t) (all_set s cs) else s q.
Proof.
  intros Hz. rewrite ladder_exec. destruct (q =? t); auto. f_equal.
  unfold ladder_compute, range_.
  replace (length cs - 1 - 2) with (length cs - 3) by lia.
  replace (length cs - 2 - 1) with (length cs - 3) by lia.
  rewrite ladder_prefix_value by (assumption || lia).
  assert (E : all_set s cs = all_set s (firstn (S (length cs - 1)) cs)).
  { replace (S (length cs - 1)) with (length cs) by lia.
    now rewrite firstn_all. }
  rewrite E. unfold all_set. rewrite forallb_firstn_S by lia.
  replace (length cs - 3 + 2) with (length cs - 1) by lia.
  apply andb_comm.
Qed.

End Ladder.

(** ** Bit-level arithmetic behind the prefix terms *)

Lemma testbit_above x n j :
  (0 <= x < 2 ^ n)%Z -> (n <= j)%Z -> Z.testbit x j = false.
Proof.
  intros [H0 Hx] Hj.
  destruct (Z.eq_dec x 0) as [->|Hne]; [apply Z.bits_0|].
  apply Z.bits_above_log2; [assumption|].
  assert (Z.log2 x < n)%Z; [|lia].
  apply Z.log2_lt_pow2; lia.
Qed.

Lemma shiftr_split x i :
  (0 <= i)%Z ->
  Z.shiftr x i = (2 * Z.shiftr x (i + 1) + Z.b2z (Z.testbit x i))%Z.
Proof.
  intros Hi.
  rewrite <- (Z.shiftr_shiftr x i 1) by lia.
  rewrite (Z.shiftr_div_pow2 _ 1) by lia. change (2 ^ 1)%Z with 2%Z.
  replace (Z.testbit x i) with (Z.testbit (Z.shiftr x i) 0)
    by (rewrite Z.shiftr_spec by lia; f_equal; lia).
  rewrite Z.bit0_mod. apply Z.div_mod. lia.
Qed.

(** Comparing from bit [i] upwards, one bit at a time. *)
Lemma ltb_shiftr_step x C i :
  (0 <= i)%Z ->
  (Z.shiftr x i <? Z.shiftr C i)%Z
  = xorb (Z.shiftr x (i + 1) <? Z.shiftr C (i + 1))%Z
      (Z.testbit C i && negb (Z.testbit x i)
       && (Z.shiftr x (i + 1) =? Z.shiftr C (i + 1))%Z).
Proof.
  intros Hi. rewrite (shiftr_split x i), (shiftr_split C i) by assumption.
  set (a := Z.shiftr x (i + 1)). set (b := Z.shiftr C (i + 1)).
  destruct (Z.testbit x i), (Z.testbit C i); cbn [Z.b2z negb];
    match goal with
    | |- (?u <? ?v)%Z = _ => destruct (Z.ltb_spec u v)
    end;
    destruct (Z.ltb_spec a b), (Z.eqb_spec a b); cbn [xorb andb];
    try reflexivity; exfalso; lia.
Qed.

Lemma high_bits_agree x C n i :
  (0 <= x < 2 ^ Z.of_nat n)%Z -> (0 <= C < 2 ^ Z.of_nat n)%Z ->
  forallb (fun j => Bool.eqb (Z.testbit x (Z.of_nat j))
                             (Z.testbit C (Z.of_nat j))) (range_ i n)
  = (Z.shiftr x (Z.of_nat i) =? Z.shiftr C (Z.of_nat i))%Z.
Proof.
  intros Hx HC. apply eq_true_iff_eq.
  rewrite forallb_forall, Z.eqb_eq. split.
  - intros Hb. apply Z.bits_inj'. intros m Hm.
    rewrite !Z.shiftr_spec by assumption.
    destruct (Z.lt_ge_cases (m + Z.of_nat i) (Z.of_nat n)) as [Hlt|Hge].
    + specialize (Hb (Z.to_nat (m + Z.of_nat i))).
      rewrite Z2Nat.id in Hb by lia. apply eqb_prop, Hb, in_range_. lia.
    + rewrite (testbit_above x (Z.of_nat n)), (testbit_above C (Z.of_nat n));
        auto.
  - intros E j Hj. apply in_range_ in Hj.
    replace (Z.of_nat j) with (Z.of_nat (j - i) + Z.of_nat i)%Z by lia.
    rewrite <- !Z.shiftr_spec by lia. rewrite E. apply eqb_reflx.
Qed.

Lemma term_cond_step x C n i :
  (0 <= x < 2 ^ Z.of_nat n)%Z -> (0 <= C < 2 ^ Z.of_nat n)%Z ->
  xorb (Z.shiftr x (Z.of_nat i) <? Z.shiftr C (Z.of_nat i))%Z
       (Z.shiftr x (Z.of_nat (S i)) <? Z.shiftr C (Z.of_nat (S i)))%Z
  = term_cond x C n i.
Proof.
  intros Hx HC. unfold term_cond.
  rewrite high_bits_agree by assumption.
  rewrite ltb_shiftr_step by lia.
  replace (Z.of_nat (i + 1)) with (Z.of_nat i + 1)%Z by lia.
  replace (Z.of_nat (S i)) with (Z.of_nat i + 1)%Z by lia.
  destruct (Z.shiftr x (Z.of_nat i + 1) <? Z.shiftr C (Z.of_nat i + 1))%Z;
    destruct (Z.testbit C (Z.of_nat i) && negb (Z.testbit x (Z.of_nat i))
              && (Z.shiftr x (Z.of_nat i + 1) =? Z.shiftr C (Z.of_nat i + 1))%Z);
    reflexivity.
Qed.

Lemma shiftr_all x n : (0 <= x < 2 ^ Z.of_nat n)%Z -> Z.shiftr x (Z.of_nat n) = 0%Z.
Proof.
  intros Hx. rewrite Z.shiftr_div_pow2 by lia. apply Z.div_small. lia.
Qed.

(** ** Registers *)

Lemma reg_value_bounds index s :
  (0 <= reg_value index s < 2 ^ Z.of_nat (length index))%Z.
Proof.
  induction index as [|q index IH]; [simpl; lia|].
  cbn [reg_value length]. rewrite Nat2Z.inj_succ, Z.pow_succ_r by lia.
  destruct (s q); simpl Z.b2z; lia.
Qed.

Lemma reg_value_testbit s : forall index j,
  j < length index ->
  Z.testbit (reg_value index s) (Z.of_nat j) = s (nth j index 0).
Proof.
  induction index as [|q index IH]; intros j Hj; simpl in Hj; [lia|].
  cbn [reg_value]. rewrite Z.add_comm. destruct j as [|j].
  - apply Z.testbit_0_r.
  - rewrite Nat2Z.inj_succ, Z.testbit_succ_r by lia. apply IH. lia.
Qed.

Lemma reg_value_ext index s s' :
  (forall q, In q index -> s q = s' q) ->
  reg_value index s = reg_value index s'.
Proof.
  induction index as [|q index IH]; intros E; auto.
  cbn [reg_value]. rewrite (E q) by now left.
  rewrite IH; auto. intros q' Hq'. apply E. now right.
Qed.

(** ** The prefix predicate compiler: what it appends *)

Lemma bits_of_length C n : length (bits_of C n) = n.
Proof. unfold bits_of, range_. rewrite length_map, length_seq. lia. Qed.

Lemma bits_of_nth C n i :
  i < n -> nth i (bits_of C n) 0%Z = Z.land (Z.shiftr C (Z.of_nat i)) 1.
Proof.
  intros Hi. unfold bits_of, range_.
  apply nth_error_nth. rewrite nth_error_map.
  rewrite (nth_error_nth' _ 0) by (rewrite length_seq; lia).
  rewrite seq_nth by lia. reflexivity.
Qed.

Lemma bit_is_one C i :
  (Z.land (Z.shiftr C (Z.of_nat i)) 1 =? 1)%Z = Z.testbit C (Z.of_nat i).
Proof.
  change 1%Z with (Z.ones 1) at 1. rewrite Z.land_ones by lia.
  change (2 ^ 1)%Z with 2%Z. rewrite <- Z.bit0_mod, Z.shiftr_spec by lia.
  simpl Z.add. now destruct (Z.testbit C (Z.of_nat i)).
Qed.

Lemma higher_controls_loop index C n : forall l cz lines,
  length index = n -> (forall j, In j l -> j < n) ->
  for_acc l
    (fun '(controls, zero_controls) j =>
       qb <- getitem index j ;;
       bj <- getitem (bits_of C n) j ;;
       if (bj =? 1)%Z then ret (controls ++ [qb], zero_controls)
       else ret (controls ++ [qb], zero_controls ++ [qb]))
    cz lines
  = (Ok (fst cz ++ map (fun j => nth j index 0) l,
         snd cz ++ map (fun j => nth j index 0)
                     (filter (fun j => negb (Z.testbit C (Z.of_nat j))) l)),
     lines).
Proof.
  induction l as [|j l IH]; intros [cs zs] lines Hn Hl.
  - simpl. now rewrite !app_nil_r.
  - cbn [for_acc]. unfold bind at 1.
    rewrite (bind_getitem index j 0) by (rewrite Hn; apply Hl; now left).
    rewrite (bind_getitem (bits_of C n) j 0%Z)
      by (rewrite bits_of_length; apply Hl; now left).
    rewrite bits_of_nth by (apply Hl; now left). rewrite bit_is_one.
    cbn [filter map].
    destruct (Z.testbit C (Z.of_nat j)); cbn [negb ret];
      rewrite IH by (auto; intros; apply Hl; now right);
      cbn [fst snd map]; now rewrite <- !app_assoc.
Qed.

Lemma higher_controls_ok index C n i lines :
  length index = n ->
  higher_controls index (bits_of C n) n i lines
  = (Ok (map (fun j => nth j index 0) (range_rev (i + 1) n),
         map (fun j => nth j index 0)
           (filter (fun j => negb (Z.testbit C (Z.of_nat j)))
              (range_rev (i + 1) n))),
     lines).
Proof.
  intros Hn. unfold higher_controls.
  rewrite (higher_controls_loop index C n); auto.
  intros j Hj. apply in_range_rev in Hj. lia.
Qed.

Lemma inv_emits qs : emits (_inv qs) (map Gx qs).
Proof. apply emits_for_map. intros. apply emits_append. Qed.

Lemma term_controls_length index n i :
  i < n -> length (term_controls index n i) = n - i.
Proof.
  intros Hi. unfold term_controls, range_rev, range_.
  rewrite length_app, length_map, length_rev, length_seq. simpl. lia.
Qed.

Lemma enough_work_le k k' work :
  k' <= k -> enough_work k work = true -> enough_work k' work = true.
Proof.
  unfold enough_work. intros Hle H. apply orb_true_iff in H.
  apply orb_true_iff. destruct H as [H|H].
  - left. apply Nat.leb_le in H. apply Nat.leb_le. lia.
  - right. apply Nat.leb_le in H. apply Nat.leb_le. lia.
Qed.

Lemma term_emits index flag C work i :
  i < length index -> enough_work (length index) work = true ->
  emits (bi <- getitem (bits_of C (length index)) i ;;
         if negb (bi =? 1)%Z then ret tt
         else
           cz <- higher_controls index (bits_of C (length index))
                   (length index) i ;;
           qb_i <- getitem index i ;;
           let controls := fst cz ++ [qb_i] in
           let zero_controls := snd cz ++ [qb_i] in
           _inv zero_controls ;;
           mcx_ladder controls flag work ;;
           _inv zero_controls)
        (term_gates index flag C work i).
Proof.
  intros Hi Hw lines.
  rewrite (bind_getitem _ i 0%Z) by now rewrite bits_of_length.
  rewrite bits_of_nth, bit_is_one by assumption. unfold term_gates.
  destruct (Z.testbit C (Z.of_nat i)); cbn [negb].
  - rewrite (bind_ok _ _ _ _ _ (higher_controls_ok index C _ i lines eq_refl)).
    rewrite (bind_getitem index i 0) by assumption. cbn [fst snd].
    fold (term_controls index (length index) i).
    fold (term_zero_controls index C (length index) i).
    apply emits_bind; [apply inv_emits|].
    apply emits_bind; [|apply inv_emits].
    apply mcx_ladder_emits. rewrite term_controls_length by assumption.
    apply (enough_work_le (length index)); [lia|assumption].
  - apply emits_ret.
Qed.

Lemma mark_less_than_emits index flag C work :
  enough_work (length index) work = true ->
  emits (mark_less_than_constant_disjoint_terms index flag C work)
        (lt_gates index flag C work).
Proof.
  intros Hw. unfold mark_less_than_constant_disjoint_terms, lt_gates.
  rewrite Z.shiftl_1_l.
  destruct (C <=? 0)%Z; [apply emits_ret|].
  destruct (C >=? 2 ^ Z.of_nat (length index))%Z; [apply emits_append|].
  apply emits_for. intros i Hi. apply in_range_rev in Hi.
  apply term_emits; [lia|assumption].
Qed.

(** ** The ladder decomposer on any number of controls *)

Lemma mcx_exec cs t ws s q :
  enough_work (length cs) ws = true ->
  distinct (cs ++ t :: used_work (length cs) ws) = true ->
  all_zero s (used_work (length cs) ws) = true ->
  exec (mcx_gates cs t ws) s q
  = if q =? t then xorb (s t) (all_set s cs) else s q.
Proof.
  intros Hw Hd Hz.
  destruct (Nat.le_gt_cases (length cs) 2) as [Hk|Hk].
  - destruct cs as [|c0 [|c1 [|c2 cs]]]; simpl in Hk; try lia;
      cbn [mcx_gates exec fold_left exec_line all_set forallb]; unfold upd;
      destruct (q =? t); auto; f_equal;
      rewrite ?andb_true_r; auto using xorb_true_r.
  - unfold enough_work in Hw. apply orb_true_iff in Hw.
    destruct Hw as [Hw|Hw]; apply Nat.leb_le in Hw; [lia|].
    apply ladder_exec_clean; auto.
Qed.

Lemma mcx_frame cs t ws s q :
  enough_work (length cs) ws = true ->
  distinct (cs ++ t :: used_work (length cs) ws) = true ->
  q <> t -> exec (mcx_gates cs t ws) s q = s q.
Proof.
  intros Hw Hd Hq. apply Nat.eqb_neq in Hq.
  destruct (Nat.le_gt_cases (length cs) 2) as [Hk|Hk].
  - destruct cs as [|c0 [|c1 [|c2 cs]]]; simpl in Hk; try lia;
      cbn [mcx_gates exec fold_left exec_line]; unfold upd; now rewrite Hq.
  - unfold enough_work in Hw. apply orb_true_iff in Hw.
    destruct Hw as [Hw|Hw]; apply Nat.leb_le in Hw; [lia|].
    rewrite ladder_exec by auto. now rewrite Hq.
Qed.

Lemma ladder_compute_ccx cs ws : forallb is_ccx (ladder_compute cs ws) = true.
Proof.
  unfold ladder_compute. cbn [forallb is_ccx andb].
  apply forallb_forall. intros g Hg. apply in_map_iff in Hg.
  now destruct Hg as [i [<- _]].
Qed.

Lemma mcx_gates_ccx cs t ws :
  3 <= length cs -> forallb is_ccx (mcx_gates cs t ws) = true.
Proof.
  intros Hk. rewrite mcx_gates_ge3 by assumption.
  rewrite !forallb_app, ladder_compute_ccx. cbn [forallb is_ccx ladder_last andb].
  apply forallb_forall. intros g Hg. apply in_rev in Hg.
  revert g Hg. apply forallb_forall, ladder_compute_ccx.
Qed.

Lemma is_ccx_classical g : is_ccx g = true -> classical g = true.
Proof. now destruct g. Qed.

Lemma mcx_gates_classical cs t ws :
  forallb classical (mcx_gates cs t ws) = true.
Proof.
  destruct (Nat.le_gt_cases (length cs) 2) as [Hk|Hk].
  - destruct cs as [|c0 [|c1 [|c2 cs]]]; simpl in Hk; try lia; reflexivity.
  - apply forallb_forall. intros g Hg. apply is_ccx_classical.
    revert g Hg. apply forallb_forall, mcx_gates_ccx. lia.
Qed.

Lemma mcx_gates_length cs t ws :
  3 <= length cs -> length (mcx_gates cs t ws) = 2 * (length cs - 2) + 1.
Proof.
  intros Hk. rewrite mcx_gates_ge3 by assumption.
  rewrite !length_app, length_rev. unfold ladder_compute, range_.
  cbn [length]. rewrite length_map, length_seq. lia.
Qed.

Lemma simulate_emitted_exec m gs s :
  emits m gs -> forallb classical gs = true ->
  simulate_emitted m s = Some (exec gs s).
Proof.
  intros Hm Hc. unfold simulate_emitted. rewrite (Hm []). simpl app.
  now apply simulate_exec.
Qed.

(** ** Lists of qubits *)

Lemma forallb_map_comp {A B} (f : B -> bool) (g : A -> B) l :
  forallb f (map g l) = forallb (fun a => f (g a)) l.
Proof. induction l as [|a l IH]; simpl; congruence. Qed.

Lemma forallb_ext_in {A} (f g : A -> bool) l :
  (forall a, In a l -> f a = g a) -> forallb f l = forallb g l.
Proof.
  induction l as [|a l IH]; intros E; simpl; auto.
  rewrite (E a) by now left. rewrite IH; auto. intros b Hb. apply E. now right.
Qed.

Lemma forallb_rev_eq {A} (f : A -> bool) l : forallb f (rev l) = forallb f l.
Proof.
  apply eq_true_iff_eq. rewrite !forallb_forall.
  split; intros H a Ha; apply H; [now apply in_rev in Ha|now apply in_rev].
Qed.

Lemma In_firstn {A} n (l : list A) a : In a (firstn n l) -> In a l.
Proof.
  intros H. rewrite <- (firstn_skipn n l). apply in_or_app. now left.
Qed.

Lemma NoDup_firstn_nat n (l : list nat) : NoDup l -> NoDup (firstn n l).
Proof.
  intros H. rewrite <- (firstn_skipn n l) in H.
  now apply NoDup_app_parts in H.
Qed.

Lemma nth_inj (l : list nat) i j :
  NoDup l -> i < length l -> j < length l -> nth i l 0 = nth j l 0 -> i = j.
Proof. intros Hnd. apply (proj1 (NoDup_nth l 0) Hnd). Qed.

Lemma In_map_nth (l : list nat) js j :
  NoDup l -> j < length l -> (forall j', In j' js -> j' < length l) ->
  In (nth j l 0) (map (fun j' => nth j' l 0) js) <-> In j js.
Proof.
  intros Hnd Hj Hjs. rewrite in_map_iff. split.
  - intros [j' [E Hin]]. apply nth_inj in E; auto. now subst.
  - intros Hin. now exists j.
Qed.

Lemma NoDup_map_nth (l : list nat) js :
  NoDup l -> NoDup js -> (forall j, In j js -> j < length l) ->
  NoDup (map (fun j => nth j l 0) js).
Proof.
  intros Hl Hjs Hlt. apply NoDup_map_NoDup_ForallPairs; [|assumption].
  intros a b Ha Hb E. apply nth_inj in E; auto.
Qed.

Lemma inv_exec zs : forall s q,
  NoDup zs ->
  exec (map Gx zs) s q = if mem q zs then negb (s q) else s q.
Proof.
  induction zs as [|z zs IH]; intros s q Hnd; auto.
  apply NoDup_cons_iff in Hnd. destruct Hnd as [Hz Hnd].
  cbn [map]. rewrite exec_cons, IH by assumption. cbn [exec_line mem existsb].
  fold (mem q zs). unfold upd. destruct (q =? z) eqn:E.
  - apply Nat.eqb_eq in E. subst q.
    apply mem_false in Hz. now rewrite Hz.
  - reflexivity.
Qed.

(** ** The prefix predicate compiler: what its gates compute *)

Section Prefix.

Variables (index : list nat) (flag : nat) (work : list nat) (C : Z).
Hypothesis Hlay : layout_ok index [flag] work = true.
Hypothesis Hw : enough_work (length index) work = true.

Let n := length index.

Lemma layout_parts :
  NoDup index /\ NoDup work /\ ~ In flag index /\ ~ In flag work
  /\ (forall q, In q index -> In q work -> False).
Proof.
  unfold layout_ok in Hlay. apply distinct_NoDup in Hlay.
  apply NoDup_app_parts in Hlay. destruct Hlay as [Hi [Hfw Hdis]].
  simpl in Hfw. apply NoDup_cons_iff in Hfw. destruct Hfw as [Hf Hwk].
  repeat split; auto.
  - intros Hin. apply (Hdis flag Hin). now left.
  - intros q Hq Hqw. apply (Hdis q Hq). now right.
Qed.

Lemma term_controls_map i :
  term_controls index n i
  = map (fun j => nth j index 0) (range_rev (i + 1) n ++ [i]).
Proof. unfold term_controls. now rewrite map_app. Qed.

Lemma term_zero_controls_map i :
  term_zero_controls index C n i
  = map (fun j => nth j index 0)
      (filter (fun j => negb (Z.testbit C (Z.of_nat j))) (range_rev (i + 1) n)
       ++ [i]).
Proof. unfold term_zero_controls. now rewrite map_app. Qed.

Lemma higher_NoDup (p : nat -> bool) i :
  NoDup (filter p (range_rev (i + 1) n) ++ [i]).
Proof.
  apply NoDup_app.
  - apply NoDup_filter, NoDup_rev, seq_NoDup.
  - repeat constructor. tauto.
  - intros j Hj [<-|[]]. apply filter_In in Hj. destruct Hj as [Hj _].
    apply in_range_rev in Hj. lia.
Qed.

Lemma higher_lt (p : nat -> bool) i j :
  i < n -> In j (filter p (range_rev (i + 1) n) ++ [i]) -> j < n.
Proof.
  intros Hi Hj. apply in_app_or in Hj. destruct Hj as [Hj|[<-|[]]]; auto.
  apply filter_In in Hj. destruct Hj as [Hj _]. apply in_range_rev in Hj. lia.
Qed.

Lemma filter_all {A} (l : list A) : filter (fun _ => true) l = l.
Proof. induction l as [|a l IH]; simpl; congruence. Qed.

Lemma term_zero_controls_NoDup i :
  i < n -> NoDup (term_zero_controls index C n i).
Proof.
  intros Hi. rewrite term_zero_controls_map.
  apply NoDup_map_nth; [apply layout_parts|apply higher_NoDup|].
  intros j. now apply higher_lt.
Qed.

Lemma term_controls_NoDup i : i < n -> NoDup (term_controls index n i).
Proof.
  intros Hi. rewrite term_controls_map.
  rewrite <- (filter_all (range_rev (i + 1) n)).
  apply NoDup_map_nth; [apply layout_parts|apply higher_NoDup|].
  intros j. now apply higher_lt.
Qed.

Lemma term_zero_controls_incl i q :
  i < n -> In q (term_zero_controls index C n i) -> In q index.
Proof.
  intros Hi Hq. rewrite term_zero_controls_map in Hq.
  apply in_map_iff in Hq. destruct Hq as [j [<- Hj]].
  apply nth_In. now apply higher_lt in Hj.
Qed.

Lemma term_controls_incl i q :
  i < n -> In q (term_controls index n i) -> In q index.
Proof.
  intros Hi Hq. rewrite term_controls_map in Hq.
  rewrite <- (filter_all (range_rev (i + 1) n)) in Hq.
  apply in_map_iff in Hq. destruct Hq as [j [<- Hj]].
  apply nth_In. now apply higher_lt in Hj.
Qed.

Lemma term_distinct i :
  i < n ->
  distinct (term_controls index n i
            ++ flag :: used_work (length (term_controls index n i)) work)
  = true.
Proof.
  intros Hi. destruct layout_parts as [Hni [Hnw [Hfi [Hfw Hdis]]]].
  apply distinct_NoDup, NoDup_app.
  - now apply term_controls_NoDup.
  - apply NoDup_cons_iff. split.
    + intros Hin. apply Hfw. now apply In_firstn in Hin.
    + now apply NoDup_firstn_nat.
  - intros q Hq [<-|Hqw].
    + apply Hfi. now apply (term_controls_incl i).
    + apply (Hdis q); [now apply (term_controls_incl i)|].
      now apply In_firstn in Hqw.
Qed.

Lemma zero_control_high i j :
  i < j < n ->
  mem (nth j index 0) (term_zero_controls index C n i)
  = negb (Z.testbit C (Z.of_nat j)).
Proof.
  intros Hj. apply eq_true_iff_eq. rewrite mem_In, term_zero_controls_map.
  rewrite In_map_nth; [|apply layout_parts|lia|intros j'; apply higher_lt; lia].
  rewrite in_app_iff, filter_In, in_range_rev. simpl. split.
  - intros [[_ H]|[H|[]]]; [assumption|lia].
  - intros H. left. split; [lia|assumption].
Qed.

Lemma zero_control_self i :
  mem (nth i index 0) (term_zero_controls index C n i) = true.
Proof.
  apply mem_In. unfold term_zero_controls. apply in_or_app. right. now left.
Qed.

Lemma term_all_set i s :
  i < n ->
  all_set (exec (map Gx (term_zero_controls index C n i)) s)
    (term_controls index n i)
  = negb (Z.testbit (reg_value index s) (Z.of_nat i))
    && forallb (fun j => Bool.eqb (Z.testbit (reg_value index s) (Z.of_nat j))
                                  (Z.testbit C (Z.of_nat j)))
         (range_ (i + 1) n).
Proof.
  intros Hi. unfold all_set, term_controls.
  rewrite forallb_app, forallb_map_comp. cbn [forallb].
  rewrite andb_true_r, andb_comm. f_equal.
  - rewrite inv_exec by now apply term_zero_controls_NoDup.
    rewrite zero_control_self. now rewrite reg_value_testbit.
  - unfold range_rev. rewrite forallb_rev_eq. apply forallb_ext_in.
    intros j Hj. apply in_range_ in Hj.
    rewrite inv_exec by now apply term_zero_controls_NoDup.
    rewrite zero_control_high by lia.
    rewrite reg_value_testbit by (fold n; lia).
    now destruct (Z.testbit C (Z.of_nat j)), (s (nth j index 0)).
Qed.

Lemma term_exec i s q :
  i < n -> all_zero s work = true ->
  exec (term_gates index flag C work i) s q
  = if q =? flag
    then xorb (s flag) (term_cond (reg_value index s) C n i)
    else s q.
Proof.
  intros Hi Hz. destruct layout_parts as [Hni [Hnw [Hfi [Hfw Hdis]]]].
  unfold term_gates, term_cond. fold n.
  destruct (Z.testbit C (Z.of_nat i)) eqn:Hb; cbn [andb].
  - assert (Hzc := term_zero_controls_NoDup i Hi).
    set (zc := term_zero_controls index C n i) in *.
    rewrite !exec_app, inv_exec by assumption.
    assert (Hflag : mem flag zc = false).
    { apply mem_false. intros Hin. apply Hfi.
      now apply (term_zero_controls_incl i). }
    rewrite mcx_exec.
    + destruct (q =? flag) eqn:E.
      * apply Nat.eqb_eq in E. subst q. rewrite Hflag.
        rewrite inv_exec by assumption. rewrite Hflag.
        unfold zc. now rewrite term_all_set.
      * rewrite inv_exec by assumption.
        destruct (mem q zc); auto using negb_involutive.
    + rewrite term_controls_length by assumption.
      apply (enough_work_le (length index)); [lia|assumption].
    + now apply term_distinct.
    + unfold all_zero in *. rewrite forallb_forall in *.
      intros w Hin. apply In_firstn in Hin.
      rewrite inv_exec by assumption.
      assert (Hm : mem w zc = false).
      { apply mem_false. intros Hwz. apply (Hdis w); auto.
        now apply (term_zero_controls_incl i). }
      rewrite Hm. now apply Hz.
  - rewrite xorb_false_r. destruct (q =? flag) eqn:E; auto.
    apply Nat.eqb_eq in E. now subst.
Qed.

End Prefix.

Lemma layout_flag_not_work index flag work w :
  layout_ok index [flag] work = true -> In w work -> w <> flag.
Proof.
  intros Hlay Hin ->.
  destruct (layout_parts index flag work Hlay) as [_ [_ [_ [Hfw _]]]]. auto.
Qed.

Lemma layout_flag_not_index index flag work q :
  layout_ok index [flag] work = true -> In q index -> q <> flag.
Proof.
  intros Hlay Hin ->.
  destruct (layout_parts index flag work Hlay) as [_ [_ [Hfi _]]]. auto.
Qed.

Lemma all_zero_ext s s' qs :
  (forall q, In q qs -> s' q = s q) -> all_zero s qs = true ->
  all_zero s' qs = true.
Proof.
  unfold all_zero. rewrite !forallb_forall. intros E H q Hq.
  rewrite E by assumption. now apply H.
Qed.

(** After the terms of the bits [m-1 .. 0], the flag has accumulated the
    comparison of the low-order part. *)
Lemma lt_loop index flag work C :
  layout_ok index [flag] work = true ->
  enough_work (length index) work = true ->
  (0 <= C < 2 ^ Z.of_nat (length index))%Z ->
  forall m s q,
    m <= length index -> all_zero s work = true ->
    exec (flat_map (term_gates index flag C work) (rev (seq 0 m))) s q
    = if q =? flag
      then xorb (s flag)
             (xorb (Z.shiftr (reg_value index s) (Z.of_nat m)
                    <? Z.shiftr C (Z.of_nat m))%Z
                   (reg_value index s <? C)%Z)
      else s q.
Proof.
  intros Hlay Hw HC. induction m as [|m IH]; intros s q Hm Hz.
  - simpl. rewrite !Z.shiftr_0_r, xorb_nilpotent, xorb_false_r.
    destruct (q =? flag) eqn:E; auto. apply Nat.eqb_eq in E. now subst.
  - rewrite seq_S, rev_app_distr. cbn [rev app flat_map Nat.add].
    rewrite exec_app.
    set (s' := exec (term_gates index flag C work m) s).
    assert (Hs' : forall q', q' <> flag -> s' q' = s q').
    { intros q' Hq'. unfold s'. rewrite term_exec by (auto; lia).
      apply Nat.eqb_neq in Hq'. now rewrite Hq'. }
    assert (Hx : reg_value index s' = reg_value index s).
    { apply reg_value_ext. intros q' Hq'. apply Hs'.
      now apply (layout_flag_not_index index flag work). }
    rewrite IH.
    + destruct (q =? flag) eqn:E; [|apply Hs'; now apply Nat.eqb_neq].
      rewrite Hx. unfold s'. rewrite term_exec by (auto; lia).
      rewrite Nat.eqb_refl.
      rewrite <- (term_cond_step _ C) by (auto using reg_value_bounds).
      destruct (s flag),
        (Z.shiftr (reg_value index s) (Z.of_nat m) <? Z.shiftr C (Z.of_nat m))%Z,
        (Z.shiftr (reg_value index s) (Z.of_nat (S m))
         <? Z.shiftr C (Z.of_nat (S m)))%Z,
        (reg_value index s <? C)%Z; reflexivity.
    + lia.
    + apply (all_zero_ext s); auto. intros w Hin. apply Hs'.
      now apply (layout_flag_not_work index flag work).
Qed.

(** The flag receives the XOR of its old value with [x < C]; nothing else
    changes. *)
Lemma lt_exec index flag work C s q :
  layout_ok index [flag] work = true ->
  enough_work (length index) work = true ->
  all_zero s work = true ->
  exec (lt_gates index flag C work) s q
  = if q =? flag
    then xorb (s flag) (reg_value index s <? C)%Z
    else s q.
Proof.
  intros Hlay Hw Hz. unfold lt_gates.
  pose proof (reg_value_bounds index s) as Hx.
  destruct (Z.leb_spec C 0) as [HC0|HC0].
  - replace (reg_value index s <? C)%Z with false
      by (symmetry; apply Z.ltb_ge; lia).
    rewrite xorb_false_r. simpl. destruct (q =? flag) eqn:E; auto.
    apply Nat.eqb_eq in E. now subst.
  - destruct (Z.geb_spec C (2 ^ Z.of_nat (length index))) as [HCn|HCn].
    + replace (reg_value index s <? C)%Z with true
        by (symmetry; apply Z.ltb_lt; lia).
      cbn [exec fold_left exec_line]. unfold upd.
      destruct (q =? flag); auto.
    + unfold range_rev, range_. rewrite Nat.sub_0_r.
      rewrite (lt_loop index flag work C) by (auto; lia).
      rewrite !shiftr_all by lia. now rewrite Z.ltb_irrefl, xorb_false_l.
Qed.

Lemma flat_map_forallb {A B} (p : B -> bool) (f : A -> list B) l :
  (forall a, In a l -> forallb p (f a) = true) ->
  forallb p (flat_map f l) = true.
Proof.
  induction l as [|a l IH]; intros H; simpl; auto.
  rewrite forallb_app, H, IH; auto.
  - intros b Hb. apply H. now right.
  - now left.
Qed.

Lemma map_Gx_classical qs : forallb classical (map Gx qs) = true.
Proof. induction qs; simpl; auto. Qed.

Lemma lt_gates_classical index flag C work :
  forallb classical (lt_gates index flag C work) = true.
Proof.
  unfold lt_gates. destruct (C <=? 0)%Z; auto.
  destruct (C >=? 2 ^ Z.of_nat (length index))%Z; auto.
  apply flat_map_forallb. intros i _. unfold term_gates.
  destruct (Z.testbit C (Z.of_nat i)); auto.
  now rewrite !forallb_app, map_Gx_classical, mcx_gates_classical.
Qed.

(** ** Range composer, phase oracle, diffusion: what they append *)

Lemma range_emits index flag_out tmp_hi tmp_lo lo hi work :
  enough_work (length index) work = true ->
  emits (mark_range_lo_hi index flag_out tmp_hi tmp_lo lo hi work)
        (range_gates index flag_out tmp_hi tmp_lo lo hi work).
Proof.
  intros Hw. unfold mark_range_lo_hi, range_gates, and_not_gates.
  apply emits_bind; [now apply mark_less_than_emits|].
  apply emits_bind; [now apply mark_less_than_emits|].
  apply (emits_bind _ _ [_] [_; _]); [apply emits_append|].
  apply (emits_bind _ _ [_] [_]); apply emits_append.
Qed.

Lemma uncompute_emits index flag_out tmp_hi tmp_lo lo hi work :
  enough_work (length index) work = true ->
  emits (uncompute_range_lo_hi index flag_out tmp_hi tmp_lo lo hi work)
        (uncompute_gates index flag_out tmp_hi tmp_lo lo hi work).
Proof.
  intros Hw. unfold uncompute_range_lo_hi, uncompute_gates, and_not_gates.
  apply (emits_bind _ _ [_] (_ :: _ :: _)); [apply emits_append|].
  apply (emits_bind _ _ [_] (_ :: _)); [apply emits_append|].
  apply (emits_bind _ _ [_]); [apply emits_append|].
  apply emits_bind; now apply mark_less_than_emits.
Qed.

Lemma oracle_emits index flag_range tmp_hi tmp_lo pred_type lo hi work :
  enough_work (length index) work = true ->
  emits (phase_oracle_qfilter index flag_range tmp_hi tmp_lo pred_type lo hi
           work)
        (oracle_gates index flag_range tmp_hi tmp_lo pred_type lo hi work).
Proof.
  intros Hw. unfold phase_oracle_qfilter, oracle_gates.
  destruct (pred_type =? "qid_lt")%string.
  - apply emits_bind; [now apply mark_less_than_emits|].
    apply emits_bind; [apply emits_append|now apply mark_less_than_emits].
  - apply emits_bind; [now apply range_emits|].
    apply emits_bind; [apply emits_append|now apply uncompute_emits].
Qed.

Lemma final_emits index flag_out tmp_hi tmp_lo pred_type lo hi work :
  enough_work (length index) work = true ->
  emits (final_compute_and_measure_flag index flag_out tmp_hi tmp_lo pred_type
           lo hi work)
        (final_gates index flag_out tmp_hi tmp_lo pred_type lo hi work).
Proof.
  intros Hw. unfold final_compute_and_measure_flag, final_gates.
  destruct (pred_type =? "qid_lt")%string.
  - apply emits_bind; [now apply mark_less_than_emits|apply emits_append].
  - apply emits_bind; [now apply range_emits|apply emits_append].
Qed.

Lemma for_append_emits (f : nat -> line) qs :
  emits (for_ qs (fun qb => append (f qb))) (map f qs).
Proof. apply emits_for_map. intros. apply emits_append. Qed.

Lemma diffusion_emits index work :
  1 <= length index -> enough_work (length index - 1) work = true ->
  emits (diffusion_about_uniform index work) (diffusion_gates index work).
Proof.
  intros Hn Hw. unfold diffusion_about_uniform, diffusion_gates.
  apply emits_bind; [apply for_append_emits|].
  apply emits_bind; [apply for_append_emits|].
  apply emits_bind;
    [|apply emits_bind; [apply for_append_emits|apply for_append_emits]].
  destruct (length index =? 1).
  - intros lines. now rewrite (bind_getitem index 0 0) by lia.
  - intros lines. rewrite (bind_getitem index 0 0) by lia. revert lines.
    apply emits_bind; [apply emits_append|].
    apply emits_bind; [|apply emits_append].
    apply mcx_ladder_emits. destruct index; simpl in *; [lia|].
    now rewrite Nat.sub_0_r in Hw.
Qed.

(** ** The circuit assemblers: what they append *)

Lemma work_count_eq n : work_count n = n - 2.
Proof. unfold work_count. lia. Qed.

Lemma range_length a b : length (range_ a b) = b - a.
Proof. unfold range_. apply length_seq. Qed.

Lemma range_nth a b j : j < b - a -> nth j (range_ a b) 0 = a + j.
Proof. intros Hj. unfold range_. now apply seq_nth. Qed.

Lemma builder_work_enough n f k :
  k <= n ->
  enough_work k (range_ (n + f) (n + f + work_count n)) = true.
Proof.
  intros Hk. unfold enough_work. rewrite range_length, work_count_eq.
  apply orb_true_iff.
  destruct (Nat.le_gt_cases k 2); [left|right]; apply Nat.leb_le; lia.
Qed.

Lemma for_append_list l : emits (for_ l append) l.
Proof.
  induction l as [|a l IH]; [apply emits_ret|].
  apply (emits_bind _ _ [a] l); [apply emits_append|apply IH].
Qed.

Lemma body_emits n reps p lo hi f :
  1 <= n -> 1 <= f ->
  let index := range_ 0 n in
  let work := range_ (n + f) (n + f + work_count n) in
  let tmp_hi := if 2 <=? f then n + 1 else n in
  let tmp_lo := if 3 <=? f then n + 2 else n in
  emits (prepare_uniform index ;;
         for_ (range_ 0 reps) (fun _ =>
           phase_oracle_qfilter index n tmp_hi tmp_lo p lo hi work ;;
           diffusion_about_uniform index work) ;;
         final_compute_and_measure_flag index n tmp_hi tmp_lo p lo hi work)
        (program_body n reps p lo hi f).
Proof.
  intros Hn Hf index work tmp_hi tmp_lo. unfold program_body.
  fold index work tmp_hi tmp_lo.
  assert (Hlen : length index = n)
    by (unfold index; rewrite range_length; lia).
  assert (Hw : enough_work (length index) work = true)
    by (rewrite Hlen; apply builder_work_enough; lia).
  apply emits_bind; [apply for_append_emits|].
  apply emits_bind; [|now apply final_emits].
  apply emits_for. intros _ _.
  apply emits_bind; [now apply oracle_emits|].
  apply diffusion_emits; rewrite Hlen; [lia|].
  apply builder_work_enough. lia.
Qed.

Lemma flags_lookup {B} n f j (k : nat -> Emit B) lines :
  j < f ->
  bind (getitem (range_ n (n + f)) j) k lines = k (n + j) lines.
Proof.
  intros Hj. rewrite (bind_getitem _ j 0) by (rewrite range_length; lia).
  now rewrite range_nth by lia.
Qed.

Lemma flags_lookup_if {B} n f j (b : bool) (k : nat -> Emit B) lines :
  1 <= f -> (b = true -> j < f) ->
  bind (if b then getitem (range_ n (n + f)) j
        else getitem (range_ n (n + f)) 0) k lines
  = k (if b then n + j else n) lines.
Proof.
  intros Hf Hj. destruct b.
  - apply flags_lookup. auto.
  - rewrite flags_lookup by lia. now rewrite Nat.add_0_r.
Qed.

Lemma grover_lines_emits header n it p lo hi f :
  1 <= n -> 1 <= f ->
  emits (grover_qfilter_lines header n it p lo hi f)
        (preamble header (grover_comment n it p lo hi) n f
         ++ program_body n (repetitions it) p lo hi f).
Proof.
  intros Hn Hf lines. unfold grover_qfilter_lines.
  rewrite flags_lookup by lia. rewrite Nat.add_0_r.
  rewrite flags_lookup_if
    by (auto; intros E; apply Nat.leb_le in E; lia).
  rewrite flags_lookup_if
    by (auto; intros E; apply Nat.leb_le in E; lia).
  revert lines. apply emits_bind; [apply for_append_list|].
  now apply body_emits.
Qed.

Lemma mlae_lines_emits header n k p lo hi f :
  1 <= n -> 1 <= f ->
  emits (mlae_schedule_element_lines header n k p lo hi f)
        (preamble header (mlae_comment n k p lo hi) n f
         ++ program_body n (repetitions k) p lo hi f).
Proof.
  intros Hn Hf lines. unfold mlae_schedule_element_lines.
  rewrite flags_lookup by lia. rewrite Nat.add_0_r.
  rewrite flags_lookup_if
    by (auto; intros E; apply Nat.leb_le in E; lia).
  rewrite flags_lookup_if
    by (auto; intros E; apply Nat.leb_le in E; lia).
  revert lines. apply emits_bind; [apply for_append_list|].
  now apply body_emits.
Qed.

Lemma finish_emits m gs : emits m gs -> finish m = Ok (join_lines "q" gs).
Proof. intros H. unfold finish. now rewrite (H []). Qed.

(** ** Range composer and phase oracle: what their gates compute *)

Lemma layout_ok_pick index flags work f :
  layout_ok index flags work = true -> In f flags ->
  layout_ok index [f] work = true.
Proof.
  unfold layout_ok. rewrite !distinct_NoDup. intros H Hf.
  apply NoDup_app_parts in H. destruct H as [Hi [Hfw Hd1]].
  apply NoDup_app_parts in Hfw. destruct Hfw as [Hfl [Hwk Hd2]].
  apply NoDup_app; auto.
  - simpl. apply NoDup_cons_iff. split; auto. intros Hin. now apply (Hd2 f).
  - intros q Hq Hin. apply (Hd1 q Hq), in_or_app.
    destruct Hin as [<-|Hin]; [now left|now right].
Qed.

Lemma layout_flags_NoDup index flags work :
  layout_ok index flags work = true -> NoDup flags.
Proof.
  unfold layout_ok. rewrite distinct_NoDup. intros H.
  apply NoDup_app_parts in H. destruct H as [_ [H _]].
  now apply NoDup_app_parts in H.
Qed.

Lemma lt_keeps_zero index flag work C s :
  layout_ok index [flag] work = true ->
  enough_work (length index) work = true ->
  all_zero s work = true ->
  all_zero (exec (lt_gates index flag C work) s) work = true.
Proof.
  intros Hlay Hw Hz. apply (all_zero_ext s); auto. intros w Hin.
  rewrite lt_exec by assumption.
  apply (layout_flag_not_work index flag work w Hlay), Nat.eqb_neq in Hin.
  now rewrite Hin.
Qed.

Lemma lt_keeps_value index flag work C s :
  layout_ok index [flag] work = true ->
  enough_work (length index) work = true ->
  all_zero s work = true ->
  reg_value index (exec (lt_gates index flag C work) s) = reg_value index s.
Proof.
  intros Hlay Hw Hz. apply reg_value_ext. intros q Hin.
  rewrite lt_exec by assumption.
  apply (layout_flag_not_index index flag work q Hlay), Nat.eqb_neq in Hin.
  now rewrite Hin.
Qed.

Lemma and_not_exec fo th tl s q :
  fo <> th -> fo <> tl -> th <> tl ->
  exec (and_not_gates fo th tl) s q
  = if q =? fo then xorb (s fo) (s th && negb (s tl)) else s q.
Proof.
  intros H1 H2 H3. unfold and_not_gates.
  cbn [exec fold_left exec_line]. unfold upd.
  rewrite !Nat.eqb_refl.
  rewrite (proj2 (Nat.eqb_neq fo tl)), (proj2 (Nat.eqb_neq th tl)),
    (proj2 (Nat.eqb_neq tl fo)) by auto.
  destruct (q =? tl) eqn:E1.
  - apply Nat.eqb_eq in E1. subst q.
    rewrite (proj2 (Nat.eqb_neq tl fo)) by auto. apply negb_involutive.
  - reflexivity.
Qed.

Section Range.

Variables (index : list nat) (fo th tl : nat) (work : list nat) (lo hi : Z).
Hypothesis Hlay : layout_ok index [fo; th; tl] work = true.
Hypothesis Hw : enough_work (length index) work = true.

Lemma range_flags_distinct : fo <> th /\ fo <> tl /\ th <> tl.
Proof.
  pose proof (layout_flags_NoDup _ _ _ Hlay) as H.
  apply NoDup_cons_iff in H. destruct H as [H1 H].
  apply NoDup_cons_iff in H. destruct H as [H2 _]. simpl in *. intuition.
Qed.

Lemma range_layout_hi : layout_ok index [th] work = true.
Proof. apply (layout_ok_pick index [fo; th; tl]); simpl; auto. Qed.

Lemma range_layout_lo : layout_ok index [tl] work = true.
Proof. apply (layout_ok_pick index [fo; th; tl]); simpl; auto. Qed.

Lemma range_layout_out : layout_ok index [fo] work = true.
Proof. apply (layout_ok_pick index [fo; th; tl]); simpl; auto. Qed.

Ltac flag_cases :=
  repeat match goal with
    | |- context [?a =? ?a] => rewrite (Nat.eqb_refl a)
    | |- context [fo =? th] => rewrite (proj2 (Nat.eqb_neq fo th)) by auto
    | |- context [fo =? tl] => rewrite (proj2 (Nat.eqb_neq fo tl)) by auto
    | |- context [th =? tl] => rewrite (proj2 (Nat.eqb_neq th tl)) by auto
    | |- context [th =? fo] => rewrite (proj2 (Nat.eqb_neq th fo)) by auto
    | |- context [tl =? fo] => rewrite (proj2 (Nat.eqb_neq tl fo)) by auto
    | |- context [tl =? th] => rewrite (proj2 (Nat.eqb_neq tl th)) by auto
    end.

Lemma range_exec s q :
  all_zero s work = true ->
  exec (range_gates index fo th tl lo hi work) s q
  = if q =? fo
    then xorb (s fo)
           (xorb (s th) (reg_value index s <? hi)%Z
            && negb (xorb (s tl) (reg_value index s <? lo)%Z))
    else if q =? th then xorb (s th) (reg_value index s <? hi)%Z
    else if q =? tl then xorb (s tl) (reg_value index s <? lo)%Z
    else s q.
Proof.
  intros Hz. unfold range_gates. rewrite !exec_app.
  pose proof range_layout_hi as Lh. pose proof range_layout_lo as Ll.
  destruct range_flags_distinct as [Hd1 [Hd2 Hd3]].
  pose proof (lt_keeps_zero index th work hi s Lh Hw Hz) as Hz1.
  rewrite and_not_exec by apply range_flags_distinct.
  rewrite !(lt_exec index tl work lo) by assumption.
  rewrite lt_keeps_value by assumption.
  rewrite !(lt_exec index th work hi) by assumption.
  flag_cases.
  destruct (q =? fo) eqn:E1; [reflexivity|].
  destruct (q =? tl) eqn:E2.
  - apply Nat.eqb_eq in E2. subst q. now flag_cases.
  - reflexivity.
Qed.

Lemma uncompute_exec s q :
  all_zero s work = true ->
  exec (uncompute_gates index fo th tl lo hi work) s q
  = if q =? fo then xorb (s fo) (s th && negb (s tl))
    else if q =? th then xorb (s th) (reg_value index s <? hi)%Z
    else if q =? tl then xorb (s tl) (reg_value index s <? lo)%Z
    else s q.
Proof.
  intros Hz. unfold uncompute_gates. rewrite !exec_app.
  pose proof range_layout_hi as Lh. pose proof range_layout_lo as Ll.
  pose proof range_layout_out as Lo.
  destruct range_flags_distinct as [Hd1 [Hd2 Hd3]].
  set (s1 := exec (and_not_gates fo th tl) s).
  assert (Hs1 : forall q', q' <> fo -> s1 q' = s q').
  { intros q' Hq'. unfold s1. rewrite and_not_exec by assumption.
    apply Nat.eqb_neq in Hq'. now rewrite Hq'. }
  assert (Hz1 : all_zero s1 work = true).
  { apply (all_zero_ext s); auto. intros w Hin. apply Hs1.
    now apply (layout_flag_not_work index fo work). }
  assert (Hx1 : reg_value index s1 = reg_value index s).
  { apply reg_value_ext. intros q' Hin. apply Hs1.
    now apply (layout_flag_not_index index fo work). }
  pose proof (lt_keeps_zero index tl work lo s1 Ll Hw Hz1) as Hz2.
  rewrite !(lt_exec index th work hi) by assumption.
  rewrite lt_keeps_value by assumption.
  rewrite !(lt_exec index tl work lo) by assumption.
  rewrite Hx1. flag_cases.
  destruct (q =? th) eqn:E1.
  - apply Nat.eqb_eq in E1. subst q. flag_cases. now rewrite Hs1 by auto.
  - destruct (q =? tl) eqn:E2.
    + apply Nat.eqb_eq in E2. subst q. flag_cases. now rewrite Hs1 by auto.
    + unfold s1. rewrite and_not_exec by assumption. reflexivity.
Qed.

Lemma range_keeps_zero s :
  all_zero s work = true ->
  all_zero (exec (range_gates index fo th tl lo hi work) s) work = true.
Proof.
  intros Hz. apply (all_zero_ext s); auto. intros w Hin.
  rewrite range_exec by assumption.
  rewrite (proj2 (Nat.eqb_neq w fo)), (proj2 (Nat.eqb_neq w th)),
    (proj2 (Nat.eqb_neq w tl)); auto.
  - apply (layout_flag_not_work index tl work); auto using range_layout_lo.
  - apply (layout_flag_not_work index th work); auto using range_layout_hi.
  - apply (layout_flag_not_work index fo work); auto using range_layout_out.
Qed.

Lemma range_keeps_index s q :
  all_zero s work = true -> In q index ->
  exec (range_gates index fo th tl lo hi work) s q = s q.
Proof.
  intros Hz Hin. rewrite range_exec by assumption.
  rewrite (proj2 (Nat.eqb_neq q fo)), (proj2 (Nat.eqb_neq q th)),
    (proj2 (Nat.eqb_neq q tl)); auto.
  - apply (layout_flag_not_index index tl work); auto using range_layout_lo.
  - apply (layout_flag_not_index index th work); auto using range_layout_hi.
  - apply (layout_flag_not_index index fo work); auto using range_layout_out.
Qed.

(** Compute, then uncompute: every qubit is back where it started. *)
Lemma range_round_trip s q :
  all_zero s work = true ->
  exec (range_gates index fo th tl lo hi work
        ++ uncompute_gates index fo th tl lo hi work) s q = s q.
Proof.
  intros Hz. rewrite exec_app.
  destruct range_flags_distinct as [Hd1 [Hd2 Hd3]].
  rewrite uncompute_exec by now apply range_keeps_zero.
  assert (Hx : reg_value index
                 (exec (range_gates index fo th tl lo hi work) s)
               = reg_value index s).
  { apply reg_value_ext. intros q' Hin. now apply range_keeps_index. }
  rewrite Hx, !range_exec by assumption. flag_cases.
  destruct (q =? fo) eqn:E1.
  { apply Nat.eqb_eq in E1. subst q.
    destruct (s fo), (s th), (s tl), (reg_value index s <? hi)%Z,
      (reg_value index s <? lo)%Z; reflexivity. }
  destruct (q =? th) eqn:E2.
  { apply Nat.eqb_eq in E2. subst q.
    destruct (s th), (reg_value index s <? hi)%Z; reflexivity. }
  destruct (q =? tl) eqn:E3; auto.
  apply Nat.eqb_eq in E3. subst q.
  destruct (s tl), (reg_value index s <? lo)%Z; reflexivity.
Qed.

Lemma lt_round_trip s q :
  all_zero s work = true ->
  exec (lt_gates index fo hi work ++ lt_gates index fo hi work) s q = s q.
Proof.
  intros Hz. rewrite exec_app. pose proof range_layout_out as Lo.
  rewrite lt_exec by (auto using lt_keeps_zero).
  rewrite lt_keeps_value by assumption.
  rewrite !lt_exec by assumption. rewrite Nat.eqb_refl.
  destruct (q =? fo) eqn:E; auto. apply Nat.eqb_eq in E. subst q.
  destruct (s fo), (reg_value index s <? hi)%Z; reflexivity.
Qed.

End Range.

(** ** Emitters only ever append *)

Lemma ao_ret {A} (a : A) : appends_only (ret a).
Proof. intros lines. unfold ret. simpl. now rewrite app_nil_r. Qed.

Lemma ao_raise {A} e : appends_only (@raise A e).
Proof. intros lines. unfold raise. simpl. now rewrite app_nil_r. Qed.

Lemma ao_append g : appends_only (append g).
Proof. now intros lines. Qed.

Lemma ao_getitem {A} (l : list A) i : appends_only (getitem l i).
Proof. unfold getitem. destruct (nth_error l i); [apply ao_ret|apply ao_raise]. Qed.

Lemma ao_bind {A B} (m : Emit A) (f : A -> Emit B) :
  appends_only m -> (forall a, appends_only (f a)) -> appends_only (bind m f).
Proof.
  intros Hm Hf lines. unfold bind. rewrite (Hm lines).
  destruct (m []) as [[a|e] out]; simpl.
  - rewrite (Hf a (lines ++ out)), (Hf a out). simpl.
    now rewrite app_assoc.
  - reflexivity.
Qed.

Lemma ao_for {A} (l : list A) (body : A -> Emit unit) :
  (forall a, appends_only (body a)) -> appends_only (for_ l body).
Proof.
  intros Hb. induction l as [|a l IH]; simpl.
  - apply ao_ret.
  - apply ao_bind; auto.
Qed.

Lemma ao_for_acc {A S} (l : list A) (body : S -> A -> Emit S) :
  (forall acc a, appends_only (body acc a)) ->
  forall acc, appends_only (for_acc l body acc).
Proof.
  intros Hb. induction l as [|a l IH]; intros acc; simpl.
  - apply ao_ret.
  - apply ao_bind; auto.
Qed.

Ltac appends_only_step :=
  first
    [ apply ao_ret | apply ao_raise | apply ao_append | apply ao_getitem
    | apply ao_bind | apply ao_for | apply ao_for_acc
    | match goal with
      | |- forall _, _ => intro
      | |- appends_only (if ?b then _ else _) => destruct b
      | |- appends_only (let '(_, _) := ?p in _) => destruct p
      | |- appends_only ((let '(_, _) := ?p in _) _) => destruct p; cbv beta
      end ].

Lemma ao_mcx_ladder cs t ws : appends_only (mcx_ladder cs t ws).
Proof. unfold mcx_ladder. cbv zeta. repeat appends_only_step. Qed.

Lemma ao_inv qs : appends_only (_inv qs).
Proof. unfold _inv. repeat appends_only_step. Qed.

Lemma ao_mark_less_than index flag C work :
  appends_only (mark_less_than_constant_disjoint_terms index flag C work).
Proof.
  unfold mark_less_than_constant_disjoint_terms, higher_controls. cbv zeta.
  repeat first [apply ao_inv | apply ao_mcx_ladder | appends_only_step].
Qed.

Lemma ao_mark_range index fo th tl lo hi work :
  appends_only (mark_range_lo_hi index fo th tl lo hi work).
Proof.
  unfold mark_range_lo_hi.
  repeat first [apply ao_mark_less_than | appends_only_step].
Qed.

Lemma ao_uncompute_range index fo th tl lo hi work :
  appends_only (uncompute_range_lo_hi index fo th tl lo hi work).
Proof.
  unfold uncompute_range_lo_hi.
  repeat first [apply ao_mark_less_than | appends_only_step].
Qed.

Lemma ao_phase_oracle index fr th tl p lo hi work :
  appends_only (phase_oracle_qfilter index fr th tl p lo hi work).
Proof.
  unfold phase_oracle_qfilter.
  repeat first [apply ao_mark_less_than | apply ao_mark_range
               | apply ao_uncompute_range | appends_only_step].
Qed.

Lemma ao_diffusion index work :
  appends_only (diffusion_about_uniform index work).
Proof.
  unfold diffusion_about_uniform. cbv zeta.
  repeat first [apply ao_mcx_ladder | appends_only_step].
Qed.

Lemma ao_final index fo th tl p lo hi work :
  appends_only (final_compute_and_measure_flag index fo th tl p lo hi work).
Proof.
  unfold final_compute_and_measure_flag.
  repeat first [apply ao_mark_less_than | apply ao_mark_range
               | appends_only_step].
Qed.

Lemma prefix_nil x : String.prefix "" x = true.
Proof. now destruct x. Qed.

(** * The ladder decomposer *)

(** C6. [mcx_ladder] raises exactly when it is given [k >= 3] controls and
    fewer than [k - 2] work qubits; the exception is the [ValueError] of the
    guard, and the buffer it was handed is returned as it was: nothing has
    been appended. *)
Theorem mcx_ladder_error_iff controls target work lines :
  ((exists e, fst (mcx_ladder controls target work lines) = Raise e)
   <-> 3 <= length controls /\ length work < length controls - 2)
  /\ (forall e, fst (mcx_ladder controls target work lines) = Raise e ->
        e = mcx_error (length controls - 2) (length controls) (length work)
        /\ snd (mcx_ladder controls target work lines) = lines).
Proof.
  destruct (enough_work (length controls) work) eqn:E.
  - rewrite (mcx_ladder_emits controls target work E lines). simpl.
    unfold enough_work in E. apply orb_true_iff in E.
    split; [split|].
    + intros [e He]. discriminate.
    + intros [Hk Hw]. destruct E as [E|E]; apply Nat.leb_le in E; lia.
    + intros e He. discriminate.
  - rewrite (mcx_ladder_raises controls target work lines E). simpl.
    unfold enough_work in E. apply orb_false_iff in E.
    destruct E as [Ek Ew]. apply Nat.leb_gt in Ek, Ew.
    split; [split|].
    + intros _. lia.
    + intros _. eexists. reflexivity.
    + intros e He. injection He as <-. now split.
Qed.

(** C8. With [k >= 3] controls and at least [k - 2] work qubits,
    [mcx_ladder] appends exactly [2 (k - 2) + 1] statements, every one of them
    a ccx statement (its text starts with the ccx mnemonic, whatever the
    register is called). *)
Theorem mcx_ladder_gate_count controls target work lines :
  3 <= length controls -> length controls - 2 <= length work ->
  exists gs,
    mcx_ladder controls target work lines = (Ok tt, lines ++ gs)
    /\ length gs = 2 * (length controls - 2) + 1
    /\ forallb is_ccx gs = true
    /\ (forall q g, In g gs -> String.prefix "ccx " (qasm q g) = true).
Proof.
  intros Hk Hw. exists (mcx_gates controls target work).
  assert (Hc := mcx_gates_ccx controls target work Hk).
  repeat split.
  - apply mcx_ladder_emits. unfold enough_work. apply orb_true_iff. right.
    now apply Nat.leb_le.
  - now apply mcx_gates_length.
  - assumption.
  - intros q g Hg. rewrite forallb_forall in Hc. specialize (Hc g Hg).
    destruct g; try discriminate. cbn. apply prefix_nil.
Qed.

Lemma mcx_ladder_gate_count_witness :
  3 <= length [0; 1; 2; 3] /\ length [0; 1; 2; 3] - 2 <= length [5; 6]
  /\ exists gs,
       mcx_ladder [0; 1; 2; 3] 4 [5; 6] [Gh 0] = (Ok tt, [Gh 0] ++ gs)
       /\ length gs = 2 * (length [0; 1; 2; 3] - 2) + 1
       /\ forallb is_ccx gs = true
       /\ (forall q g, In g gs -> String.prefix "ccx " (qasm q g) = true).
Proof.
  split; [simpl; lia|]. split; [simpl; lia|].
  apply (mcx_ladder_gate_count [0; 1; 2; 3] 4 [5; 6] [Gh 0]); simpl; lia.
Defined.

(** C2, as the code has it.  For controls, a target and work qubits that are
    pairwise different qubits, with at least [k - 2] work qubits when
    [k >= 3]: simulating what [mcx_ladder] emits changes no qubit but the
    target, whatever the qubits hold (so controls and work qubits end in their
    initial values), and when the [k - 2] work qubits it uses start at 0 the
    target ends as [target XOR AND(controls)]. *)
Theorem mcx_ladder_correct controls target work s :
  enough_work (length controls) work = true ->
  distinct (controls ++ target :: used_work (length controls) work) = true ->
  exists s',
    simulate_emitted (mcx_ladder controls target work) s = Some s'
    /\ (forall q, q <> target -> s' q = s q)
    /\ (all_zero s (used_work (length controls) work) = true ->
        s' target = xorb (s target) (all_set s controls)).
Proof.
  intros Hw Hd. exists (exec (mcx_gates controls target work) s).
  repeat split.
  - apply simulate_emitted_exec;
      [now apply mcx_ladder_emits|apply mcx_gates_classical].
  - intros q Hq. now apply mcx_frame.
  - intros Hz. rewrite mcx_exec by assumption. now rewrite Nat.eqb_refl.
Qed.

Lemma mcx_ladder_correct_witness :
  enough_work (length [0; 1; 2; 3]) [5; 6] = true
  /\ distinct ([0; 1; 2; 3] ++ 4 :: used_work (length [0; 1; 2; 3]) [5; 6])
     = true
  /\ exists s',
       simulate_emitted (mcx_ladder [0; 1; 2; 3] 4 [5; 6])
         (state_of [(0, true); (1, true); (2, true); (3, true)]) = Some s'
       /\ (forall q, q <> 4 ->
             s' q = state_of [(0, true); (1, true); (2, true); (3, true)] q)
       /\ (all_zero (state_of [(0, true); (1, true); (2, true); (3, true)])
             (used_work (length [0; 1; 2; 3]) [5; 6]) = true ->
           s' 4
           = xorb (state_of [(0, true); (1, true); (2, true); (3, true)] 4)
               (all_set (state_of [(0, true); (1, true); (2, true); (3, true)])
                  [0; 1; 2; 3])).
Proof.
  split; [reflexivity|]. split; [reflexivity|].
  apply (mcx_ladder_correct [0; 1; 2; 3] 4 [5; 6]); reflexivity.
Defined.

(** C2 as stated fails: three controls [q0 q1 q2], target [q3], one work
    qubit [q4] (enough for three controls), and the assignment
    [q2 = 1, q4 = 1], everything else 0.  AND(controls) is 0, yet the target
    is flipped. *)
Lemma mcx_ladder_dirty_work_flips_target :
  enough_work (length [0; 1; 2]) [4] = true
  /\ exists s',
       simulate_emitted (mcx_ladder [0; 1; 2] 3 [4])
         (state_of [(2, true); (4, true)]) = Some s'
       /\ s' 3 = true
       /\ xorb (state_of [(2, true); (4, true)] 3)
            (all_set (state_of [(2, true); (4, true)]) [0; 1; 2]) = false.
Proof.
  split; [reflexivity|]. eexists. split; [reflexivity|]. split; reflexivity.
Qed.

(** * The prefix predicate compiler *)

(** C1. On a register layout (index, flag and work qubits pairwise
    different, at least [n - 2] work qubits for [n] index qubits), for every
    bound [C] and every basis state whose index register holds [x] and whose
    flag and work qubits are 0: simulating what
    [mark_less_than_constant_disjoint_terms] emits ends with the flag equal to
    [x < C] and every other qubit (index and work qubits among them)
    holding its initial value. *)
Theorem mark_less_than_correct index flag work C x s :
  layout_ok index [flag] work = true ->
  enough_work (length index) work = true ->
  reg_value index s = x ->
  s flag = false ->
  all_zero s work = true ->
  (0 <= x < 2 ^ Z.of_nat (length index))%Z
  /\ exists s',
       simulate_emitted
         (mark_less_than_constant_disjoint_terms index flag C work) s
       = Some s'
       /\ s' flag = (x <? C)%Z
       /\ (forall q, q <> flag -> s' q = s q).
Proof.
  intros Hlay Hw Hx Hf Hz. split; [rewrite <- Hx; apply reg_value_bounds|].
  exists (exec (lt_gates index flag C work) s). repeat split.
  - apply simulate_emitted_exec;
      [now apply mark_less_than_emits|apply lt_gates_classical].
  - rewrite lt_exec by assumption. now rewrite Nat.eqb_refl, Hf, Hx.
  - intros q Hq. rewrite lt_exec by assumption.
    apply Nat.eqb_neq in Hq. now rewrite Hq.
Qed.

Lemma mark_less_than_correct_witness :
  layout_ok [0; 1; 2] [3] [6] = true
  /\ enough_work (length [0; 1; 2]) [6] = true
  /\ reg_value [0; 1; 2] (state_of [(2, true)]) = 4%Z
  /\ state_of [(2, true)] 3 = false
  /\ all_zero (state_of [(2, true)]) [6] = true
  /\ (0 <= 4 < 2 ^ Z.of_nat (length [0; 1; 2]))%Z
  /\ exists s',
       simulate_emitted
         (mark_less_than_constant_disjoint_terms [0; 1; 2] 3 5 [6])
         (state_of [(2, true)])
       = Some s'
       /\ s' 3 = (4 <? 5)%Z
       /\ (forall q, q <> 3 -> s' q = state_of [(2, true)] q).
Proof.
  repeat (split; [reflexivity|]).
  apply (mark_less_than_correct [0; 1; 2] 3 [6] 5 4 (state_of [(2, true)]));
    reflexivity.
Defined.

(** * The range composer *)

(** C3. On a register layout with three different flag qubits, for all
    bounds and every basis state whose index register holds [x] and whose
    [flag_out], [tmp_hi], [tmp_lo] and work qubits are 0: simulating what
    [mark_range_lo_hi] emits ends with [flag_out] equal to [lo <= x < hi] and
    the index bits unchanged. *)
Theorem mark_range_correct index flag_out tmp_hi tmp_lo work lo hi x s :
  layout_ok index [flag_out; tmp_hi; tmp_lo] work = true ->
  enough_work (length index) work = true ->
  reg_value index s = x ->
  all_zero s ([flag_out; tmp_hi; tmp_lo] ++ work) = true ->
  exists s',
    simulate_emitted
      (mark_range_lo_hi index flag_out tmp_hi tmp_lo lo hi work) s
    = Some s'
    /\ s' flag_out = ((lo <=? x) && (x <? hi))%Z
    /\ (forall q, In q index -> s' q = s q).
Proof.
  intros Hlay Hw Hx Hz. unfold all_zero in Hz. cbn [app forallb] in Hz.
  apply andb_true_iff in Hz. destruct Hz as [Hfo Hz].
  apply andb_true_iff in Hz. destruct Hz as [Hth Hz].
  apply andb_true_iff in Hz. destruct Hz as [Htl Hz].
  apply negb_true_iff in Hfo, Hth, Htl. fold (all_zero s work) in Hz.
  exists (exec (range_gates index flag_out tmp_hi tmp_lo lo hi work) s).
  repeat split.
  - apply simulate_emitted_exec; [now apply range_emits|].
    unfold range_gates. now rewrite !forallb_app, !lt_gates_classical.
  - rewrite range_exec by assumption.
    rewrite Nat.eqb_refl, Hfo, Hth, Htl, Hx, !xorb_false_l.
    rewrite (Z.leb_antisym x lo). apply andb_comm.
  - intros q Hq. now apply range_keeps_index.
Qed.

Lemma mark_range_correct_witness :
  layout_ok [0; 1; 2] [3; 4; 5] [6] = true
  /\ enough_work (length [0; 1; 2]) [6] = true
  /\ reg_value [0; 1; 2] (state_of [(0, true); (1, true)]) = 3%Z
  /\ all_zero (state_of [(0, true); (1, true)]) ([3; 4; 5] ++ [6]) = true
  /\ exists s',
       simulate_emitted (mark_range_lo_hi [0; 1; 2] 3 4 5 2 6 [6])
         (state_of [(0, true); (1, true)])
       = Some s'
       /\ s' 3 = ((2 <=? 3) && (3 <? 6))%Z
       /\ (forall q, In q [0; 1; 2] ->
             s' q = state_of [(0, true); (1, true)] q).
Proof.
  repeat (split; [reflexivity|]).
  apply (mark_range_correct [0; 1; 2] 3 4 5 [6] 2 6 3
           (state_of [(0, true); (1, true)])); reflexivity.
Defined.

(** * The phase oracle *)

Lemma filter_classical gs :
  forallb classical gs = true -> filter (fun g => negb (is_z g)) gs = gs.
Proof.
  induction gs as [|g gs IH]; simpl; intros H; auto.
  apply andb_true_iff in H. destruct H as [Hg H].
  destruct g; try discriminate; simpl; now rewrite IH.
Qed.

Lemma range_gates_classical index fo th tl lo hi work :
  forallb classical (range_gates index fo th tl lo hi work) = true.
Proof. unfold range_gates. now rewrite !forallb_app, !lt_gates_classical. Qed.

Lemma uncompute_gates_classical index fo th tl lo hi work :
  forallb classical (uncompute_gates index fo th tl lo hi work) = true.
Proof. unfold uncompute_gates. now rewrite !forallb_app, !lt_gates_classical. Qed.

Lemma oracle_without_z index fr th tl p lo hi work :
  filter (fun g => negb (is_z g)) (oracle_gates index fr th tl p lo hi work)
  = if (p =? "qid_lt")%string
    then lt_gates index fr hi work ++ lt_gates index fr hi work
    else range_gates index fr th tl lo hi work
         ++ uncompute_gates index fr th tl lo hi work.
Proof.
  unfold oracle_gates. destruct (p =? "qid_lt")%string;
    rewrite !filter_app; cbn [filter is_z negb app];
    now rewrite !filter_classical
      by auto using lt_gates_classical, range_gates_classical,
           uncompute_gates_classical.
Qed.

(** C4. On a register layout, for every predicate (any tag, any bounds) and
    every basis state whose flag, temporary and work qubits are 0: the
    statements of [phase_oracle_qfilter] with the z left out -- compute, then
    uncompute -- return every flag, temporary and work qubit to 0 and leave
    every index bit unchanged; the same holds for the two compositions
    written out, [mark_range_lo_hi] then [uncompute_range_lo_hi], and
    [mark_less_than_constant_disjoint_terms] twice. *)
Theorem phase_oracle_uncomputes
  index flag_range tmp_hi tmp_lo work pred_type lo hi s :
  layout_ok index [flag_range; tmp_hi; tmp_lo] work = true ->
  enough_work (length index) work = true ->
  all_zero s ([flag_range; tmp_hi; tmp_lo] ++ work) = true ->
  (exists s',
     simulate_emitted_without_z
       (phase_oracle_qfilter index flag_range tmp_hi tmp_lo pred_type lo hi
          work) s = Some s'
     /\ all_zero s' ([flag_range; tmp_hi; tmp_lo] ++ work) = true
     /\ (forall q, In q index -> s' q = s q))
  /\ (exists s',
        simulate_emitted
          (mark_range_lo_hi index flag_range tmp_hi tmp_lo lo hi work ;;
           uncompute_range_lo_hi index flag_range tmp_hi tmp_lo lo hi work) s
        = Some s'
        /\ all_zero s' ([flag_range; tmp_hi; tmp_lo] ++ work) = true
        /\ (forall q, In q index -> s' q = s q))
  /\ (exists s',
        simulate_emitted
          (mark_less_than_constant_disjoint_terms index flag_range hi work ;;
           mark_less_than_constant_disjoint_terms index flag_range hi work) s
        = Some s'
        /\ all_zero s' ([flag_range; tmp_hi; tmp_lo] ++ work) = true
        /\ (forall q, In q index -> s' q = s q)).
Proof.
  intros Hlay Hw Hz.
  assert (Hzw : all_zero s work = true).
  { unfold all_zero in *. rewrite forallb_app in Hz.
    now apply andb_true_iff in Hz. }
  set (rt := range_gates index flag_range tmp_hi tmp_lo lo hi work
             ++ uncompute_gates index flag_range tmp_hi tmp_lo lo hi work).
  set (lt2 := lt_gates index flag_range hi work
              ++ lt_gates index flag_range hi work).
  assert (Hrt : forall q, exec rt s q = s q)
    by (intros q; now apply range_round_trip).
  assert (Hlt : forall q, exec lt2 s q = s q)
    by (intros q; now apply (lt_round_trip index flag_range tmp_hi tmp_lo)).
  assert (Crt : forallb classical rt = true).
  { unfold rt. now rewrite forallb_app, range_gates_classical,
      uncompute_gates_classical. }
  assert (Clt : forallb classical lt2 = true).
  { unfold lt2. now rewrite forallb_app, !lt_gates_classical. }
  split; [|split].
  - unfold simulate_emitted_without_z.
    rewrite (oracle_emits index flag_range tmp_hi tmp_lo pred_type lo hi work
               Hw []).
    simpl app. rewrite oracle_without_z.
    destruct (pred_type =? "qid_lt")%string.
    + exists (exec lt2 s). fold lt2. rewrite simulate_exec by assumption.
      repeat split; auto. now apply (all_zero_ext s).
    + exists (exec rt s). fold rt. rewrite simulate_exec by assumption.
      repeat split; auto. now apply (all_zero_ext s).
  - exists (exec rt s). repeat split; auto.
    + apply simulate_emitted_exec; [|assumption].
      apply emits_bind; [now apply range_emits|now apply uncompute_emits].
    + now apply (all_zero_ext s).
  - exists (exec lt2 s). repeat split; auto.
    + apply simulate_emitted_exec; [|assumption].
      apply emits_bind; now apply mark_less_than_emits.
    + now apply (all_zero_ext s).
Qed.

Lemma phase_oracle_uncomputes_witness :
  layout_ok [0; 1; 2] [3; 4; 5] [6] = true
  /\ enough_work (length [0; 1; 2]) [6] = true
  /\ all_zero (state_of [(0, true); (2, true)]) ([3; 4; 5] ++ [6]) = true
  /\ exists s',
       simulate_emitted_without_z
         (phase_oracle_qfilter [0; 1; 2] 3 4 5 "qid_range" 2 6 [6])
         (state_of [(0, true); (2, true)]) = Some s'
       /\ all_zero s' ([3; 4; 5] ++ [6]) = true
       /\ (forall q, In q [0; 1; 2] ->
             s' q = state_of [(0, true); (2, true)] q).
Proof.
  repeat (split; [reflexivity|]).
  apply (phase_oracle_uncomputes [0; 1; 2] 3 4 5 [6] "qid_range" 2 6
           (state_of [(0, true); (2, true)])); reflexivity.
Defined.

(** * The circuit assemblers *)

Lemma classical_is_gate g : classical g = true -> is_gate g = true.
Proof. now destruct g. Qed.

Lemma forallb_impl {A} (p r : A -> bool) l :
  (forall a, p a = true -> r a = true) ->
  forallb p l = true -> forallb r l = true.
Proof.
  intros Hpr. rewrite !forallb_forall. auto.
Qed.

Lemma forallb_map_const {A} (p : line -> bool) (f : A -> line) l :
  (forall a, p (f a) = true) -> forallb p (map f l) = true.
Proof. intros H. induction l; simpl; auto. now rewrite H. Qed.

Lemma lt_gates_are_gates index flag C work :
  forallb is_gate (lt_gates index flag C work) = true.
Proof.
  apply (forallb_impl classical); [apply classical_is_gate|].
  apply lt_gates_classical.
Qed.

Lemma range_gates_are_gates index fo th tl lo hi work :
  forallb is_gate (range_gates index fo th tl lo hi work) = true.
Proof.
  apply (forallb_impl classical); [apply classical_is_gate|].
  apply range_gates_classical.
Qed.

Lemma uncompute_gates_are_gates index fo th tl lo hi work :
  forallb is_gate (uncompute_gates index fo th tl lo hi work) = true.
Proof.
  apply (forallb_impl classical); [apply classical_is_gate|].
  apply uncompute_gates_classical.
Qed.

Lemma mcx_gates_are_gates cs t ws : forallb is_gate (mcx_gates cs t ws) = true.
Proof.
  apply (forallb_impl classical); [apply classical_is_gate|].
  apply mcx_gates_classical.
Qed.

Lemma program_body_gates n reps p lo hi f :
  forallb is_gate (program_body n reps p lo hi f) = true.
Proof.
  unfold program_body. rewrite !forallb_app.
  rewrite forallb_map_const by reflexivity. cbn [andb].
  apply andb_true_iff. split.
  - apply flat_map_forallb. intros _ _. rewrite forallb_app.
    apply andb_true_iff. split.
    + unfold oracle_gates. destruct (p =? "qid_lt")%string;
        rewrite !forallb_app; cbn [forallb is_gate andb];
        now rewrite ?lt_gates_are_gates, ?range_gates_are_gates,
          ?uncompute_gates_are_gates.
    + unfold diffusion_gates. rewrite !forallb_app.
      rewrite !forallb_map_const by reflexivity. cbn [andb].
      rewrite andb_true_r.
      destruct (length (range_ 0 n) =? 1); [reflexivity|].
      rewrite !forallb_app. cbn [forallb is_gate andb].
      now rewrite mcx_gates_are_gates.
  - unfold final_gates. rewrite forallb_app. cbn [forallb is_gate andb].
    rewrite andb_true_r. destruct (p =? "qid_lt")%string;
      [apply lt_gates_are_gates|apply range_gates_are_gates].
Qed.

(** ** The returned text, line by line *)

Lemma printable_app a b : printable (a ++ b) = printable a && printable b.
Proof.
  induction a as [|c a IH]; simpl; auto. now rewrite IH, andb_assoc.
Qed.

Lemma printable_uint d : printable (NilEmpty.string_of_uint d) = true.
Proof. induction d; simpl; auto. Qed.

Lemma printable_dec n : printable (dec n) = true.
Proof. apply printable_uint. Qed.

Lemma printable_decZ z : printable (decZ z) = true.
Proof.
  unfold decZ. destruct (Z.to_int z) as [d|d]; simpl;
    destruct d; simpl; auto using printable_uint.
Qed.

Lemma printable_gate g : is_gate g = true -> printable (qasm "q" g) = true.
Proof.
  destruct g; intros H; try discriminate; unfold qasm, qref;
    rewrite ?printable_app, ?printable_dec; reflexivity.
Qed.

Lemma printable_grover_comment n it p lo hi :
  printable p = true -> printable (grover_comment n it p lo hi) = true.
Proof.
  intros Hp. unfold grover_comment.
  rewrite ?printable_app, ?printable_dec, ?printable_decZ, ?Hp. reflexivity.
Qed.

Lemma printable_mlae_comment n k p lo hi :
  printable p = true -> printable (mlae_comment n k p lo hi) = true.
Proof.
  intros Hp. unfold mlae_comment.
  rewrite ?printable_app, ?printable_dec, ?printable_decZ, ?Hp. reflexivity.
Qed.

Lemma printable_qreg_decl total : printable (qreg_decl "q" total) = true.
Proof.
  unfold qreg_decl. rewrite ?printable_app, ?printable_dec. reflexivity.
Qed.

Lemma printable_not_line_feed c :
  printable_char c = true -> Ascii.eqb c line_feed = false.
Proof.
  intros H. destruct (Ascii.eqb_spec c line_feed) as [E|E];
    [subst c; discriminate H|reflexivity].
Qed.

Lemma text_lines_line x rest :
  printable x = true ->
  text_lines (x ++ String line_feed rest) = x :: text_lines rest.
Proof.
  induction x as [|c x IH]; intros H.
  - reflexivity.
  - simpl in H. apply andb_true_iff in H. destruct H as [Hc Hx].
    change (text_lines (String c x ++ String line_feed rest))
      with (if Ascii.eqb c line_feed
            then EmptyString :: text_lines (x ++ String line_feed rest)
            else match text_lines (x ++ String line_feed rest) with
                 | [] => [String c EmptyString]
                 | l :: ls => String c l :: ls
                 end).
    now rewrite (printable_not_line_feed c Hc), (IH Hx).
Qed.

Lemma append_assoc (a b c : string) : ((a ++ b) ++ c = a ++ (b ++ c))%string.
Proof. induction a as [|x a IH]; simpl; congruence. Qed.

Lemma text_lines_join : forall xs x,
  forallb printable (x :: xs) = true ->
  text_lines (String.concat (String line_feed "") (x :: xs)
              ++ String line_feed "") = x :: xs.
Proof.
  induction xs as [|y ys IH]; intros x H; simpl in H;
    apply andb_true_iff in H; destruct H as [Hx H].
  - cbn [String.concat]. now rewrite text_lines_line.
  - set (C := String.concat (String line_feed "") (y :: ys)) in *.
    assert (E : (String.concat (String line_feed "") (x :: y :: ys)
                 ++ String line_feed ""
                 = x ++ String line_feed (C ++ String line_feed ""))%string).
    { change (String.concat (String line_feed "") (x :: y :: ys))
        with (x ++ String line_feed "" ++ C)%string.
      now rewrite append_assoc. }
    rewrite E, text_lines_line by assumption. f_equal. now apply IH.
Qed.

Lemma digits_uint d : digits (NilEmpty.string_of_uint d) = true.
Proof. induction d; simpl; auto. Qed.

Lemma dec_inj a b : dec a = dec b -> a = b.
Proof.
  unfold dec. intros E. apply DecimalNat.Unsigned.to_uint_inj.
  assert (H : Some (Nat.to_uint a) = Some (Nat.to_uint b))
    by (rewrite <- !NilEmpty.usu; now rewrite E).
  now injection H.
Qed.

Lemma digits_sep d1 : forall d2 c1 c2 r1 r2,
  digits d1 = true -> digits d2 = true ->
  is_digit c1 = false -> is_digit c2 = false ->
  (d1 ++ String c1 r1 = d2 ++ String c2 r2)%string ->
  d1 = d2 /\ r1 = r2.
Proof.
  induction d1 as [|x d1 IH]; intros [|y d2] c1 c2 r1 r2 H1 H2 N1 N2 E;
    simpl in *.
  - injection E as _ E. now split.
  - injection E as Ec _. subst c1.
    apply andb_true_iff in H2. destruct H2 as [H2 _]. congruence.
  - injection E as Ec _. subst c2.
    apply andb_true_iff in H1. destruct H1 as [H1 _]. congruence.
  - injection E as Ex E. subst y.
    apply andb_true_iff in H1. destruct H1 as [_ H1].
    apply andb_true_iff in H2. destruct H2 as [_ H2].
    destruct (IH d2 c1 c2 r1 r2 H1 H2 N1 N2 E) as [-> ->]. now split.
Qed.

Lemma dec_close_inj a b r1 r2 :
  ((dec a ++ "]") ++ r1 = (dec b ++ "]") ++ r2)%string -> a = b /\ r1 = r2.
Proof.
  rewrite !append_assoc. cbn [String.append]. intros E.
  apply digits_sep in E; try apply digits_uint; try reflexivity.
  destruct E as [E ->]. split; [now apply dec_inj|reflexivity].
Qed.

Lemma qasm_forms :
  (forall t,
     qasm "q" (Gx t) = String "x" (String " " (qref "q" t ++ ";")%string))
  /\ (forall c t,
        qasm "q" (Gcx c t)
        = String "c" (String "x" (String " "
            (qref "q" c ++ String "," (qref "q" t ++ ";"))%string)))
  /\ (forall a b t,
        qasm "q" (Gccx a b t)
        = String "c" (String "c" (String "x" (String " "
            (qref "q" a ++ String ","
               (qref "q" b ++ String "," (qref "q" t ++ ";")))%string))))
  /\ (forall t,
        qasm "q" (Gh t) = String "h" (String " " (qref "q" t ++ ";")%string))
  /\ (forall t,
        qasm "q" (Gz t) = String "z" (String " " (qref "q" t ++ ";")%string))
  /\ (forall t,
        qasm "q" (Gmeasure t)
        = String "m" (String "e" (String "a" (String "s" (String "u"
            (String "r" (String "e" (String " "
               (qref "q" t ++ " -> c[0];")%string)))))))).
Proof. repeat split. Qed.

Lemma qasm_gate_inj g1 g2 :
  is_gate g1 = true -> is_gate g2 = true ->
  qasm "q" g1 = qasm "q" g2 -> g1 = g2.
Proof.
  destruct qasm_forms as [Fx [Fcx [Fccx [Fh [Fz Fm]]]]].
  destruct g1, g2; intros H1 H2; try discriminate;
    rewrite ?Fx, ?Fcx, ?Fccx, ?Fh, ?Fz, ?Fm; intros E;
    try discriminate E; injection E as E.
  - apply dec_close_inj in E. destruct E as [-> _]. reflexivity.
  - apply dec_close_inj in E. destruct E as [-> E]. injection E as E.
    apply dec_close_inj in E. destruct E as [-> _]. reflexivity.
  - apply dec_close_inj in E. destruct E as [-> E]. injection E as E.
    apply dec_close_inj in E. destruct E as [-> E]. injection E as E.
    apply dec_close_inj in E. destruct E as [-> _]. reflexivity.
  - apply dec_close_inj in E. destruct E as [-> _]. reflexivity.
  - apply dec_close_inj in E. destruct E as [-> _]. reflexivity.
  - apply dec_close_inj in E. destruct E as [-> _]. reflexivity.
Qed.

Lemma qasm_gates_inj : forall b1 b2,
  forallb is_gate b1 = true -> forallb is_gate b2 = true ->
  map (qasm "q") b1 = map (qasm "q") b2 -> b1 = b2.
Proof.
  induction b1 as [|g1 b1 IH]; intros [|g2 b2] H1 H2 E; simpl in *;
    try discriminate; auto.
  apply andb_true_iff in H1, H2. destruct H1 as [G1 H1], H2 as [G2 H2].
  injection E as Eg E. f_equal; [now apply qasm_gate_inj|now apply IH].
Qed.

Lemma join_lines_text header L :
  L <> [] ->
  join_lines "q" (Text header :: L)
  = (header ++ String line_feed (join_lines "q" L))%string.
Proof.
  intros HL. destruct L as [|y ys]; [contradiction|]. unfold join_lines.
  change (String.concat (String (ascii_of_nat 10) "")
            (map (qasm "q") (Text header :: y :: ys)))
    with (header ++ String line_feed ""
            ++ String.concat (String line_feed "")
                 (map (qasm "q") (y :: ys)))%string.
  now rewrite append_assoc.
Qed.

Lemma builder_output_intro result header decl comment body
  (P : list line -> Prop) :
  result = Ok (join_lines "q"
                 (Text header :: Text decl :: Text "creg c[1];"
                  :: Text comment :: body)) ->
  printable decl = true -> printable comment = true ->
  forallb is_gate body = true -> P body ->
  builder_output result header decl comment P.
Proof.
  intros E Hd Hc Hg HP.
  exists (join_lines "q" (Text decl :: Text "creg c[1];" :: Text comment
                          :: body)),
         (map (qasm "q") body).
  split; [|split; [|split]].
  - rewrite E. now rewrite join_lines_text.
  - unfold join_lines. cbn [map qasm].
    change (String (ascii_of_nat 10) "") with (String line_feed "").
    apply text_lines_join. cbn [forallb]. rewrite Hd, Hc. cbn [andb printable].
    apply forallb_forall. intros l Hl. apply in_map_iff in Hl.
    destruct Hl as [g [<- Hg']]. apply printable_gate.
    rewrite forallb_forall in Hg. now apply Hg.
  - exists body. now split.
  - intros body' [Hg' E']. now rewrite (qasm_gates_inj body' body).
Qed.

Lemma grover_output header n it p lo hi f (P : list line -> Prop) :
  1 <= n -> 1 <= f -> printable p = true ->
  P (program_body n (repetitions it) p lo hi f) ->
  builder_output (build_qasm2_grover_qfilter header n it p lo hi f) header
    (qreg_decl "q" (n + f + work_count n)) (grover_comment n it p lo hi) P.
Proof.
  intros Hn Hf Hp HP. apply (builder_output_intro _ _ _ _
    (program_body n (repetitions it) p lo hi f)); auto.
  - apply (finish_emits _ _ (grover_lines_emits header n it p lo hi f Hn Hf)).
  - apply printable_qreg_decl.
  - now apply printable_grover_comment.
  - apply program_body_gates.
Qed.

Lemma mlae_output header n k p lo hi f (P : list line -> Prop) :
  1 <= n -> 1 <= f -> printable p = true ->
  P (program_body n (repetitions k) p lo hi f) ->
  builder_output (build_qasm2_mlae_schedule_element header n k p lo hi f)
    header (qreg_decl "q" (n + f + work_count n)) (mlae_comment n k p lo hi) P.
Proof.
  intros Hn Hf Hp HP. apply (builder_output_intro _ _ _ _
    (program_body n (repetitions k) p lo hi f)); auto.
  - apply (finish_emits _ _ (mlae_lines_emits header n k p lo hi f Hn Hf)).
  - apply printable_qreg_decl.
  - now apply printable_mlae_comment.
  - apply program_body_gates.
Qed.

Lemma gate_not_declaration g :
  is_gate g = true -> declares_register (qasm "q" g) = false.
Proof. destruct g; intros H; try discriminate; reflexivity. Qed.

Lemma grover_comment_not_declaration n it p lo hi :
  declares_register (grover_comment n it p lo hi) = false.
Proof. reflexivity. Qed.

(** C5, as the code has it.  For [n_index >= 2], [flags_count >= 1] and a
    predicate tag of printable ASCII characters, [build_qasm2_grover_qfilter]
    returns the header, a line feed and a text whose first line is the
    register declaration of [2 * n_index + flags_count - 2] qubits; no later
    line of that text is a register declaration. *)
Theorem grover_qreg_declaration
  header n_index iterations pred_type lo hi flags_count :
  2 <= n_index -> 1 <= flags_count -> printable pred_type = true ->
  exists rest later,
    build_qasm2_grover_qfilter header n_index iterations pred_type lo hi
      flags_count = Ok (header ++ String line_feed rest)%string
    /\ text_lines rest
       = qreg_decl "q" (2 * n_index + flags_count - 2) :: later
    /\ declares_register (qreg_decl "q" (2 * n_index + flags_count - 2))
       = true
    /\ forallb (fun l => negb (declares_register l)) later = true.
Proof.
  intros Hn Hf Hp.
  destruct (grover_output header n_index iterations pred_type lo hi
              flags_count (fun _ => True))
    as [rest [tail [E [L [[body B] _]]]]]; auto; [lia|].
  exists rest, ("creg c[1];"%string
                :: grover_comment n_index iterations pred_type lo hi :: tail).
  split; [assumption|]. split; [|split].
  - rewrite L. do 2 f_equal. rewrite work_count_eq. lia.
  - reflexivity.
  - cbn [forallb]. rewrite grover_comment_not_declaration.
    change (declares_register "creg c[1];") with false. cbn [negb andb].
    destruct B as [Hg <-]. apply forallb_forall. intros l Hl.
    apply in_map_iff in Hl. destruct Hl as [g [<- Hin]].
    rewrite gate_not_declaration; auto.
    rewrite forallb_forall in Hg. now apply Hg.
Qed.

Lemma grover_qreg_declaration_witness :
  2 <= 3 /\ 1 <= 3 /\ printable "qid_range" = true
  /\ exists rest later,
       build_qasm2_grover_qfilter "OPENQASM 2.0;" 3 1 "qid_range" 2 6 3
       = Ok ("OPENQASM 2.0;" ++ String line_feed rest)%string
       /\ text_lines rest = qreg_decl "q" (2 * 3 + 3 - 2) :: later
       /\ declares_register (qreg_decl "q" (2 * 3 + 3 - 2)) = true
       /\ forallb (fun l => negb (declares_register l)) later = true.
Proof.
  split; [lia|]. split; [lia|]. split; [reflexivity|].
  apply (grover_qreg_declaration "OPENQASM 2.0;" 3 1 "qid_range" 2 6 3);
    [lia|lia|reflexivity].
Defined.

(** Without any flag qubit [flags[0]] raises and no program is returned. *)
Lemma grover_without_flags_raises header n_index iterations pred_type lo hi :
  build_qasm2_grover_qfilter header n_index iterations pred_type lo hi 0
  = Raise IndexError.
Proof.
  unfold build_qasm2_grover_qfilter, finish, grover_qfilter_lines, range_.
  cbv zeta. replace (n_index + 0 - n_index) with 0 by lia. reflexivity.
Qed.

(** C5 as stated fails at [n_index = 1]: with three flags the returned text
    declares 4 qubits in its only register declaration, not
    [2 * 1 + 3 - 2 = 3]. *)
Lemma grover_one_index_qubit_declares_four :
  exists text,
    build_qasm2_grover_qfilter "OPENQASM 2.0;" 1 0 "qid_lt" 0 1 3 = Ok text
    /\ text_lines text
       = ["OPENQASM 2.0;"; "qreg q[4];"; "creg c[1];";
          "// kernel=grover_qfilter n_index=1 iters=0 pred=qid_lt lo=0 hi=1";
          "h q[0];"; "x q[0];"; "cx q[0],q[1];"; "x q[0];";
          "measure q[1] -> c[0];"]%string
    /\ 2 * 1 + 3 - 2 = 3.
Proof.
  eexists. split; [vm_compute; reflexivity|]. split; reflexivity.
Qed.

(** The tag is copied into the comment line as it is.  A tag with a line feed
    ends the comment there, and what follows stands on a line of its own:
    here a second register declaration. *)
Lemma grover_tag_with_line_feed_declares_twice :
  exists text,
    build_qasm2_grover_qfilter "OPENQASM 2.0;" 2 0
      ("x" ++ String line_feed "qreg q[99];")%string 0 1 3 = Ok text
    /\ nth 1 (text_lines text) EmptyString = "qreg q[5];"%string
    /\ nth 4 (text_lines text) EmptyString = "qreg q[99]; lo=0 hi=1"%string.
Proof.
  eexists. split; [vm_compute; reflexivity|]. split; reflexivity.
Qed.

Lemma getitem_cases {A} (l : list A) i :
  (exists a, forall lines, getitem l i lines = (Ok a, lines))
  \/ (forall lines, getitem l i lines = (Raise IndexError, lines)).
Proof.
  unfold getitem. destruct (nth_error l i); [left; eexists|right]; reflexivity.
Qed.

Lemma getitem_if_cases {A} (b : bool) (l : list A) i j :
  (exists a, forall lines,
      (if b then getitem l i else getitem l j) lines = (Ok a, lines))
  \/ (forall lines,
        (if b then getitem l i else getitem l j) lines
        = (Raise IndexError, lines)).
Proof. destruct b; apply getitem_cases. Qed.

Lemma preamble_then (R : Emit unit) pre :
  appends_only R ->
  (for_ pre append ;; R) [] = (fst (R []), pre ++ snd (R [])).
Proof.
  intros H. rewrite (bind_ok _ _ _ _ _ (for_append_list pre [])).
  simpl app. apply H.
Qed.

Lemma ao_body index fr th tl p lo hi work reps :
  appends_only
    (prepare_uniform index ;;
     for_ (range_ 0 reps) (fun _ =>
       phase_oracle_qfilter index fr th tl p lo hi work ;;
       diffusion_about_uniform index work) ;;
     final_compute_and_measure_flag index fr th tl p lo hi work).
Proof.
  unfold prepare_uniform.
  repeat first [apply ao_phase_oracle | apply ao_diffusion | apply ao_final
               | appends_only_step].
Qed.

(** C9. Whatever the arguments, [build_qasm2_mlae_schedule_element] with
    repetition count [k] and [build_qasm2_grover_qfilter] with
    [iterations = k] either raise the same exception or return programs made
    of the same lines, in the same order, except for the fourth line, the
    metadata comment. *)
Theorem mlae_matches_grover header n_index k pred_type lo hi flags_count :
  (exists e,
      build_qasm2_grover_qfilter header n_index k pred_type lo hi flags_count
      = Raise e
      /\ build_qasm2_mlae_schedule_element header n_index k pred_type lo hi
           flags_count = Raise e)
  \/ (exists l0 l1 l2 rest,
        build_qasm2_grover_qfilter header n_index k pred_type lo hi
          flags_count
        = Ok (join_lines "q"
                (l0 :: l1 :: l2
                 :: Text (grover_comment n_index k pred_type lo hi) :: rest))
        /\ build_qasm2_mlae_schedule_element header n_index k pred_type lo hi
             flags_count
           = Ok (join_lines "q"
                   (l0 :: l1 :: l2
                    :: Text (mlae_comment n_index k pred_type lo hi)
                    :: rest))).
Proof.
  unfold build_qasm2_grover_qfilter, build_qasm2_mlae_schedule_element,
    finish, grover_qfilter_lines, mlae_schedule_element_lines.
  cbv zeta.
  set (flags := range_ n_index (n_index + flags_count)).
  destruct (getitem_cases flags 0) as [[fr E0]|E0];
    [|left; exists IndexError;
      now rewrite !(bind_raise _ _ _ _ _ (E0 []))].
  rewrite !(bind_ok _ _ _ _ _ (E0 [])).
  destruct (getitem_if_cases (2 <=? flags_count) flags 1 0) as [[th E1]|E1];
    [|left; exists IndexError;
      now rewrite !(bind_raise _ _ _ _ _ (E1 []))].
  rewrite !(bind_ok _ _ _ _ _ (E1 [])).
  destruct (getitem_if_cases (3 <=? flags_count) flags 2 0) as [[tl E2]|E2];
    [|left; exists IndexError;
      now rewrite !(bind_raise _ _ _ _ _ (E2 []))].
  rewrite !(bind_ok _ _ _ _ _ (E2 [])).
  rewrite !preamble_then by apply ao_body.
  match goal with
  | |- context [fst (?R [])] => destruct (R []) as [[[]|e] out]
  end; cbn [fst snd app].
  - right. do 4 eexists. split; reflexivity.
  - left. exists e. split; reflexivity.
Qed.

(** C10. For [n_index >= 1], three flags, a supported predicate tag and
    bounds in [0, 2^n_index], the [max(0, n_index - 2)] work qubits the
    builders allocate are enough for every ladder they request: the prefix
    term of bit [i] has [n_index - i] controls, the largest one (bit 0) has
    [n_index] controls and needs exactly the work qubits allocated, the
    diffusion ladder has [n_index - 1] controls; so no call raises and both
    builders return a program. *)
Theorem builders_never_lack_work header n_index count pred_type lo hi :
  1 <= n_index ->
  pred_type = "qid_lt"%string \/ pred_type = "qid_range"%string ->
  (0 <= lo <= 2 ^ Z.of_nat n_index)%Z ->
  (0 <= hi <= 2 ^ Z.of_nat n_index)%Z ->
  length (range_ (n_index + 3) (n_index + 3 + work_count n_index))
  = Nat.max 0 (n_index - 2)
  /\ (forall i, i < n_index ->
        length (term_controls (range_ 0 n_index) n_index i) = n_index - i
        /\ enough_work (length (term_controls (range_ 0 n_index) n_index i))
             (range_ (n_index + 3) (n_index + 3 + work_count n_index))
           = true)
  /\ length (term_controls (range_ 0 n_index) n_index 0) - 2
     = length (range_ (n_index + 3) (n_index + 3 + work_count n_index))
  /\ enough_work (length (tl (range_ 0 n_index)))
       (range_ (n_index + 3) (n_index + 3 + work_count n_index)) = true
  /\ (exists text,
        build_qasm2_grover_qfilter header n_index count pred_type lo hi 3
        = Ok text)
  /\ (exists text,
        build_qasm2_mlae_schedule_element header n_index count pred_type lo
          hi 3 = Ok text).
Proof.
  intros Hn _ _ _.
  assert (Hlen : length (range_ 0 n_index) = n_index)
    by (rewrite range_length; lia).
  repeat split.
  - rewrite range_length, work_count_eq. lia.
  - now apply term_controls_length.
  - rewrite term_controls_length by assumption.
    apply builder_work_enough. lia.
  - rewrite term_controls_length, range_length, work_count_eq by lia. lia.
  - apply builder_work_enough.
    destruct n_index; [lia|]. unfold range_. simpl. rewrite length_seq. lia.
  - eexists. apply finish_emits, grover_lines_emits; lia.
  - eexists. apply finish_emits, mlae_lines_emits; lia.
Qed.

Lemma builders_never_lack_work_witness :
  1 <= 4
  /\ ("qid_range"%string = "qid_lt"%string
      \/ "qid_range"%string = "qid_range"%string)
  /\ (0 <= 3 <= 2 ^ Z.of_nat 4)%Z
  /\ (0 <= 11 <= 2 ^ Z.of_nat 4)%Z
  /\ (exists text,
        build_qasm2_grover_qfilter "OPENQASM 2.0;" 4 2 "qid_range" 3 11 3
        = Ok text)
  /\ (exists text,
        build_qasm2_mlae_schedule_element "OPENQASM 2.0;" 4 2 "qid_range" 3
          11 3 = Ok text).
Proof.
  split; [lia|]. split; [right; reflexivity|].
  split; [simpl; lia|]. split; [simpl; lia|].
  apply (builders_never_lack_work "OPENQASM 2.0;" 4 2 "qid_range" 3 11);
    [lia|right; reflexivity|simpl; lia|simpl; lia].
Defined.

(** * Predicate tags *)

(** C7, as the code has it.  A tag other than ["qid_lt"] and ["qid_range"]
    raises nothing: [GroverQFilterKernel.build] replaces it by ["qid_lt"],
    and the phase oracle, the final computation and the two builders, called
    with such a tag, take the range path and return a program. *)
Theorem unsupported_tag_is_defaulted pred_type :
  (pred_type =? "qid_lt")%string = false ->
  (pred_type =? "qid_range")%string = false ->
  kernel_pred_type pred_type = "qid_lt"%string
  /\ (forall header n it lt_hi lo hi,
        kernel_circuit header n it pred_type lt_hi lo hi
        = kernel_circuit header n it "qid_lt" lt_hi lo hi)
  /\ (forall index fr th tl lo hi work,
        phase_oracle_qfilter index fr th tl pred_type lo hi work
        = phase_oracle_qfilter index fr th tl "qid_range" lo hi work)
  /\ (forall index fo th tl lo hi work,
        final_compute_and_measure_flag index fo th tl pred_type lo hi work
        = final_compute_and_measure_flag index fo th tl "qid_range" lo hi
            work)
  /\ (forall header n it lo hi f, 1 <= n -> 1 <= f ->
        exists text,
          build_qasm2_grover_qfilter header n it pred_type lo hi f = Ok text)
  /\ (forall header n k lo hi f, 1 <= n -> 1 <= f ->
        exists text,
          build_qasm2_mlae_schedule_element header n k pred_type lo hi f
          = Ok text).
Proof.
  intros H1 H2.
  assert (Hk : kernel_pred_type pred_type = "qid_lt"%string)
    by (unfold kernel_pred_type; now rewrite H1, H2).
  repeat split.
  - assumption.
  - intros. unfold kernel_circuit. now rewrite Hk.
  - intros. unfold phase_oracle_qfilter. now rewrite H1.
  - intros. unfold final_compute_and_measure_flag. now rewrite H1.
  - intros header n it lo hi f Hn Hf. eexists.
    apply finish_emits, grover_lines_emits; assumption.
  - intros header n k lo hi f Hn Hf. eexists.
    apply finish_emits, mlae_lines_emits; assumption.
Qed.

Lemma unsupported_tag_is_defaulted_witness :
  ("qid_eq" =? "qid_lt")%string = false
  /\ ("qid_eq" =? "qid_range")%string = false
  /\ kernel_pred_type "qid_eq" = "qid_lt"%string
  /\ (forall index fr th tl lo hi work,
        phase_oracle_qfilter index fr th tl "qid_eq" lo hi work
        = phase_oracle_qfilter index fr th tl "qid_range" lo hi work).
Proof.
  split; [reflexivity|]. split; [reflexivity|].
  split; apply (unsupported_tag_is_defaulted "qid_eq"); reflexivity.
Defined.

(** C7 as stated fails: with the tag ["qid_eq"] the kernel builds the
    less-than circuit and the builder, called directly, returns a program;
    nothing is raised. *)
Lemma unknown_tag_yields_a_program :
  (exists text,
      kernel_circuit "OPENQASM 2.0;" 2 1 "qid_eq" 3 1 3 = Ok text)
  /\ (exists text,
        build_qasm2_grover_qfilter "OPENQASM 2.0;" 2 1 "qid_eq" 1 3 3
        = Ok text)
  /\ fst (phase_oracle_qfilter [0; 1] 2 3 4 "qid_eq" 1 3 [] []) = Ok tt.
Proof.
  split; [|split].
  - eexists. unfold kernel_circuit. cbn [kernel_pred_type].
    apply finish_emits, grover_lines_emits; lia.
  - eexists. apply finish_emits, grover_lines_emits; lia.
  - reflexivity.
Qed.

(** * Further properties of the emitters *)

(** ** The ladder is its own inverse *)

Lemma mcx_gates_palindrome cs t ws : rev (mcx_gates cs t ws) = mcx_gates cs t ws.
Proof.
  destruct (Nat.le_gt_cases (length cs) 2) as [Hk|Hk].
  - destruct cs as [|c0 [|c1 [|c2 cs]]]; simpl in Hk; try lia; reflexivity.
  - rewrite mcx_gates_ge3 by lia.
    rewrite !rev_app_distr, rev_involutive. simpl. now rewrite <- app_assoc.
Qed.

Lemma mcx_gates_wf cs t ws :
  enough_work (length cs) ws = true ->
  distinct (cs ++ t :: used_work (length cs) ws) = true ->
  Forall wf_gate (mcx_gates cs t ws).
Proof.
  intros Hw Hd.
  destruct (Nat.le_gt_cases (length cs) 2) as [Hk|Hk].
  - apply distinct_NoDup, NoDup_app_parts in Hd.
    destruct Hd as [_ [_ Hdis]].
    destruct cs as [|c0 [|c1 [|c2 cs]]]; simpl in Hk; try lia;
      repeat constructor; simpl; intros ->;
      apply (Hdis t); simpl; auto.
  - unfold enough_work in Hw. apply orb_true_iff in Hw.
    destruct Hw as [Hw|Hw]; apply Nat.leb_le in Hw; [lia|].
    rewrite mcx_gates_ge3 by lia.
    pose proof (ladder_compute_wf cs t ws Hk Hw Hd) as HC.
    apply Forall_app. split; [assumption|].
    apply Forall_app. split; [|now apply Forall_rev].
    repeat constructor; simpl.
    + apply (target_not_control cs t ws); auto; lia.
    + apply (target_not_work cs t ws); auto; lia.
Qed.

(** X1. For pairwise different control, target and work qubits (with enough
    work qubits), the statements [mcx_ladder] appends read the same
    backwards, and running them twice returns every qubit to its initial
    value, whatever the qubits -- work qubits included -- hold. *)
Theorem mcx_ladder_self_inverse controls target work s :
  enough_work (length controls) work = true ->
  distinct (controls ++ target :: used_work (length controls) work) = true ->
  exists gs s',
    mcx_ladder controls target work [] = (Ok tt, gs)
    /\ rev gs = gs
    /\ simulate_emitted
         (mcx_ladder controls target work ;;
          mcx_ladder controls target work) s = Some s'
    /\ (forall q, s' q = s q).
Proof.
  intros Hw Hd. set (gs := mcx_gates controls target work).
  exists gs, (exec (gs ++ gs) s). repeat split.
  - apply (mcx_ladder_emits controls target work Hw []).
  - apply mcx_gates_palindrome.
  - apply simulate_emitted_exec.
    + apply emits_bind; now apply mcx_ladder_emits.
    + unfold gs. now rewrite forallb_app, mcx_gates_classical.
  - intros q. rewrite exec_app. apply exec_twice.
    + now apply mcx_gates_wf.
    + apply mcx_gates_palindrome.
Qed.

Lemma mcx_ladder_self_inverse_witness :
  enough_work (length [0; 1; 2; 3]) [5; 6] = true
  /\ distinct ([0; 1; 2; 3] ++ 4 :: used_work (length [0; 1; 2; 3]) [5; 6])
     = true
  /\ exists gs s',
       mcx_ladder [0; 1; 2; 3] 4 [5; 6] [] = (Ok tt, gs)
       /\ rev gs = gs
       /\ simulate_emitted
            (mcx_ladder [0; 1; 2; 3] 4 [5; 6] ;;
             mcx_ladder [0; 1; 2; 3] 4 [5; 6])
            (state_of [(0, true); (3, true); (5, true)]) = Some s'
       /\ (forall q, s' q = state_of [(0, true); (3, true); (5, true)] q).
Proof.
  split; [reflexivity|]. split; [reflexivity|].
  apply (mcx_ladder_self_inverse [0; 1; 2; 3] 4 [5; 6]); reflexivity.
Defined.

(** ** The prefix predicate compiler accumulates by XOR *)

(** X2. On a register layout with the work qubits at 0,
    [mark_less_than_constant_disjoint_terms] XORs [x < C] into the flag
    whatever the flag holds, and changes nothing else. *)
Theorem mark_less_than_xor index flag work C s :
  layout_ok index [flag] work = true ->
  enough_work (length index) work = true ->
  all_zero s work = true ->
  exists s',
    simulate_emitted
      (mark_less_than_constant_disjoint_terms index flag C work) s = Some s'
    /\ s' flag = xorb (s flag) (reg_value index s <? C)%Z
    /\ (forall q, q <> flag -> s' q = s q).
Proof.
  intros Hlay Hw Hz.
  exists (exec (lt_gates index flag C work) s). repeat split.
  - apply simulate_emitted_exec;
      [now apply mark_less_than_emits|apply lt_gates_classical].
  - rewrite lt_exec by assumption. now rewrite Nat.eqb_refl.
  - intros q Hq. rewrite lt_exec by assumption.
    apply Nat.eqb_neq in Hq. now rewrite Hq.
Qed.

Lemma mark_less_than_xor_witness :
  layout_ok [0; 1; 2] [3] [6] = true
  /\ enough_work (length [0; 1; 2]) [6] = true
  /\ all_zero (state_of [(2, true); (3, true)]) [6] = true
  /\ exists s',
       simulate_emitted
         (mark_less_than_constant_disjoint_terms [0; 1; 2] 3 5 [6])
         (state_of [(2, true); (3, true)]) = Some s'
       /\ s' 3 = xorb (state_of [(2, true); (3, true)] 3)
                   (Z.ltb (reg_value [0; 1; 2]
                              (state_of [(2, true); (3, true)])) 5)
       /\ (forall q, q <> 3 -> s' q = state_of [(2, true); (3, true)] q).
Proof.
  repeat (split; [reflexivity|]).
  apply (mark_less_than_xor [0; 1; 2] 3 [6] 5
           (state_of [(2, true); (3, true)])); reflexivity.
Defined.

(** ** The phase oracle flips the sign of the matching states *)

Lemma simulate_phase_app a : forall b sp,
  simulate_phase (a ++ b) sp
  = match simulate_phase a sp with
    | Some sp' => simulate_phase b sp'
    | None => None
    end.
Proof.
  induction a as [|g a IH]; intros b sp; simpl; auto.
  destruct (phase_step g sp); auto.
Qed.

Lemma simulate_phase_classical gs : forall s ph,
  forallb classical gs = true ->
  simulate_phase gs (s, ph) = Some (exec gs s, ph).
Proof.
  induction gs as [|g gs IH]; intros s ph Hc; simpl in *; auto.
  apply andb_true_iff in Hc. destruct Hc as [Hg Hgs].
  destruct g; try discriminate; simpl; now rewrite IH.
Qed.

Lemma all_zero_flags s fo th tl work :
  all_zero s ([fo; th; tl] ++ work) = true ->
  s fo = false /\ s th = false /\ s tl = false /\ all_zero s work = true.
Proof.
  unfold all_zero. cbn [app forallb]. intros Hz.
  apply andb_true_iff in Hz. destruct Hz as [Hfo Hz].
  apply andb_true_iff in Hz. destruct Hz as [Hth Hz].
  apply andb_true_iff in Hz. destruct Hz as [Htl Hz].
  apply negb_true_iff in Hfo, Hth, Htl. auto.
Qed.

(** X3. On a register layout, for every predicate and every basis state
    whose flag, temporary and work qubits are 0, the statements of
    [phase_oracle_qfilter] -- z included -- flip the sign of the state exactly
    when its index value satisfies the predicate ([x < hi] for the less-than
    tag, [lo <= x < hi] otherwise), and leave every qubit as it was. *)
Theorem phase_oracle_flips_sign
  index flag_range tmp_hi tmp_lo work pred_type lo hi s sign :
  layout_ok index [flag_range; tmp_hi; tmp_lo] work = true ->
  enough_work (length index) work = true ->
  all_zero s ([flag_range; tmp_hi; tmp_lo] ++ work) = true ->
  exists s' sign',
    simulate_phase_emitted
      (phase_oracle_qfilter index flag_range tmp_hi tmp_lo pred_type lo hi
         work) (s, sign) = Some (s', sign')
    /\ sign' = xorb sign (predicate_holds pred_type lo hi (reg_value index s))
    /\ (forall q, s' q = s q).
Proof.
  intros Hlay Hw Hz.
  destruct (all_zero_flags _ _ _ _ _ Hz) as [Hfo [Hth [Htl Hzw]]].
  unfold simulate_phase_emitted.
  rewrite (oracle_emits index flag_range tmp_hi tmp_lo pred_type lo hi work
             Hw []).
  simpl app. unfold oracle_gates, predicate_holds.
  destruct (pred_type =? "qid_lt")%string.
  - set (A := lt_gates index flag_range hi work).
    exists (exec (A ++ A) s), (xorb sign (exec A s flag_range)).
    repeat split.
    + rewrite simulate_phase_app, simulate_phase_classical
        by apply lt_gates_classical.
      cbn [app simulate_phase phase_step fst snd].
      rewrite simulate_phase_classical by apply lt_gates_classical.
      now rewrite exec_app.
    + unfold A. rewrite lt_exec; auto.
      * now rewrite Nat.eqb_refl, Hfo.
      * apply (range_layout_out index flag_range tmp_hi tmp_lo work Hlay).
    + intros q. now apply (lt_round_trip index flag_range tmp_hi tmp_lo).
  - set (A := range_gates index flag_range tmp_hi tmp_lo lo hi work).
    set (B := uncompute_gates index flag_range tmp_hi tmp_lo lo hi work).
    exists (exec (A ++ B) s), (xorb sign (exec A s flag_range)).
    repeat split.
    + rewrite simulate_phase_app, simulate_phase_classical
        by apply range_gates_classical.
      cbn [app simulate_phase phase_step fst snd].
      rewrite simulate_phase_classical by apply uncompute_gates_classical.
      now rewrite exec_app.
    + unfold A. rewrite range_exec by assumption.
      rewrite Nat.eqb_refl, Hfo, Hth, Htl, !xorb_false_l.
      rewrite (Z.leb_antisym (reg_value index s) lo). f_equal. apply andb_comm.
    + intros q. now apply range_round_trip.
Qed.

Lemma phase_oracle_flips_sign_witness :
  layout_ok [0; 1; 2] [3; 4; 5] [6] = true
  /\ enough_work (length [0; 1; 2]) [6] = true
  /\ all_zero (state_of [(0, true); (2, true)]) ([3; 4; 5] ++ [6]) = true
  /\ exists s' sign',
       simulate_phase_emitted
         (phase_oracle_qfilter [0; 1; 2] 3 4 5 "qid_range" 2 6 [6])
         (state_of [(0, true); (2, true)], false) = Some (s', sign')
       /\ sign'
          = xorb false
              (predicate_holds "qid_range" 2 6
                 (reg_value [0; 1; 2] (state_of [(0, true); (2, true)])))
       /\ (forall q, s' q = state_of [(0, true); (2, true)] q).
Proof.
  repeat (split; [reflexivity|]).
  apply (phase_oracle_flips_sign [0; 1; 2] 3 4 5 [6] "qid_range" 2 6
           (state_of [(0, true); (2, true)]) false); reflexivity.
Defined.

(** ** What the range composer leaves behind, and its inverse *)

(** X4. On a register layout, from a basis state whose three flag qubits and
    work qubits are 0, [mark_range_lo_hi] leaves the two comparisons in the
    temporaries ([tmp_hi = (x < hi)], [tmp_lo = (x < lo)]) and returns every
    qubit other than the three flags, the work qubits among them, to its
    initial value. *)
Theorem mark_range_leaves_temporaries
  index flag_out tmp_hi tmp_lo work lo hi s :
  layout_ok index [flag_out; tmp_hi; tmp_lo] work = true ->
  enough_work (length index) work = true ->
  all_zero s ([flag_out; tmp_hi; tmp_lo] ++ work) = true ->
  exists s',
    simulate_emitted
      (mark_range_lo_hi index flag_out tmp_hi tmp_lo lo hi work) s = Some s'
    /\ s' tmp_hi = (reg_value index s <? hi)%Z
    /\ s' tmp_lo = (reg_value index s <? lo)%Z
    /\ all_zero s' work = true
    /\ (forall q, q <> flag_out -> q <> tmp_hi -> q <> tmp_lo -> s' q = s q).
Proof.
  intros Hlay Hw Hz.
  destruct (all_zero_flags _ _ _ _ _ Hz) as [Hfo [Hth [Htl Hzw]]].
  destruct (range_flags_distinct index flag_out tmp_hi tmp_lo work Hlay)
    as [Hd1 [Hd2 Hd3]].
  exists (exec (range_gates index flag_out tmp_hi tmp_lo lo hi work) s).
  repeat split.
  - apply simulate_emitted_exec;
      [now apply range_emits|apply range_gates_classical].
  - rewrite range_exec by assumption.
    rewrite (proj2 (Nat.eqb_neq tmp_hi flag_out)) by auto.
    now rewrite Nat.eqb_refl, Hth.
  - rewrite range_exec by assumption.
    rewrite (proj2 (Nat.eqb_neq tmp_lo flag_out)),
      (proj2 (Nat.eqb_neq tmp_lo tmp_hi)) by auto.
    now rewrite Nat.eqb_refl, Htl.
  - now apply range_keeps_zero.
  - intros q H1 H2 H3. rewrite range_exec by assumption.
    now rewrite (proj2 (Nat.eqb_neq q flag_out)),
      (proj2 (Nat.eqb_neq q tmp_hi)), (proj2 (Nat.eqb_neq q tmp_lo)).
Qed.

Lemma mark_range_leaves_temporaries_witness :
  layout_ok [0; 1; 2] [3; 4; 5] [6] = true
  /\ enough_work (length [0; 1; 2]) [6] = true
  /\ all_zero (state_of [(0, true)]) ([3; 4; 5] ++ [6]) = true
  /\ exists s',
       simulate_emitted (mark_range_lo_hi [0; 1; 2] 3 4 5 2 6 [6])
         (state_of [(0, true)]) = Some s'
       /\ s' 4 = Z.ltb (reg_value [0; 1; 2] (state_of [(0, true)])) 6
       /\ s' 5 = Z.ltb (reg_value [0; 1; 2] (state_of [(0, true)])) 2
       /\ all_zero s' [6] = true
       /\ (forall q, q <> 3 -> q <> 4 -> q <> 5 ->
             s' q = state_of [(0, true)] q).
Proof.
  repeat (split; [reflexivity|]).
  apply (mark_range_leaves_temporaries [0; 1; 2] 3 4 5 [6] 2 6
           (state_of [(0, true)])); reflexivity.
Defined.

Section RangeInverse.

Variables (index : list nat) (fo th tl : nat) (work : list nat) (lo hi : Z).
Hypothesis Hlay : layout_ok index [fo; th; tl] work = true.
Hypothesis Hw : enough_work (length index) work = true.

Lemma uncompute_keeps_others s q :
  all_zero s work = true -> q <> fo -> q <> th -> q <> tl ->
  exec (uncompute_gates index fo th tl lo hi work) s q = s q.
Proof.
  intros Hz H1 H2 H3. rewrite uncompute_exec by assumption.
  now rewrite (proj2 (Nat.eqb_neq q fo)), (proj2 (Nat.eqb_neq q th)),
    (proj2 (Nat.eqb_neq q tl)).
Qed.

Lemma flags_not_work w :
  In w work -> w <> fo /\ w <> th /\ w <> tl.
Proof.
  intros Hin. repeat split.
  - apply (layout_flag_not_work index fo work); auto.
    apply (range_layout_out index fo th tl work Hlay).
  - apply (layout_flag_not_work index th work); auto.
    apply (range_layout_hi index fo th tl work Hlay).
  - apply (layout_flag_not_work index tl work); auto.
    apply (range_layout_lo index fo th tl work Hlay).
Qed.

Lemma flags_not_index q :
  In q index -> q <> fo /\ q <> th /\ q <> tl.
Proof.
  intros Hin. repeat split.
  - apply (layout_flag_not_index index fo work); auto.
    apply (range_layout_out index fo th tl work Hlay).
  - apply (layout_flag_not_index index th work); auto.
    apply (range_layout_hi index fo th tl work Hlay).
  - apply (layout_flag_not_index index tl work); auto.
    apply (range_layout_lo index fo th tl work Hlay).
Qed.

Lemma uncompute_then_range s q :
  all_zero s work = true ->
  exec (uncompute_gates index fo th tl lo hi work
        ++ range_gates index fo th tl lo hi work) s q = s q.
Proof.
  intros Hz. rewrite exec_app.
  destruct (range_flags_distinct index fo th tl work Hlay) as [Hd1 [Hd2 Hd3]].
  set (U := uncompute_gates index fo th tl lo hi work).
  assert (Hz1 : all_zero (exec U s) work = true).
  { apply (all_zero_ext s); auto. intros w Hin.
    destruct (flags_not_work w Hin) as [H1 [H2 H3]].
    now apply uncompute_keeps_others. }
  assert (Hx : reg_value index (exec U s) = reg_value index s).
  { apply reg_value_ext. intros q' Hin.
    destruct (flags_not_index q' Hin) as [H1 [H2 H3]].
    now apply uncompute_keeps_others. }
  rewrite range_exec by assumption. rewrite Hx. unfold U.
  rewrite !uncompute_exec by assumption.
  rewrite !Nat.eqb_refl.
  rewrite (proj2 (Nat.eqb_neq th fo)), (proj2 (Nat.eqb_neq tl fo)),
    (proj2 (Nat.eqb_neq tl th)) by auto.
  destruct (q =? fo) eqn:E1.
  { apply Nat.eqb_eq in E1. subst q.
    destruct (s fo), (s th), (s tl), (reg_value index s <? hi)%Z,
      (reg_value index s <? lo)%Z; reflexivity. }
  destruct (q =? th) eqn:E2.
  { apply Nat.eqb_eq in E2. subst q.
    destruct (s th), (reg_value index s <? hi)%Z; reflexivity. }
  destruct (q =? tl) eqn:E3; auto.
  apply Nat.eqb_eq in E3. subst q.
  destruct (s tl), (reg_value index s <? lo)%Z; reflexivity.
Qed.

End RangeInverse.

(** X5. On a register layout with the work qubits at 0,
    [uncompute_range_lo_hi] is the inverse of [mark_range_lo_hi] on both
    sides and for every value of the three flag qubits: marking then
    uncomputing, and uncomputing then marking, both return every qubit to its
    initial value. *)
Theorem uncompute_range_is_inverse
  index flag_out tmp_hi tmp_lo work lo hi s :
  layout_ok index [flag_out; tmp_hi; tmp_lo] work = true ->
  enough_work (length index) work = true ->
  all_zero s work = true ->
  (exists s',
     simulate_emitted
       (mark_range_lo_hi index flag_out tmp_hi tmp_lo lo hi work ;;
        uncompute_range_lo_hi index flag_out tmp_hi tmp_lo lo hi work) s
     = Some s'
     /\ forall q, s' q = s q)
  /\ (exists s',
        simulate_emitted
          (uncompute_range_lo_hi index flag_out tmp_hi tmp_lo lo hi work ;;
           mark_range_lo_hi index flag_out tmp_hi tmp_lo lo hi work) s
        = Some s'
        /\ forall q, s' q = s q).
Proof.
  intros Hlay Hw Hz. split.
  - eexists. split.
    + apply simulate_emitted_exec.
      * apply emits_bind; [now apply range_emits|now apply uncompute_emits].
      * now rewrite forallb_app, range_gates_classical,
          uncompute_gates_classical.
    + intros q. now apply range_round_trip.
  - eexists. split.
    + apply simulate_emitted_exec.
      * apply emits_bind; [now apply uncompute_emits|now apply range_emits].
      * now rewrite forallb_app, range_gates_classical,
          uncompute_gates_classical.
    + intros q. now apply uncompute_then_range.
Qed.

Lemma uncompute_range_is_inverse_witness :
  layout_ok [0; 1; 2] [3; 4; 5] [6] = true
  /\ enough_work (length [0; 1; 2]) [6] = true
  /\ all_zero (state_of [(1, true); (3, true); (5, true)]) [6] = true
  /\ exists s',
       simulate_emitted
         (uncompute_range_lo_hi [0; 1; 2] 3 4 5 2 6 [6] ;;
          mark_range_lo_hi [0; 1; 2] 3 4 5 2 6 [6])
         (state_of [(1, true); (3, true); (5, true)]) = Some s'
       /\ forall q, s' q = state_of [(1, true); (3, true); (5, true)] q.
Proof.
  repeat (split; [reflexivity|]).
  apply (uncompute_range_is_inverse [0; 1; 2] 3 4 5 [6] 2 6
           (state_of [(1, true); (3, true); (5, true)])); reflexivity.
Defined.

(** ** Bounds outside the domain, and too few work qubits *)

(** X6. Clamping a bound into [0, 2^n] before calling
    [mark_less_than_constant_disjoint_terms], as the kernels do, changes
    nothing: the call behaves exactly as with the unclamped bound. *)
Theorem mark_less_than_clamp index flag C work lines :
  mark_less_than_constant_disjoint_terms index flag
    (clamp (Z.shiftl 1 (Z.of_nat (length index))) C) work lines
  = mark_less_than_constant_disjoint_terms index flag C work lines.
Proof.
  unfold mark_less_than_constant_disjoint_terms, clamp.
  rewrite Z.shiftl_1_l. set (dom := (2 ^ Z.of_nat (length index))%Z).
  assert (Hdom : (0 < dom)%Z) by (apply Z.pow_pos_nonneg; lia).
  destruct (Z.leb_spec C 0) as [H0|H0].
  - replace (Z.max 0 (Z.min dom C)) with 0%Z by lia. reflexivity.
  - destruct (Z.geb_spec C dom) as [H1|H1].
    + replace (Z.max 0 (Z.min dom C)) with dom by lia.
      destruct (Z.leb_spec dom 0); [lia|].
      destruct (Z.geb_spec dom dom); [reflexivity|lia].
    + replace (Z.max 0 (Z.min dom C)) with C by lia.
      destruct (Z.leb_spec C 0); [lia|].
      destruct (Z.geb_spec C dom); [lia|reflexivity].
Qed.

Lemma mark_less_than_loop index flag C work :
  mark_less_than_constant_disjoint_terms index flag C work
  = if (C <=? 0)%Z then ret tt
    else if (C >=? Z.shiftl 1 (Z.of_nat (length index)))%Z
         then append (Gx flag)
         else for_ (range_rev 0 (length index))
                (term_emitter index flag C work).
Proof. reflexivity. Qed.

Lemma term_emitter_emits index flag C work i :
  i < length index ->
  term_lacks_work index C work i = false ->
  emits (term_emitter index flag C work i) (term_gates index flag C work i).
Proof.
  intros Hi Hl lines. unfold term_emitter. cbv zeta.
  rewrite (bind_getitem _ i 0%Z) by now rewrite bits_of_length.
  rewrite bits_of_nth, bit_is_one by assumption. unfold term_gates.
  unfold term_lacks_work in Hl.
  destruct (Z.testbit C (Z.of_nat i)); cbn [negb andb] in *.
  - rewrite (bind_ok _ _ _ _ _ (higher_controls_ok index C _ i lines eq_refl)).
    rewrite (bind_getitem index i 0) by assumption. cbn [fst snd].
    fold (term_controls index (length index) i).
    fold (term_zero_controls index C (length index) i).
    revert lines. apply emits_bind; [apply inv_emits|].
    apply emits_bind; [|apply inv_emits].
    apply mcx_ladder_emits. rewrite term_controls_length by assumption.
    now apply negb_false_iff.
  - apply emits_ret.
Qed.

Lemma term_emitter_raises index flag C work i lines :
  i < length index ->
  term_lacks_work index C work i = true ->
  term_emitter index flag C work i lines
  = (Raise (mcx_error (length index - i - 2) (length index - i) (length work)),
     lines ++ map Gx (term_zero_controls index C (length index) i)).
Proof.
  intros Hi Hl. unfold term_emitter. cbv zeta.
  rewrite (bind_getitem _ i 0%Z) by now rewrite bits_of_length.
  rewrite bits_of_nth, bit_is_one by assumption.
  unfold term_lacks_work in Hl. apply andb_true_iff in Hl.
  destruct Hl as [Hb Hl]. apply negb_true_iff in Hl. rewrite Hb. cbn [negb].
  rewrite (bind_ok _ _ _ _ _ (higher_controls_ok index C _ i lines eq_refl)).
  rewrite (bind_getitem index i 0) by assumption. cbn [fst snd].
  fold (term_controls index (length index) i).
  fold (term_zero_controls index C (length index) i).
  rewrite (bind_ok _ _ _ _ _ (inv_emits _ lines)).
  apply bind_raise. rewrite mcx_ladder_raises
    by now rewrite term_controls_length.
  now rewrite term_controls_length.
Qed.

Lemma for_first_raise {A} (body : A -> Emit unit) (g : A -> list line)
  e extra a l2 : forall l1 lines,
  (forall x, In x l1 -> emits (body x) (g x)) ->
  (forall lines', body a lines' = (Raise e, lines' ++ extra)) ->
  for_ (l1 ++ a :: l2) body lines
  = (Raise e, lines ++ flat_map g l1 ++ extra).
Proof.
  induction l1 as [|x l1 IH]; intros lines He Ha.
  - simpl. now rewrite (bind_raise _ _ _ _ _ (Ha lines)).
  - cbn [app for_ flat_map].
    rewrite (bind_ok _ _ _ _ _ (He x (or_introl eq_refl) lines)).
    rewrite IH by (auto; intros; apply He; now right).
    now rewrite <- !app_assoc.
Qed.

Lemma first_true {A} (P : A -> bool) : forall l,
  existsb P l = true ->
  exists l1 a l2,
    l = l1 ++ a :: l2 /\ P a = true /\ (forall x, In x l1 -> P x = false).
Proof.
  induction l as [|x l IH]; simpl; intros H; [discriminate|].
  destruct (P x) eqn:Px.
  - exists [], x, l. repeat split; auto. intros y [].
  - destruct (IH H) as [l1 [a [l2 [-> [Pa Hl1]]]]].
    exists (x :: l1), a, l2. repeat split; auto.
    intros y [<-|Hy]; auto.
Qed.

(** X7. [mark_less_than_constant_disjoint_terms] raises exactly when the
    bound is strictly inside [(0, 2^n)] and has a 1 at some bit [i] whose
    [n - i] controls need more work qubits than were passed; the exception is
    then the [ValueError] of the ladder guard, never an [IndexError], and --
    unlike the ladder itself -- it leaves the buffer longer than it found
    it: statements have already been appended. *)
Theorem mark_less_than_failure index flag C work lines :
  ((exists e,
       fst (mark_less_than_constant_disjoint_terms index flag C work lines)
       = Raise e)
   <-> (0 < C < 2 ^ Z.of_nat (length index))%Z
       /\ exists i, i < length index
                    /\ term_lacks_work index C work i = true)
  /\ (forall e,
        fst (mark_less_than_constant_disjoint_terms index flag C work lines)
        = Raise e ->
        (exists i, i < length index
                   /\ e = mcx_error (length index - i - 2) (length index - i)
                            (length work))
        /\ length lines
           < length (snd (mark_less_than_constant_disjoint_terms index flag C
                            work lines))).
Proof.
  rewrite mark_less_than_loop, Z.shiftl_1_l.
  destruct (Z.leb_spec C 0) as [H0|H0].
  { cbn [ret fst]. split; [split|]; try (intros [e He]; discriminate);
      try (intros [HC _]; lia). intros e He. discriminate. }
  destruct (Z.geb_spec C (2 ^ Z.of_nat (length index))) as [H1|H1].
  { cbn [append fst]. split; [split|]; try (intros [e He]; discriminate);
      try (intros [HC _]; lia). intros e He. discriminate. }
  destruct (existsb (term_lacks_work index C work)
              (range_rev 0 (length index))) eqn:Ex.
  - destruct (first_true _ _ Ex) as [l1 [a [l2 [El [Pa Hl1]]]]].
    assert (Ha : a < length index).
    { apply (in_range_rev 0). rewrite El. apply in_or_app. right. now left. }
    rewrite El.
    rewrite (for_first_raise (term_emitter index flag C work)
               (term_gates index flag C work)
               (mcx_error (length index - a - 2) (length index - a)
                  (length work))
               (map Gx (term_zero_controls index C (length index) a))).
    + cbn [fst snd]. split; [split|].
      * intros _. split; [lia|]. now exists a.
      * intros _. eexists. reflexivity.
      * intros e He. injection He as <-. split; [now exists a|].
        unfold term_zero_controls.
        rewrite !length_app, !length_map, length_app. simpl. lia.
    + intros x Hx. apply term_emitter_emits; [|now apply Hl1].
      apply (in_range_rev 0). rewrite El. apply in_or_app. now left.
    + intros lines'. now apply term_emitter_raises.
  - assert (Hem : emits (for_ (range_rev 0 (length index))
                           (term_emitter index flag C work))
                    (flat_map (term_gates index flag C work)
                       (range_rev 0 (length index)))).
    { apply emits_for. intros i Hi. apply term_emitter_emits.
      - now apply in_range_rev in Hi.
      - destruct (term_lacks_work index C work i) eqn:E; auto.
        assert (existsb (term_lacks_work index C work)
                  (range_rev 0 (length index)) = true); [|congruence].
        apply existsb_exists. now exists i. }
    rewrite (Hem lines). cbn [fst]. split; [split|].
    + intros [e He]. discriminate.
    + intros [_ [i [Hi Pi]]].
      assert (existsb (term_lacks_work index C work)
                (range_rev 0 (length index)) = true); [|congruence].
      apply existsb_exists. exists i. split; auto. apply in_range_rev. lia.
    + intros e He. discriminate.
Qed.

(** ** The diffusion operator: when it fails and how much it appends *)

Lemma mcx_gates_count cs t ws :
  length (mcx_gates cs t ws)
  = if length cs <=? 2 then 1 else 2 * (length cs - 2) + 1.
Proof.
  destruct (Nat.leb_spec (length cs) 2) as [Hk|Hk].
  - destruct cs as [|c0 [|c1 [|c2 cs]]]; simpl in Hk; try lia; reflexivity.
  - apply mcx_gates_length. lia.
Qed.

(** X8. [diffusion_about_uniform] on an empty index register raises
    [IndexError] and appends nothing.  On [n >= 1] index qubits it raises, with
    the [ValueError] of the ladder guard, exactly when the [n - 1] controls
    need more work qubits than were passed, and it has then already appended
    [2 n + 1] statements; otherwise it succeeds and appends 5 statements for
    [n = 1], [4 n + 3] for [n = 2, 3] and [6 n - 3] for [n >= 4]. *)
Theorem diffusion_outcome index work lines :
  diffusion_about_uniform index work lines
  = (if length index =? 0 then (Raise IndexError, lines)
     else if enough_work (length index - 1) work
          then (Ok tt, lines ++ diffusion_gates index work)
          else (Raise (mcx_error (length index - 1 - 2) (length index - 1)
                         (length work)),
                lines ++ map Gh index ++ map Gx index
                ++ [Gh (nth 0 index 0)]))
  /\ length (map Gh index ++ map Gx index ++ [Gh (nth 0 index 0)])
     = 2 * length index + 1
  /\ length (diffusion_gates index work)
     = (if length index =? 1 then 5
        else if length index <=? 3 then 4 * length index + 3
             else 6 * length index - 3).
Proof.
  split; [|split].
  - destruct index as [|i0 index].
    + reflexivity.
    + cbn [length Nat.eqb].
      destruct (enough_work (S (length index) - 1) work) eqn:E.
      * apply diffusion_emits; [simpl; lia|assumption].
      * unfold diffusion_about_uniform.
        rewrite (bind_ok _ _ _ _ _
                   (for_append_emits Gh (i0 :: index) lines)).
        rewrite (bind_ok _ _ _ _ _
                   (for_append_emits Gx (i0 :: index) _)).
        apply bind_raise.
        destruct (length (i0 :: index) =? 1) eqn:E1.
        { apply Nat.eqb_eq in E1. simpl in E1.
          assert (length index = 0) by lia.
          destruct index; [discriminate E|discriminate]. }
        rewrite (bind_getitem (i0 :: index) 0 0) by (simpl; lia).
        rewrite (bind_ok _ _ _ _ _ (emits_append _ _)).
        apply bind_raise. cbn [tl nth].
        simpl in E. rewrite Nat.sub_0_r in E.
        rewrite mcx_ladder_raises by assumption.
        simpl. rewrite Nat.sub_0_r. now rewrite <- !app_assoc.
  - rewrite !length_app, !length_map. simpl. lia.
  - unfold diffusion_gates. rewrite !length_app, !length_map.
    destruct index as [|i0 [|i1 index]]; [reflexivity|reflexivity|].
    cbn [length Nat.eqb]. rewrite !length_app, mcx_gates_count.
    cbn [tl length].
    destruct (Nat.leb_spec (S (length index)) 2);
      destruct (Nat.leb_spec (S (S (length index))) 3); simpl; lia.
Qed.

(** ** Programs stay inside the declared register *)

Lemma uses_only_app allowed a b :
  uses_only allowed a -> uses_only allowed b -> uses_only allowed (a ++ b).
Proof. intros Ha Hb. apply Forall_app. now split. Qed.

Lemma uses_only_incl allowed allowed' gs :
  incl allowed allowed' -> uses_only allowed gs -> uses_only allowed' gs.
Proof.
  intros Hi. apply Forall_impl. intros g Hg q Hq. apply Hi, Hg, Hq.
Qed.

Lemma uses_only_map (f : nat -> line) allowed qs :
  (forall q, In q qs -> incl (qubits_of (f q)) allowed) ->
  uses_only allowed (map f qs).
Proof.
  intros H. apply Forall_forall. intros g Hg. apply in_map_iff in Hg.
  destruct Hg as [q [<- Hq]]. now apply H.
Qed.

Lemma incl_three (a b c : nat) allowed :
  In a allowed -> In b allowed -> In c allowed -> incl [a; b; c] allowed.
Proof. intros Ha Hb Hc q [<-|[<-|[<-|[]]]]; assumption. Qed.

Lemma incl_one (a : nat) allowed : In a allowed -> incl [a] allowed.
Proof. intros Ha q [<-|[]]; assumption. Qed.

Lemma mcx_uses_only cs t ws :
  enough_work (length cs) ws = true ->
  uses_only (cs ++ t :: ws) (mcx_gates cs t ws).
Proof.
  intros Hw.
  assert (Ht : In t (cs ++ t :: ws)) by (apply in_or_app; right; now left).
  assert (Hc : forall i, i < length cs -> In (nth i cs 0) (cs ++ t :: ws))
    by (intros; apply in_or_app; left; now apply nth_In).
  assert (Hwk : forall j, j < length ws -> In (nth j ws 0) (cs ++ t :: ws))
    by (intros; apply in_or_app; right; right; now apply nth_In).
  destruct (Nat.le_gt_cases (length cs) 2) as [Hk|Hk].
  - destruct cs as [|c0 [|c1 [|c2 cs]]]; simpl in Hk; try lia;
      (apply Forall_cons; [|apply Forall_nil]);
      intros q Hq; simpl in Hq; simpl; intuition.
  - unfold enough_work in Hw. apply orb_true_iff in Hw.
    destruct Hw as [Hw|Hw]; apply Nat.leb_le in Hw; [lia|].
    rewrite mcx_gates_ge3 by lia.
    assert (HC : uses_only (cs ++ t :: ws) (ladder_compute cs ws)).
    { unfold ladder_compute. constructor.
      - apply incl_three; [apply Hc|apply Hc|apply Hwk]; lia.
      - apply Forall_forall. intros g Hg. apply in_map_iff in Hg.
        destruct Hg as [i [<- Hi]]. apply in_range_ in Hi.
        apply incl_three; [apply Hc|apply Hwk|apply Hwk]; lia. }
    apply uses_only_app; [assumption|].
    apply uses_only_app; [|now apply Forall_rev].
    constructor; [|constructor].
    apply incl_three; [apply Hc|apply Hwk|assumption]; lia.
Qed.

Lemma lt_uses_only index flag C work :
  enough_work (length index) work = true ->
  uses_only (index ++ flag :: work) (lt_gates index flag C work).
Proof.
  intros Hw. unfold lt_gates.
  assert (Hf : In flag (index ++ flag :: work))
    by (apply in_or_app; right; now left).
  destruct (C <=? 0)%Z; [constructor|].
  destruct (C >=? 2 ^ Z.of_nat (length index))%Z.
  { constructor; [now apply incl_one|constructor]. }
  apply Forall_flat_map, Forall_forall. intros i Hi.
  apply in_range_rev in Hi. unfold term_gates.
  destruct (Z.testbit C (Z.of_nat i)); [|constructor].
  assert (Hz : uses_only (index ++ flag :: work)
                 (map Gx (term_zero_controls index C (length index) i))).
  { apply uses_only_map. intros q Hq. apply incl_one, in_or_app. left.
    apply (term_zero_controls_incl index C i q); [lia|assumption]. }
  apply uses_only_app; [assumption|]. apply uses_only_app; [|assumption].
  apply (uses_only_incl (term_controls index (length index) i ++ flag :: work)).
  - intros q Hq. apply in_app_or in Hq. apply in_or_app.
    destruct Hq as [Hq|Hq]; [left|now right].
    apply (term_controls_incl index i q); [lia|assumption].
  - apply mcx_uses_only. rewrite term_controls_length by lia.
    apply (enough_work_le (length index)); [lia|assumption].
Qed.

Section Footprint.

Variables (index : list nat) (fo th tl : nat) (work : list nat).
Hypothesis Hw : enough_work (length index) work = true.

Let allowed := index ++ [fo; th; tl] ++ work.

Lemma allowed_index q : In q index -> In q allowed.
Proof. intros H. apply in_or_app. now left. Qed.

Lemma allowed_work q : In q work -> In q allowed.
Proof. intros H. apply in_or_app. right. apply in_or_app. now right. Qed.

Lemma allowed_flags : In fo allowed /\ In th allowed /\ In tl allowed.
Proof.
  repeat split; apply in_or_app; right; simpl; auto.
Qed.

Lemma lt_uses_allowed flag C :
  In flag allowed -> uses_only allowed (lt_gates index flag C work).
Proof.
  intros Hf. apply (uses_only_incl (index ++ flag :: work)).
  - intros q Hq. apply in_app_or in Hq.
    destruct Hq as [Hq|[<-|Hq]];
      [now apply allowed_index|assumption|now apply allowed_work].
  - now apply lt_uses_only.
Qed.

Lemma and_not_uses_allowed : uses_only allowed (and_not_gates fo th tl).
Proof.
  destruct allowed_flags as [H1 [H2 H3]]. unfold and_not_gates.
  repeat (apply Forall_cons || apply Forall_nil); simpl qubits_of;
    auto using incl_one, incl_three.
Qed.

Lemma range_uses_allowed lo hi :
  uses_only allowed (range_gates index fo th tl lo hi work).
Proof.
  destruct allowed_flags as [H1 [H2 H3]]. unfold range_gates.
  auto using uses_only_app, lt_uses_allowed, and_not_uses_allowed.
Qed.

Lemma uncompute_uses_allowed lo hi :
  uses_only allowed (uncompute_gates index fo th tl lo hi work).
Proof.
  destruct allowed_flags as [H1 [H2 H3]]. unfold uncompute_gates.
  auto using uses_only_app, lt_uses_allowed, and_not_uses_allowed.
Qed.

Lemma oracle_uses_allowed p lo hi :
  uses_only allowed (oracle_gates index fo th tl p lo hi work).
Proof.
  destruct allowed_flags as [H1 [H2 H3]]. unfold oracle_gates.
  assert (Hz : uses_only allowed [Gz fo])
    by (apply Forall_cons; [now apply incl_one|apply Forall_nil]).
  destruct (p =? "qid_lt")%string;
    auto 6 using uses_only_app, lt_uses_allowed, range_uses_allowed,
      uncompute_uses_allowed.
Qed.

Lemma final_uses_allowed p lo hi :
  uses_only allowed (final_gates index fo th tl p lo hi work).
Proof.
  destruct allowed_flags as [H1 [H2 H3]]. unfold final_gates.
  assert (Hm : uses_only allowed [Gmeasure fo])
    by (apply Forall_cons; [now apply incl_one|apply Forall_nil]).
  destruct (p =? "qid_lt")%string;
    auto using uses_only_app, lt_uses_allowed, range_uses_allowed.
Qed.

Lemma diffusion_uses_allowed :
  1 <= length index ->
  uses_only allowed (diffusion_gates index work).
Proof.
  intros Hn. unfold diffusion_gates.
  assert (H0 : In (nth 0 index 0) allowed)
    by (apply allowed_index, nth_In; lia).
  assert (Hh : uses_only allowed (map Gh index))
    by (apply uses_only_map; intros; now apply incl_one, allowed_index).
  assert (Hx : uses_only allowed (map Gx index))
    by (apply uses_only_map; intros; now apply incl_one, allowed_index).
  assert (H1 : forall f : nat -> line,
             qubits_of (f (nth 0 index 0)) = [nth 0 index 0] ->
             uses_only allowed [f (nth 0 index 0)]).
  { intros f Hf. apply Forall_cons; [|apply Forall_nil].
    rewrite Hf. now apply incl_one. }
  repeat apply uses_only_app; auto.
  destruct (length index =? 1); [now apply (H1 Gz)|].
  repeat apply uses_only_app; try now apply (H1 Gh).
  apply (uses_only_incl (List.tl index ++ nth 0 index 0 :: work)).
  - intros q Hq. apply in_app_or in Hq.
    destruct Hq as [Hq|[<-|Hq]];
      [|assumption|now apply allowed_work].
    apply allowed_index. destruct index; [contradiction|now right].
  - apply mcx_uses_only. apply (enough_work_le (length index)); auto.
    destruct index; simpl; lia.
Qed.

End Footprint.

Lemma uses_only_within allowed total gs :
  (forall q, In q allowed -> q < total) ->
  uses_only allowed gs -> forallb (within total) gs = true.
Proof.
  intros Hlt Hu. apply forallb_forall. intros g Hg.
  unfold uses_only in Hu. rewrite Forall_forall in Hu.
  unfold within. apply forallb_forall. intros q Hq.
  apply Nat.ltb_lt, Hlt. now apply (Hu g Hg).
Qed.

Lemma program_body_within n reps p lo hi f :
  1 <= n -> 1 <= f ->
  forallb (within (n + f + work_count n)) (program_body n reps p lo hi f)
  = true.
Proof.
  intros Hn Hf. unfold program_body.
  set (index := range_ 0 n).
  set (work := range_ (n + f) (n + f + work_count n)).
  set (th := if 2 <=? f then n + 1 else n).
  set (tl := if 3 <=? f then n + 2 else n).
  assert (Hlen : length index = n) by (unfold index; rewrite range_length; lia).
  assert (Hw : enough_work (length index) work = true)
    by (rewrite Hlen; apply builder_work_enough; lia).
  apply (uses_only_within (index ++ [n; th; tl] ++ work)).
  - intros q Hq. apply in_app_or in Hq. destruct Hq as [Hq|Hq].
    { apply in_range_ in Hq. lia. }
    apply in_app_or in Hq. destruct Hq as [Hq|Hq].
    + unfold th, tl in Hq.
      destruct (Nat.leb_spec 2 f), (Nat.leb_spec 3 f);
        simpl in Hq; lia.
    + apply in_range_ in Hq. lia.
  - apply uses_only_app.
    { apply uses_only_map. intros q Hq. apply incl_one, in_or_app. now left. }
    apply uses_only_app; [|now apply final_uses_allowed].
    apply Forall_flat_map, Forall_forall. intros _ _.
    apply uses_only_app;
      [now apply oracle_uses_allowed|apply diffusion_uses_allowed; auto; lia].
Qed.

(** X9. For [n_index >= 1], [flags_count >= 1] and a tag of printable
    characters, the text either builder returns is the header, the register
    declaration of [n_index + flags_count + max(0, n_index - 2)] qubits, the
    classical register, the comment, and then gate and measurement statements
    every one of which addresses only qubits below the declared size. *)
Theorem builders_stay_in_register header n_index count pred_type lo hi
  flags_count :
  1 <= n_index -> 1 <= flags_count -> printable pred_type = true ->
  builder_output
    (build_qasm2_grover_qfilter header n_index count pred_type lo hi
       flags_count)
    header (qreg_decl "q" (n_index + flags_count + work_count n_index))
    (grover_comment n_index count pred_type lo hi)
    (fun body =>
       forallb (within (n_index + flags_count + work_count n_index)) body
       = true)
  /\ builder_output
       (build_qasm2_mlae_schedule_element header n_index count pred_type lo hi
          flags_count)
       header (qreg_decl "q" (n_index + flags_count + work_count n_index))
       (mlae_comment n_index count pred_type lo hi)
       (fun body =>
          forallb (within (n_index + flags_count + work_count n_index)) body
          = true).
Proof.
  intros Hn Hf Hp.
  split; [apply grover_output|apply mlae_output]; auto;
    now apply program_body_within.
Qed.

Lemma builders_stay_in_register_witness :
  1 <= 4 /\ 1 <= 3 /\ printable "qid_range" = true
  /\ builder_output
       (build_qasm2_grover_qfilter "OPENQASM 2.0;" 4 2 "qid_range" 3 11 3)
       "OPENQASM 2.0;" (qreg_decl "q" (4 + 3 + work_count 4))
       (grover_comment 4 2 "qid_range" 3 11)
       (fun body => forallb (within (4 + 3 + work_count 4)) body = true).
Proof.
  split; [lia|]. split; [lia|]. split; [reflexivity|].
  apply (builders_stay_in_register "OPENQASM 2.0;" 4 2 "qid_range" 3 11 3);
    [lia|lia|reflexivity].
Defined.

(** ** One measurement, at the very end *)

Lemma forallb_classical_impl (p : line -> bool) gs :
  (forall g, classical g = true -> p g = true) ->
  forallb classical gs = true -> forallb p gs = true.
Proof. intros H. now apply forallb_impl. Qed.

Lemma unitary_part_forallb (p : line -> bool) index fo th tlo pt lo hi work :
  (forall g, classical g = true -> p g = true) ->
  (forall t, p (Gh t) = true) -> (forall t, p (Gz t) = true) ->
  forallb p (oracle_gates index fo th tlo pt lo hi work) = true
  /\ forallb p (diffusion_gates index work) = true.
Proof.
  intros Hc Hh Hz. split.
  - unfold oracle_gates. destruct (pt =? "qid_lt")%string;
      rewrite !forallb_app; cbn [forallb]; rewrite Hz;
      rewrite ?(forallb_classical_impl p _ Hc (lt_gates_classical _ _ _ _)),
        ?(forallb_classical_impl p _ Hc
            (range_gates_classical _ _ _ _ _ _ _)),
        ?(forallb_classical_impl p _ Hc
            (uncompute_gates_classical _ _ _ _ _ _ _)); reflexivity.
  - unfold diffusion_gates. rewrite !forallb_app.
    rewrite !forallb_map_const by (auto; intros; apply Hc; reflexivity).
    cbn [andb]. rewrite andb_true_r.
    destruct (length index =? 1); cbn [forallb]; [now rewrite Hz|].
    rewrite !forallb_app. cbn [forallb]. rewrite Hh.
    now rewrite (forallb_classical_impl p _ Hc (mcx_gates_classical _ _ _)).
Qed.

Lemma program_body_ends_with_measure n reps p lo hi f :
  exists init,
    program_body n reps p lo hi f = init ++ [Gmeasure n]
    /\ forallb (fun l => negb (is_measure l)) init = true.
Proof.
  unfold program_body, final_gates.
  set (index := range_ 0 n).
  set (work := range_ (n + f) (n + f + work_count n)).
  set (th := if 2 <=? f then n + 1 else n).
  set (tlo := if 3 <=? f then n + 2 else n).
  set (nm := fun l => negb (is_measure l)).
  assert (Hc : forall g, classical g = true -> nm g = true)
    by (intros g; now destruct g).
  eexists. split.
  - rewrite !app_assoc. reflexivity.
  - rewrite !forallb_app.
    rewrite forallb_map_const by reflexivity. cbn [andb].
    apply andb_true_iff. split.
    + apply flat_map_forallb. intros _ _. rewrite forallb_app.
      destruct (unitary_part_forallb nm index n th tlo p lo hi work Hc)
        as [H1 H2]; try reflexivity.
      now rewrite H1, H2.
    + destruct (p =? "qid_lt")%string.
      * apply (forallb_classical_impl nm _ Hc), lt_gates_classical.
      * apply (forallb_classical_impl nm _ Hc), range_gates_classical.
Qed.

(** X10. For [n_index >= 1], [flags_count >= 1] and a tag of printable
    characters, the statements of the text either builder returns end with
    the measurement of the oracle flag, qubit [n_index], and no statement
    before it is a measurement. *)
Theorem builders_measure_once header n_index count pred_type lo hi
  flags_count :
  1 <= n_index -> 1 <= flags_count -> printable pred_type = true ->
  builder_output
    (build_qasm2_grover_qfilter header n_index count pred_type lo hi
       flags_count)
    header (qreg_decl "q" (n_index + flags_count + work_count n_index))
    (grover_comment n_index count pred_type lo hi)
    (fun body =>
       exists init,
         body = init ++ [Gmeasure n_index]
         /\ forallb (fun l => negb (is_measure l)) init = true)
  /\ builder_output
       (build_qasm2_mlae_schedule_element header n_index count pred_type lo hi
          flags_count)
       header (qreg_decl "q" (n_index + flags_count + work_count n_index))
       (mlae_comment n_index count pred_type lo hi)
       (fun body =>
          exists init,
            body = init ++ [Gmeasure n_index]
            /\ forallb (fun l => negb (is_measure l)) init = true).
Proof.
  intros Hn Hf Hp.
  split; [apply grover_output|apply mlae_output]; auto;
    apply program_body_ends_with_measure.
Qed.

Lemma builders_measure_once_witness :
  1 <= 4 /\ 1 <= 3 /\ printable "qid_lt" = true
  /\ builder_output
       (build_qasm2_grover_qfilter "OPENQASM 2.0;" 4 2 "qid_lt" 0 11 3)
       "OPENQASM 2.0;" (qreg_decl "q" (4 + 3 + work_count 4))
       (grover_comment 4 2 "qid_lt" 0 11)
       (fun body =>
          exists init,
            body = init ++ [Gmeasure 4]
            /\ forallb (fun l => negb (is_measure l)) init = true).
Proof.
  split; [lia|]. split; [lia|]. split; [reflexivity|].
  apply (builders_measure_once "OPENQASM 2.0;" 4 2 "qid_lt" 0 11 3);
    [lia|lia|reflexivity].
Defined.

(** ** The builders' own register layout *)

Lemma builder_layout_ok n f :
  3 <= f ->
  layout_ok (range_ 0 n) [n; n + 1; n + 2]
    (range_ (n + f) (n + f + work_count n)) = true.
Proof.
  intros Hf. unfold layout_ok. apply distinct_NoDup.
  apply NoDup_app; [apply seq_NoDup| |].
  - apply NoDup_app; [|apply seq_NoDup|].
    + repeat constructor; simpl; lia.
    + intros q Hq Hw. apply in_range_ in Hw. simpl in Hq. lia.
  - intros q Hq Hin. apply in_range_ in Hq. apply in_app_or in Hin.
    destruct Hin as [Hin|Hin]; [simpl in Hin; lia|].
    apply in_range_ in Hin. lia.
Qed.

Lemma filter_measure_classical gs :
  forallb classical gs = true ->
  filter (fun g => negb (is_measure g)) gs = gs.
Proof.
  induction gs as [|g gs IH]; simpl; intros H; auto.
  apply andb_true_iff in H. destruct H as [Hg H].
  destruct g; try discriminate; simpl; now rewrite IH.
Qed.

(** X11. With the register layout the builders use for three flags (index
    qubits [0 .. n-1], flags [n], [n+1], [n+2], work qubits from [n+3] on), and
    for every tag and bounds: from a basis state whose flag and work qubits
    are 0, the statements of [final_compute_and_measure_flag] before the
    measurement leave in the measured qubit [n] exactly the truth value of
    the predicate on the index value, and leave the index bits as they
    were. *)
Theorem final_compute_marks_predicate n_index pred_type lo hi s :
  all_zero s ([n_index; n_index + 1; n_index + 2]
              ++ range_ (n_index + 3) (n_index + 3 + work_count n_index))
  = true ->
  exists s',
    simulate_emitted_without_measure
      (final_compute_and_measure_flag (range_ 0 n_index) n_index
         (n_index + 1) (n_index + 2) pred_type lo hi
         (range_ (n_index + 3) (n_index + 3 + work_count n_index))) s
    = Some s'
    /\ s' n_index
       = predicate_holds pred_type lo hi (reg_value (range_ 0 n_index) s)
    /\ (forall q, q < n_index -> s' q = s q).
Proof.
  intros Hz.
  set (index := range_ 0 n_index) in *.
  set (work := range_ (n_index + 3) (n_index + 3 + work_count n_index)) in *.
  destruct (all_zero_flags _ _ _ _ _ Hz) as [Hfo [Hth [Htl Hzw]]].
  assert (Hlay : layout_ok index [n_index; n_index + 1; n_index + 2] work
                 = true) by (apply builder_layout_ok; lia).
  assert (Hw : enough_work (length index) work = true).
  { unfold index. rewrite range_length, Nat.sub_0_r.
    apply builder_work_enough. lia. }
  assert (Hidx : forall q, q < n_index -> In q index)
    by (intros q Hq; apply in_range_; lia).
  unfold simulate_emitted_without_measure.
  rewrite (final_emits index n_index (n_index + 1) (n_index + 2) pred_type lo
             hi work Hw []).
  simpl app. unfold final_gates, predicate_holds.
  rewrite filter_app. cbn [filter is_measure negb]. rewrite app_nil_r.
  destruct (pred_type =? "qid_lt")%string.
  - pose proof (range_layout_out _ _ _ _ _ Hlay) as Lo.
    rewrite filter_measure_classical, simulate_exec
      by apply lt_gates_classical.
    eexists. split; [reflexivity|]. split.
    + rewrite lt_exec by assumption. now rewrite Nat.eqb_refl, Hfo.
    + intros q Hq. rewrite lt_exec by assumption.
      now rewrite (proj2 (Nat.eqb_neq q n_index)) by lia.
  - rewrite filter_measure_classical, simulate_exec
      by apply range_gates_classical.
    eexists. split; [reflexivity|]. split.
    + rewrite range_exec by assumption.
      rewrite Nat.eqb_refl, Hfo, Hth, Htl, !xorb_false_l.
      rewrite (Z.leb_antisym (reg_value index s) lo). apply andb_comm.
    + intros q Hq. apply range_keeps_index; auto.
Qed.

Lemma final_compute_marks_predicate_witness :
  all_zero (state_of [(0, true); (2, true)])
    ([3; 3 + 1; 3 + 2] ++ range_ (3 + 3) (3 + 3 + work_count 3)) = true
  /\ exists s',
       simulate_emitted_without_measure
         (final_compute_and_measure_flag (range_ 0 3) 3 (3 + 1) (3 + 2)
            "qid_range" 2 6 (range_ (3 + 3) (3 + 3 + work_count 3)))
         (state_of [(0, true); (2, true)]) = Some s'
       /\ s' 3
          = predicate_holds "qid_range" 2 6
              (reg_value (range_ 0 3) (state_of [(0, true); (2, true)]))
       /\ (forall q, q < 3 -> s' q = state_of [(0, true); (2, true)] q).
Proof.
  split; [reflexivity|].
  apply (final_compute_marks_predicate 3 "qid_range" 2 6
           (state_of [(0, true); (2, true)])); reflexivity.
Defined.

(** ** Operands of one statement *)

Lemma od_ccx a b c :
  a <> b -> a <> c -> b <> c -> operands_distinct (Gccx a b c) = true.
Proof.
  intros H1 H2 H3. unfold operands_distinct. cbn [qubits_of distinct mem existsb].
  now rewrite (proj2 (Nat.eqb_neq a b)), (proj2 (Nat.eqb_neq a c)),
    (proj2 (Nat.eqb_neq b c)).
Qed.

Lemma od_cx a b : a <> b -> operands_distinct (Gcx a b) = true.
Proof.
  intros H. unfold operands_distinct. cbn [qubits_of distinct mem existsb].
  now rewrite (proj2 (Nat.eqb_neq a b)).
Qed.

Lemma controls_NoDup cs t ws :
  distinct (cs ++ t :: used_work (length cs) ws) = true -> NoDup cs.
Proof.
  intros Hd. apply distinct_NoDup in Hd. now apply NoDup_app_parts in Hd.
Qed.

Lemma control_neq cs t ws i j :
  distinct (cs ++ t :: used_work (length cs) ws) = true ->
  i < length cs -> j < length cs -> i <> j -> nth i cs 0 <> nth j cs 0.
Proof.
  intros Hd Hi Hj Hij E. apply Hij.
  apply (nth_inj cs); auto. now apply (controls_NoDup cs t ws).
Qed.

Lemma mcx_operands cs t ws :
  enough_work (length cs) ws = true ->
  distinct (cs ++ t :: used_work (length cs) ws) = true ->
  forallb operands_distinct (mcx_gates cs t ws) = true.
Proof.
  intros Hw Hd.
  destruct (Nat.le_gt_cases (length cs) 2) as [Hk|Hk].
  - pose proof (target_not_control cs t ws Hd) as Ht.
    pose proof (control_neq cs t ws 0 1 Hd) as Hc.
    destruct cs as [|c0 [|c1 [|c2 cs]]]; simpl in Hk; try lia;
      cbn [mcx_gates forallb]; rewrite andb_true_r.
    + reflexivity.
    + apply od_cx. apply (Ht 0). simpl. lia.
    + apply od_ccx; [apply Hc; simpl; lia|apply (Ht 0)|apply (Ht 1)]; simpl; lia.
  - unfold enough_work in Hw. apply orb_true_iff in Hw.
    destruct Hw as [Hw|Hw]; apply Nat.leb_le in Hw; [lia|].
    rewrite mcx_gates_ge3 by lia.
    assert (HC : forallb operands_distinct (ladder_compute cs ws) = true).
    { apply forallb_forall. intros g Hg.
      destruct (ladder_compute_In cs ws g Hg) as [->|[i [Hi ->]]].
      - apply od_ccx; [apply (control_neq cs t ws)|
                       apply (control_not_work cs t ws)|
                       apply (control_not_work cs t ws)]; auto; lia.
      - apply od_ccx; [apply (control_not_work cs t ws)|
                       apply (control_not_work cs t ws)|
                       apply (work_neq cs t ws)]; auto; lia. }
    rewrite !forallb_app, forallb_rev_eq, HC. cbn [forallb andb].
    rewrite !andb_true_r. unfold ladder_last.
    apply od_ccx; [apply (control_not_work cs t ws)|
                   apply (target_not_control cs t ws)|
                   apply (target_not_work cs t ws)]; auto; lia.
Qed.

Lemma lt_operands index flag C work :
  layout_ok index [flag] work = true ->
  enough_work (length index) work = true ->
  forallb operands_distinct (lt_gates index flag C work) = true.
Proof.
  intros Hlay Hw. unfold lt_gates.
  destruct (C <=? 0)%Z; [reflexivity|].
  destruct (C >=? 2 ^ Z.of_nat (length index))%Z; [reflexivity|].
  apply flat_map_forallb. intros i Hi. apply in_range_rev in Hi.
  unfold term_gates. destruct (Z.testbit C (Z.of_nat i)); [|reflexivity].
  rewrite !forallb_app, !forallb_map_const by reflexivity. cbn [andb].
  rewrite andb_true_r. apply mcx_operands.
  - rewrite term_controls_length by lia.
    apply (enough_work_le (length index)); [lia|assumption].
  - apply term_distinct; [assumption|lia].
Qed.

Lemma diffusion_ladder_distinct index flags work :
  layout_ok index flags work = true -> 1 <= length index ->
  distinct (List.tl index
            ++ nth 0 index 0 :: used_work (length (List.tl index)) work)
  = true.
Proof.
  unfold layout_ok. rewrite !distinct_NoDup. intros H Hn.
  apply NoDup_app_parts in H. destruct H as [Hi [Hfw Hd1]].
  apply NoDup_app_parts in Hfw. destruct Hfw as [_ [Hwk _]].
  destruct index as [|i0 index]; [simpl in Hn; lia|].
  cbn [List.tl nth]. apply NoDup_cons_iff in Hi. destruct Hi as [Hi0 Hi].
  assert (Hdis : forall q, In q (i0 :: index) ->
                           In q (used_work (length index) work) -> False).
  { intros q Hq Hin. apply (Hd1 q Hq), in_or_app. right.
    now apply In_firstn in Hin. }
  apply NoDup_app; auto.
  - apply NoDup_cons_iff. split; [|now apply NoDup_firstn_nat].
    intros Hin. apply (Hdis i0); [now left|assumption].
  - intros q Hq [<-|Hin]; [contradiction|].
    apply (Hdis q); [now right|assumption].
Qed.

Lemma program_body_operands n reps p lo hi f :
  1 <= n -> 3 <= f ->
  forallb operands_distinct (program_body n reps p lo hi f) = true.
Proof.
  intros Hn Hf. unfold program_body.
  destruct (Nat.leb_spec 2 f); [|lia]. destruct (Nat.leb_spec 3 f); [|lia].
  set (index := range_ 0 n).
  set (work := range_ (n + f) (n + f + work_count n)).
  assert (Hlen : length index = n) by (unfold index; rewrite range_length; lia).
  assert (Hw : enough_work (length index) work = true)
    by (rewrite Hlen; apply builder_work_enough; lia).
  assert (Hlay : layout_ok index [n; n + 1; n + 2] work = true)
    by (now apply builder_layout_ok).
  pose proof (range_layout_out _ _ _ _ _ Hlay) as Lo.
  pose proof (range_layout_hi _ _ _ _ _ Hlay) as Lh.
  pose proof (range_layout_lo _ _ _ _ _ Hlay) as Ll.
  assert (Han : forallb operands_distinct
                  (and_not_gates n (n + 1) (n + 2)) = true).
  { unfold and_not_gates. cbn [forallb]. rewrite od_ccx by lia. reflexivity. }
  assert (Hr : forallb operands_distinct
                 (range_gates index n (n + 1) (n + 2) lo hi work) = true).
  { unfold range_gates. now rewrite !forallb_app, !lt_operands, Han. }
  assert (Hu : forallb operands_distinct
                 (uncompute_gates index n (n + 1) (n + 2) lo hi work) = true).
  { unfold uncompute_gates. now rewrite !forallb_app, !lt_operands, Han. }
  rewrite !forallb_app, forallb_map_const by reflexivity. cbn [andb].
  apply andb_true_iff. split.
  - apply flat_map_forallb. intros _ _. rewrite forallb_app.
    apply andb_true_iff. split.
    + unfold oracle_gates. destruct (p =? "qid_lt")%string;
        rewrite !forallb_app; cbn [forallb];
        now rewrite ?lt_operands, ?Hr, ?Hu.
    + unfold diffusion_gates.
      rewrite !forallb_app, !forallb_map_const by reflexivity.
      cbn [andb]. rewrite andb_true_r.
      destruct (length index =? 1); [reflexivity|].
      rewrite !forallb_app. cbn [forallb andb].
      change (operands_distinct (Gh (nth 0 index 0))) with true.
      cbn [andb]. rewrite !andb_true_r.
      apply mcx_operands.
      * apply (enough_work_le (length index)); auto.
        destruct index; simpl; lia.
      * apply (diffusion_ladder_distinct index [n; n + 1; n + 2]); auto; lia.
  - unfold final_gates. rewrite forallb_app. cbn [forallb andb].
    rewrite andb_true_r. destruct (p =? "qid_lt")%string;
      [now apply lt_operands|assumption].
Qed.

(** X12. For [n_index >= 1], [flags_count >= 3] and a tag of printable
    characters, no statement of the text either builder returns names the
    same qubit twice: every cx and ccx has pairwise different operands. *)
Theorem builders_operands_distinct header n_index count pred_type lo hi
  flags_count :
  1 <= n_index -> 3 <= flags_count -> printable pred_type = true ->
  builder_output
    (build_qasm2_grover_qfilter header n_index count pred_type lo hi
       flags_count)
    header (qreg_decl "q" (n_index + flags_count + work_count n_index))
    (grover_comment n_index count pred_type lo hi)
    (fun body => forallb operands_distinct body = true)
  /\ builder_output
       (build_qasm2_mlae_schedule_element header n_index count pred_type lo hi
          flags_count)
       header (qreg_decl "q" (n_index + flags_count + work_count n_index))
       (mlae_comment n_index count pred_type lo hi)
       (fun body => forallb operands_distinct body = true).
Proof.
  intros Hn Hf Hp.
  split; [apply grover_output|apply mlae_output]; auto; try lia;
    now apply program_body_operands.
Qed.

Lemma builders_operands_distinct_witness :
  1 <= 4 /\ 3 <= 3 /\ printable "qid_range" = true
  /\ builder_output
       (build_qasm2_grover_qfilter "OPENQASM 2.0;" 4 2 "qid_range" 3 11 3)
       "OPENQASM 2.0;" (qreg_decl "q" (4 + 3 + work_count 4))
       (grover_comment 4 2 "qid_range" 3 11)
       (fun body => forallb operands_distinct body = true).
Proof.
  split; [lia|]. split; [lia|]. split; [reflexivity|].
  apply (builders_operands_distinct "OPENQASM 2.0;" 4 2 "qid_range" 3 11 3);
    [lia|lia|reflexivity].
Defined.

(** X13. With fewer than three flags the temporaries alias the oracle
    flag: for [n_index >= 1], [flags_count] 1 or 2 and any tag other than
    ["qid_lt"], [build_qasm2_grover_qfilter] still returns a program, and that
    program contains a ccx whose second control and target are both the
    oracle flag [n_index]. *)
Theorem grover_few_flags_alias header n_index count pred_type lo hi
  flags_count :
  1 <= n_index -> 1 <= flags_count <= 2 ->
  (pred_type =? "qid_lt")%string = false ->
  exists lines,
    build_qasm2_grover_qfilter header n_index count pred_type lo hi
      flags_count = Ok (join_lines "q" lines)
    /\ In (Gccx (if 2 <=? flags_count then n_index + 1 else n_index)
             n_index n_index) lines
    /\ operands_distinct
         (Gccx (if 2 <=? flags_count then n_index + 1 else n_index)
            n_index n_index) = false.
Proof.
  intros Hn Hf Hp.
  exists (preamble header (grover_comment n_index count pred_type lo hi)
            n_index flags_count
          ++ program_body n_index (repetitions count) pred_type lo hi
               flags_count).
  repeat split.
  - apply finish_emits, grover_lines_emits; lia.
  - apply in_or_app. right. unfold program_body.
    apply in_or_app. right. apply in_or_app. right.
    unfold final_gates. rewrite Hp. apply in_or_app. left.
    unfold range_gates. apply in_or_app. right. apply in_or_app. right.
    destruct (Nat.leb_spec 3 flags_count); [lia|].
    unfold and_not_gates. right. now left.
  - unfold operands_distinct. cbn [qubits_of distinct mem existsb].
    rewrite Nat.eqb_refl. cbn. now rewrite andb_false_r.
Qed.

Lemma grover_few_flags_alias_witness :
  1 <= 3 /\ 1 <= 2 <= 2 /\ ("qid_range" =? "qid_lt")%string = false
  /\ exists lines,
       build_qasm2_grover_qfilter "OPENQASM 2.0;" 3 1 "qid_range" 2 6 2
       = Ok (join_lines "q" lines)
       /\ In (Gccx (if 2 <=? 2 then 3 + 1 else 3) 3 3) lines
       /\ operands_distinct (Gccx (if 2 <=? 2 then 3 + 1 else 3) 3 3) = false.
Proof.
  split; [lia|]. split; [lia|]. split; [reflexivity|].
  apply (grover_few_flags_alias "OPENQASM 2.0;" 3 1 "qid_range" 2 6 2);
    [lia|lia|reflexivity].
Defined.

(** * The kernels' predicate handling *)

Lemma clamp_range dom v : (0 <= dom)%Z -> (0 <= clamp dom v <= dom)%Z.
Proof. unfold clamp. lia. Qed.

Lemma kernel_pred_type_cases p :
  kernel_pred_type p = "qid_lt"%string
  \/ kernel_pred_type p = "qid_range"%string.
Proof.
  unfold kernel_pred_type.
  destruct (p =? "qid_lt")%string eqn:E1; cbn [orb].
  - left. now apply String.eqb_eq.
  - destruct (p =? "qid_range")%string eqn:E2; [right|now left].
    now apply String.eqb_eq.
Qed.

Lemma kernel_pred_type_given p :
  kernel_pred_type p = p \/ kernel_pred_type p = "qid_lt"%string.
Proof.
  unfold kernel_pred_type.
  destruct ((p =? "qid_lt") || (p =? "qid_range"))%string; auto.
Qed.

Lemma kernel_bounds_lt {value error} (int_ : value -> error + Z) truthy zero
  pred tags lo hi :
  kernel_bounds int_ truthy zero "qid_lt"%string pred tags = inr (lo, hi) ->
  lo = 0%Z.
Proof.
  unfold kernel_bounds. cbn [String.eqb Ascii.eqb Bool.eqb].
  destruct (int_ _); [discriminate|]. now intros [= <- _].
Qed.

(** X14. [GroverQFilterKernel.build], lines 53-78, for one workload instance
    and [n_index >= 1].  When a conversion [int(...)] of the branch taken
    raises, the kernel raises that exception and does not call the builder.
    Otherwise it calls the builder with a supported tag (the one found, or
    ["qid_lt"]), with both converted bounds clamped into [0, 2^n_index], with
    [lo = 0] for the less-than tag and with three flags, and the builder
    returns a program. *)
Theorem grover_kernel_call_normalised {value error : Type}
  (int_ : value -> error + Z) (truthy : value -> bool) (zero : value)
  header n_index iterations pred_type (pred tags : dict value) :
  1 <= n_index ->
  match
    kernel_bounds int_ truthy zero (kernel_pred_type pred_type) pred tags
  with
  | inl e =>
      grover_kernel_call int_ truthy zero header n_index iterations pred_type
        pred tags = inl e
  | inr (lo, hi) =>
      exists tag lo' hi' text,
        grover_kernel_call int_ truthy zero header n_index iterations
          pred_type pred tags = inr (Ok text)
        /\ build_qasm2_grover_qfilter header n_index iterations tag lo' hi' 3
           = Ok text
        /\ (tag = "qid_lt"%string \/ tag = "qid_range"%string)
        /\ (tag = pred_type \/ tag = "qid_lt"%string)
        /\ lo' = Z.max 0 (Z.min (2 ^ Z.of_nat n_index) lo)
        /\ hi' = Z.max 0 (Z.min (2 ^ Z.of_nat n_index) hi)
        /\ (0 <= lo' <= 2 ^ Z.of_nat n_index)%Z
        /\ (0 <= hi' <= 2 ^ Z.of_nat n_index)%Z
        /\ (tag = "qid_lt"%string -> lo' = 0%Z)
  end.
Proof.
  intros Hn. unfold grover_kernel_call.
  destruct (kernel_bounds int_ truthy zero (kernel_pred_type pred_type) pred
              tags) as [e|[lo hi]] eqn:Eb; [reflexivity|].
  rewrite Z.shiftl_1_l.
  set (dom := (2 ^ Z.of_nat n_index)%Z).
  assert (Hdom : (0 <= dom)%Z) by (apply Z.pow_nonneg; lia).
  exists (kernel_pred_type pred_type), (clamp dom lo), (clamp dom hi).
  eexists. split; [f_equal; apply finish_emits, grover_lines_emits; lia|].
  split; [apply finish_emits, grover_lines_emits; lia|].
  split; [apply kernel_pred_type_cases|].
  split; [apply kernel_pred_type_given|].
  split; [reflexivity|]. split; [reflexivity|].
  split; [now apply clamp_range|]. split; [now apply clamp_range|].
  intros E. rewrite E in Eb. apply kernel_bounds_lt in Eb. subst lo.
  unfold clamp. lia.
Qed.

Lemma grover_kernel_call_normalised_witness :
  1 <= 3
  /\ exists tag lo' hi' text,
       grover_kernel_call py_int py_truthy (PInt 0) "OPENQASM 2.0;" 3 1
         "qid_between" [("lo", PInt (-4)); ("M", PInt 100)]%string
         [("M", PInt 5)]%string
       = inr (Ok text)
       /\ build_qasm2_grover_qfilter "OPENQASM 2.0;" 3 1 tag lo' hi' 3
          = Ok text
       /\ (tag = "qid_lt"%string \/ tag = "qid_range"%string)
       /\ (tag = "qid_between"%string \/ tag = "qid_lt"%string)
       /\ lo' = Z.max 0 (Z.min (2 ^ Z.of_nat 3) 0)
       /\ hi' = Z.max 0 (Z.min (2 ^ Z.of_nat 3) 100)
       /\ (0 <= lo' <= 2 ^ Z.of_nat 3)%Z
       /\ (0 <= hi' <= 2 ^ Z.of_nat 3)%Z
       /\ (tag = "qid_lt"%string -> lo' = 0%Z).
Proof.
  split; [lia|].
  apply (grover_kernel_call_normalised py_int py_truthy (PInt 0)
           "OPENQASM 2.0;" 3 1 "qid_between"
           [("lo", PInt (-4)); ("M", PInt 100)]%string
           [("M", PInt 5)]%string).
  lia.
Defined.

(** A bound that is present with the value [None] is not replaced by the
    default: the conversion raises and no program is built. *)
Lemma grover_kernel_call_none_bound header n_index iterations tags :
  grover_kernel_call py_int py_truthy (PInt 0) header n_index iterations
    "qid_lt" [("hi", PNone)]%string tags
  = inl TypeError.
Proof. reflexivity. Qed.

(** An absent bound, or one that is [None] where the source writes [or 0],
    reads as [0]. *)
Lemma grover_kernel_call_absent_bounds header n_index iterations tags :
  grover_kernel_call py_int py_truthy (PInt 0) header n_index iterations
    "qid_range" [("lo", PNone)]%string tags
  = inr (build_qasm2_grover_qfilter header n_index iterations "qid_range" 0 0
           3).
Proof.
  unfold grover_kernel_call.
  cbv beta iota delta [kernel_bounds kernel_pred_type dict_get or_ py_int
                       py_truthy String.eqb Ascii.eqb Bool.eqb orb negb
                       Z.eqb].
  rewrite Z.shiftl_1_l. f_equal. f_equal; unfold clamp.
  - assert (0 <= 2 ^ Z.of_nat n_index)%Z by (apply Z.pow_nonneg; lia). lia.
  - assert (0 <= 2 ^ Z.of_nat n_index)%Z by (apply Z.pow_nonneg; lia). lia.
Qed.

(** Once the conversions have returned, the call is the one of
    [kernel_circuit] on the converted bounds. *)
Lemma grover_kernel_call_converted {value error : Type}
  (int_ : value -> error + Z) (truthy : value -> bool) (zero : value)
  header n_index iterations pred_type (pred tags : dict value) lo hi :
  kernel_bounds int_ truthy zero (kernel_pred_type pred_type) pred tags
  = inr (lo, hi) ->
  grover_kernel_call int_ truthy zero header n_index iterations pred_type
    pred tags
  = inr (kernel_circuit header n_index iterations pred_type hi lo hi).
Proof.
  intros Eb. unfold grover_kernel_call, kernel_circuit. rewrite Eb.
  destruct (kernel_pred_type pred_type =? "qid_lt")%string eqn:Et;
    [|reflexivity].
  apply String.eqb_eq in Et. rewrite Et in Eb.
  apply kernel_bounds_lt in Eb. now subst lo.
Qed.

Lemma kernel_pred_type_printable p : printable (kernel_pred_type p) = true.
Proof. now destruct (kernel_pred_type_cases p) as [-> | ->]. Qed.

(** X15. [MLAESelectivityKernel.build], lines 49-76, for one workload
    instance, [n_index >= 1] and an entry [k] of the schedule that the loop
    reaches.  When one of the conversions [int(...)] -- of the bounds of the
    branch taken, of [N], of [M], of [k], in this order -- raises, the kernel
    raises that exception and does not call the builder.  Otherwise the
    builder is called with a supported tag, the clamped bounds and three
    flags, and it returns a program, also for a negative [int(k)]: the header,
    the declaration of [n_index + 3 + max(0, n_index - 2)] qubits, the
    classical register, the comment, and the statements of the uniform
    preparation, of [max(0, int(k))] rounds of oracle and diffusion, of the
    final marking and of the measurement. *)
Theorem mlae_kernel_call_returns {value error : Type}
  (int_ : value -> error + Z) (truthy : value -> bool) (zero : value)
  header n_index k pred_type (pred tags : dict value) :
  1 <= n_index ->
  let call :=
    mlae_kernel_call int_ truthy zero header n_index k pred_type pred tags in
  match
    kernel_bounds int_ truthy zero (kernel_pred_type pred_type) pred tags,
    int_ (or_ truthy (dict_get pred "N" (dict_get tags "N" zero)) zero),
    int_ (or_ truthy (dict_get pred "M" (dict_get tags "M" zero)) zero),
    int_ k
  with
  | inl e, _, _, _ => call = inl e
  | inr _, inl e, _, _ => call = inl e
  | inr _, inr _, inl e, _ => call = inl e
  | inr _, inr _, inr _, inl e => call = inl e
  | inr (lo, hi), inr _, inr _, inr k_int =>
      exists tag lo' hi' text,
        call = inr (Ok text)
        /\ build_qasm2_mlae_schedule_element header n_index k_int tag lo' hi'
             3 = Ok text
        /\ (tag = "qid_lt"%string \/ tag = "qid_range"%string)
        /\ (tag = pred_type \/ tag = "qid_lt"%string)
        /\ lo' = Z.max 0 (Z.min (2 ^ Z.of_nat n_index) lo)
        /\ hi' = Z.max 0 (Z.min (2 ^ Z.of_nat n_index) hi)
        /\ (tag = "qid_lt"%string -> lo' = 0%Z)
        /\ builder_output (Ok text) header
             (qreg_decl "q" (n_index + 3 + work_count n_index))
             (mlae_comment n_index k_int tag lo' hi')
             (fun body =>
                body = program_body n_index (repetitions k_int) tag lo' hi' 3)
  end.
Proof.
  intros Hn call. unfold call, mlae_kernel_call.
  destruct (kernel_bounds int_ truthy zero (kernel_pred_type pred_type) pred
              tags) as [e|[lo hi]] eqn:Eb; [reflexivity|].
  destruct (int_ (or_ truthy (dict_get pred "N" (dict_get tags "N" zero))
                    zero)) as [e|N]; [reflexivity|].
  destruct (int_ (or_ truthy (dict_get pred "M" (dict_get tags "M" zero))
                    zero)) as [e|M]; [reflexivity|].
  destruct (int_ k) as [e|k_int]; [reflexivity|].
  rewrite Z.shiftl_1_l.
  set (dom := (2 ^ Z.of_nat n_index)%Z).
  assert (Hb : forall lo0 hi0,
             build_qasm2_mlae_schedule_element header n_index k_int
               (kernel_pred_type pred_type) lo0 hi0 3
             = Ok (join_lines "q"
                     (preamble header
                        (mlae_comment n_index k_int
                           (kernel_pred_type pred_type) lo0 hi0) n_index 3
                      ++ program_body n_index (repetitions k_int)
                           (kernel_pred_type pred_type) lo0 hi0 3)))
    by (intros; apply finish_emits, mlae_lines_emits; lia).
  exists (kernel_pred_type pred_type), (clamp dom lo), (clamp dom hi).
  eexists. split; [f_equal; apply Hb|].
  split; [apply Hb|].
  split; [apply kernel_pred_type_cases|].
  split; [apply kernel_pred_type_given|].
  split; [reflexivity|]. split; [reflexivity|]. split.
  - intros E. rewrite E in Eb. apply kernel_bounds_lt in Eb. subst lo.
    assert (0 <= dom)%Z by (apply Z.pow_nonneg; lia). unfold clamp. lia.
  - rewrite <- Hb. apply mlae_output; try lia; auto.
    apply kernel_pred_type_printable.
Qed.

Lemma mlae_kernel_call_returns_witness :
  1 <= 3
  /\ exists tag lo' hi' text,
       mlae_kernel_call py_int py_truthy (PInt 0) "OPENQASM 2.0;" 3
         (PInt (-1)) "qid_range" [("lo", PInt 2); ("hi", PInt 100)]%string
         [("N", PNone)]%string
       = inr (Ok text)
       /\ build_qasm2_mlae_schedule_element "OPENQASM 2.0;" 3 (-1) tag lo' hi'
            3 = Ok text
       /\ (tag = "qid_lt"%string \/ tag = "qid_range"%string)
       /\ (tag = "qid_range"%string \/ tag = "qid_lt"%string)
       /\ lo' = Z.max 0 (Z.min (2 ^ Z.of_nat 3) 2)
       /\ hi' = Z.max 0 (Z.min (2 ^ Z.of_nat 3) 100)
       /\ (tag = "qid_lt"%string -> lo' = 0%Z)
       /\ builder_output (Ok text) "OPENQASM 2.0;"
            (qreg_decl "q" (3 + 3 + work_count 3))
            (mlae_comment 3 (-1) tag lo' hi')
            (fun body =>
               body = program_body 3 (repetitions (-1)) tag lo' hi' 3).
Proof.
  split; [lia|].
  apply (mlae_kernel_call_returns py_int py_truthy (PInt 0) "OPENQASM 2.0;" 3
           (PInt (-1)) "qid_range" [("lo", PInt 2); ("hi", PInt 100)]%string
           [("N", PNone)]%string).
  lia.
Defined.

(** * The less-than tag needs one flag only *)

Lemma builder_layout_single n f :
  1 <= f ->
  layout_ok (range_ 0 n) [n] (range_ (n + f) (n + f + work_count n)) = true.
Proof.
  intros Hf. unfold layout_ok. apply distinct_NoDup.
  apply NoDup_app; [apply seq_NoDup| |].
  - simpl. apply NoDup_cons_iff. split; [|apply seq_NoDup].
    intros Hin. apply in_range_ in Hin. lia.
  - intros q Hq Hin. apply in_range_ in Hq. simpl in Hin.
    destruct Hin as [<-|Hin]; [lia|]. apply in_range_ in Hin. lia.
Qed.

Lemma program_body_lt n reps lo hi f :
  program_body n reps "qid_lt" lo hi f
  = map Gh (range_ 0 n)
    ++ flat_map (fun _ : nat =>
         (lt_gates (range_ 0 n) n hi
            (range_ (n + f) (n + f + work_count n))
          ++ [Gz n]
          ++ lt_gates (range_ 0 n) n hi
               (range_ (n + f) (n + f + work_count n)))
         ++ diffusion_gates (range_ 0 n)
              (range_ (n + f) (n + f + work_count n))) (range_ 0 reps)
    ++ lt_gates (range_ 0 n) n hi (range_ (n + f) (n + f + work_count n))
    ++ [Gmeasure n].
Proof. reflexivity. Qed.

Lemma program_body_lt_footprint n reps lo hi f :
  1 <= n -> 1 <= f ->
  uses_only (range_ 0 n ++ n :: range_ (n + f) (n + f + work_count n))
    (program_body n reps "qid_lt" lo hi f)
  /\ forallb operands_distinct (program_body n reps "qid_lt" lo hi f) = true.
Proof.
  intros Hn Hf. rewrite program_body_lt.
  set (index := range_ 0 n).
  set (work := range_ (n + f) (n + f + work_count n)).
  assert (Hlen : length index = n) by (unfold index; rewrite range_length; lia).
  assert (Hw : enough_work (length index) work = true)
    by (rewrite Hlen; apply builder_work_enough; lia).
  assert (Hlay : layout_ok index [n] work = true)
    by (now apply builder_layout_single).
  assert (Hflag : In n (index ++ n :: work))
    by (apply in_or_app; right; now left).
  assert (Hone : forall g, qubits_of g = [n] ->
                           uses_only (index ++ n :: work) [g]).
  { intros g Hg. apply Forall_cons; [|apply Forall_nil].
    rewrite Hg. now apply incl_one. }
  pose proof (lt_uses_only index n hi work Hw) as Ult.
  pose proof (lt_operands index n hi work Hlay Hw) as Olt.
  split.
  - apply uses_only_app.
    { apply uses_only_map. intros q Hq. apply incl_one, in_or_app. now left. }
    apply uses_only_app.
    + apply Forall_flat_map, Forall_forall. intros _ _.
      apply uses_only_app.
      { repeat apply uses_only_app; auto. }
      apply (uses_only_incl (index ++ [n; n; n] ++ work)).
      * intros q Hq. apply in_app_or in Hq. apply in_or_app.
        destruct Hq as [Hq|Hq]; [now left|right].
        simpl in Hq. simpl. intuition.
      * apply diffusion_uses_allowed; [assumption|lia].
    + apply uses_only_app; auto.
  - rewrite !forallb_app, forallb_map_const by reflexivity. cbn [andb].
    apply andb_true_iff. split.
    + apply flat_map_forallb. intros _ _.
      rewrite !forallb_app, Olt. cbn [forallb andb].
      change (operands_distinct (Gz n)) with true. cbn [andb].
      unfold diffusion_gates.
      rewrite !forallb_app, !forallb_map_const by reflexivity.
      cbn [andb]. rewrite andb_true_r.
      destruct (length index =? 1); [reflexivity|].
      rewrite !forallb_app. cbn [forallb andb].
      change (operands_distinct (Gh (nth 0 index 0))) with true.
      cbn [andb]. rewrite !andb_true_r.
      apply mcx_operands.
      * apply (enough_work_le (length index)); auto.
        destruct index; simpl; lia.
      * apply (diffusion_ladder_distinct index [n]); auto; lia.
    + now rewrite Olt.
Qed.

Lemma program_body_lt_avoids n reps lo hi f :
  1 <= n -> 1 <= f ->
  forallb (avoids (n + 1) (n + f)) (program_body n reps "qid_lt" lo hi f)
  = true.
Proof.
  intros Hn Hf.
  destruct (program_body_lt_footprint n reps lo hi f Hn Hf) as [Hu _].
  apply forallb_forall. intros g Hg.
  unfold uses_only in Hu. rewrite Forall_forall in Hu.
  unfold avoids. apply forallb_forall. intros q Hq.
  specialize (Hu g Hg q Hq). apply in_app_or in Hu.
  apply orb_true_iff.
  destruct Hu as [Hu|[<-|Hu]].
  - left. apply in_range_ in Hu. apply Nat.ltb_lt. lia.
  - left. apply Nat.ltb_lt. lia.
  - right. apply in_range_ in Hu. apply Nat.leb_le. lia.
Qed.

(** X16. With the less-than tag only the first flag is used: for
    [n_index >= 1] and any [flags_count >= 1], no statement of the text that
    [build_qasm2_grover_qfilter] returns for ["qid_lt"] mentions a flag qubit
    other than [n_index] (none of [n_index + 1 .. n_index + flags_count - 1]),
    and none names a qubit twice. *)
Theorem grover_less_than_uses_one_flag header n_index count lo hi flags_count :
  1 <= n_index -> 1 <= flags_count ->
  builder_output
    (build_qasm2_grover_qfilter header n_index count "qid_lt" lo hi
       flags_count)
    header (qreg_decl "q" (n_index + flags_count + work_count n_index))
    (grover_comment n_index count "qid_lt" lo hi)
    (fun body =>
       forallb (avoids (n_index + 1) (n_index + flags_count)) body = true
       /\ forallb operands_distinct body = true).
Proof.
  intros Hn Hf. apply grover_output; auto. split.
  - now apply program_body_lt_avoids.
  - now apply program_body_lt_footprint.
Qed.

Lemma grover_less_than_uses_one_flag_witness :
  1 <= 4 /\ 1 <= 3
  /\ builder_output
       (build_qasm2_grover_qfilter "OPENQASM 2.0;" 4 2 "qid_lt" 0 11 3)
       "OPENQASM 2.0;" (qreg_decl "q" (4 + 3 + work_count 4))
       (grover_comment 4 2 "qid_lt" 0 11)
       (fun body =>
          forallb (avoids (4 + 1) (4 + 3)) body = true
          /\ forallb operands_distinct body = true).
Proof.
  split; [lia|]. split; [lia|].
  apply (grover_less_than_uses_one_flag "OPENQASM 2.0;" 4 2 0 11 3); lia.
Defined.

(** * Spare work qubits *)

Lemma ladder_compute_used cs ws :
  3 <= length cs -> length cs - 2 <= length ws ->
  ladder_compute cs (used_work (length cs) ws) = ladder_compute cs ws.
Proof.
  intros Hk Hw. unfold ladder_compute, used_work. f_equal.
  - rewrite nth_firstn. destruct (Nat.ltb_spec 0 (length cs - 2)); [reflexivity|lia].
  - apply map_ext_in. intros i Hi. apply in_range_ in Hi.
    unfold ladder_step. rewrite !nth_firstn.
    destruct (Nat.ltb_spec (i - 2) (length cs - 2)); [|lia].
    destruct (Nat.ltb_spec (i - 1) (length cs - 2)); [reflexivity|lia].
Qed.

(** X17. When [mcx_ladder] is given enough work qubits it looks only at the
    first [k - 2] of them: called with the whole work list or with just that
    prefix (no work qubit at all for [k <= 2]) it appends the same
    statements, and these mention only the controls, the target and that
    prefix. *)
Theorem mcx_ladder_ignores_spare_work controls target work lines :
  enough_work (length controls) work = true ->
  mcx_ladder controls target work lines
  = mcx_ladder controls target (used_work (length controls) work) lines
  /\ exists gs,
       mcx_ladder controls target work lines = (Ok tt, lines ++ gs)
       /\ uses_only
            (controls ++ target :: used_work (length controls) work) gs.
Proof.
  intros Hw.
  assert (Hu : enough_work (length controls)
                 (used_work (length controls) work) = true).
  { unfold enough_work, used_work in *. rewrite length_firstn.
    apply orb_true_iff in Hw. apply orb_true_iff.
    destruct Hw as [Hw|Hw]; [now left|right].
    apply Nat.leb_le in Hw. apply Nat.leb_le. lia. }
  assert (E : mcx_gates controls target (used_work (length controls) work)
              = mcx_gates controls target work).
  { destruct (Nat.le_gt_cases (length controls) 2) as [Hk|Hk].
    - destruct controls as [|c0 [|c1 [|c2 cs]]]; simpl in Hk; try lia;
        reflexivity.
    - unfold enough_work in Hw. apply orb_true_iff in Hw.
      destruct Hw as [Hw|Hw]; apply Nat.leb_le in Hw; [lia|].
      rewrite !mcx_gates_ge3 by lia.
      rewrite ladder_compute_used by lia. do 2 f_equal.
      unfold ladder_last, used_work. rewrite nth_firstn.
      destruct (Nat.ltb_spec (length controls - 2 - 1) (length controls - 2));
        [reflexivity|lia]. }
  split.
  - rewrite (mcx_ladder_emits controls target work Hw lines).
    rewrite (mcx_ladder_emits controls target _ Hu lines). now rewrite E.
  - exists (mcx_gates controls target work). split.
    + now apply mcx_ladder_emits.
    + rewrite <- E. now apply mcx_uses_only.
Qed.

Lemma mcx_ladder_ignores_spare_work_witness :
  enough_work (length [0; 1; 2]) [4; 5; 6] = true
  /\ mcx_ladder [0; 1; 2] 3 [4; 5; 6] []
     = mcx_ladder [0; 1; 2] 3 (used_work (length [0; 1; 2]) [4; 5; 6]) [].
Proof.
  split; [reflexivity|].
  apply (mcx_ladder_ignores_spare_work [0; 1; 2] 3 [4; 5; 6] []). reflexivity.
Defined.
